(** * N-dimensional sequence alignment (Needleman-Wunsch / Smith-Waterman)

    A shallow embedding of [nw.py], [sw.py], [score.py] and [config.py],
    followed by the properties of the dynamic-programming engine.

    Python values are modelled as the code uses them: integers are [Z],
    strings are lists of characters, lists are indexed with Python's
    rules (negative indices count from the end, anything else out of
    range raises [IndexError]), and a raised exception is an explicit
    result of every fallible operation. *)

From Stdlib Require Import String Ascii DecimalString.
From Stdlib Require Import ZArith List Bool Lia.
Import ListNotations.
Set Warnings "-register-all".
Open Scope Z_scope.

(** ** The fragment of Python the two engines rely on *)

Module Py.

Inductive exn : Type :=
| IndexError
| TypeError
| AttributeError
| ValueError
| UnboundLocalError.

(** [OutOfFuel] is not a Python outcome: it is what a [while] loop of the
    model answers when the iteration budget it was given is too small. *)
Inductive result (A : Type) : Type :=
| Ok (a : A)
| Raise (e : exn)
| OutOfFuel.

Arguments Ok {A} a.
Arguments Raise {A} e.
Arguments OutOfFuel {A}.

Definition bind {A B : Type} (m : result A) (f : A -> result B) : result B :=
  match m with
  | Ok a => f a
  | Raise e => Raise e
  | OutOfFuel => OutOfFuel
  end.

Definition str : Type := list ascii.

Definition lit (s : string) : str := list_ascii_of_string s.

Fixpoint str_eqb (a b : str) : bool :=
  match a, b with
  | [], [] => true
  | x :: a', y :: b' => Ascii.eqb x y && str_eqb a' b'
  | _, _ => false
  end.

Fixpoint coord_eqb (a b : list Z) : bool :=
  match a, b with
  | [], [] => true
  | x :: a', y :: b' => (x =? y) && coord_eqb a' b'
  | _, _ => false
  end.

Definition len {A : Type} (l : list A) : Z := Z.of_nat (length l).

(** The position a Python index designates in a sequence of [n] items. *)
Definition norm_index (n : nat) (i : Z) : option nat :=
  if (0 <=? i) && (i <? Z.of_nat n) then Some (Z.to_nat i)
  else if (- Z.of_nat n <=? i) && (i <? 0) then Some (Z.to_nat (Z.of_nat n + i))
  else None.

(** [l[i]] *)
Definition getitem {A : Type} (l : list A) (i : Z) : result A :=
  match norm_index (length l) i with
  | Some k => match nth_error l k with
              | Some a => Ok a
              | None => Raise IndexError
              end
  | None => Raise IndexError
  end.

Fixpoint upd {A : Type} (l : list A) (k : nat) (v : A) : list A :=
  match l, k with
  | [], _ => []
  | _ :: t, O => v :: t
  | h :: t, S k' => h :: upd t k' v
  end.

(** [l[i] = v] *)
Definition setitem {A : Type} (l : list A) (i : Z) (v : A) : result (list A) :=
  match norm_index (length l) i with
  | Some k => Ok (upd l k v)
  | None => Raise IndexError
  end.

(** [l.remove(x)]: drops the first item equal to [x], [ValueError] if none. *)
Fixpoint remove (x : str) (l : list str) : result (list str) :=
  match l with
  | [] => Raise ValueError
  | y :: t => if str_eqb y x then Ok t
              else bind (remove x t) (fun t' => Ok (y :: t'))
  end.

Fixpoint sum (l : list Z) : Z :=
  match l with
  | [] => 0
  | x :: t => x + sum t
  end.

(** [max(l)] of a list of integers; [ValueError] on the empty list. *)
Definition max (l : list Z) : result Z :=
  match l with
  | [] => Raise ValueError
  | x :: t => Ok (fold_left Z.max t x)
  end.

(** [c * n] for a one-character string [c]: empty when [n <= 0]. *)
Definition times (c : ascii) (n : Z) : str := repeat c (Z.to_nat n).

(** [s[:j]] and [s[i:]] with Python's clamping of the bounds. *)
Definition slice_to {A : Type} (s : list A) (j : Z) : list A :=
  if j <? 0 then firstn (Z.to_nat (len s + j)) s else firstn (Z.to_nat j) s.

Definition slice_from {A : Type} (s : list A) (i : Z) : list A :=
  if i <? 0 then skipn (Z.to_nat (len s + i)) s else skipn (Z.to_nat i) s.

(** [str(n)] for an integer. *)
Definition str_of_int (n : Z) : str :=
  list_ascii_of_string (NilZero.string_of_int (Z.to_int n)).

End Py.

Import Py.

Notation "x <- m ;; k" := (bind m (fun x => k))
  (at level 61, m at next level, right associativity).

(** ** config.py and score.py *)

Record Config : Type := mkConfig {
  cmatch : Z;
  mismatch : Z;
  gap : Z;
  twogaps : Z
}.

(** [Config()] *)
Definition default_config : Config :=
  {| cmatch := 5; mismatch := -2; gap := -4; twogaps := 0 |}.

(** [Score(coordinate, score)]; the third field, [move], is never given
    by either engine and keeps its default [None], so it is left out. *)
Record Score : Type := mkScore {
  coordinate : option (list Z);
  score : Z
}.

(** What a slot of the nested matrix can hold: [None], a [Score] object,
    or the list of the next dimension. *)
Inductive pyval : Type :=
| PNone
| PScore (s : Score)
| PList (l : list pyval).

(** ** The methods that [NW] and [SW] define with the same text *)

Module Engine.

Definition gapc : ascii := "_"%char.
Definition dotc : ascii := "."%char.

Section Methods.

Variable sequences : list str.
Variable config : Config.

(** [generatebasepairs]: [v] is the index that [zip(x, range(len(x)))]
    pairs with the entry [u]. *)
Fixpoint generatebasepairs_from (v : nat) (x : list Z) : result str :=
  match x with
  | [] => Ok []
  | u :: x' =>
      if u =? 0 then
        rest <- generatebasepairs_from (S v) x' ;; Ok (gapc :: rest)
      else
        s <- getitem sequences (Z.of_nat v) ;;
        ch <- getitem s (u - 1) ;;
        rest <- generatebasepairs_from (S v) x' ;;
        Ok (ch :: rest)
  end.

Definition generatebasepairs (x : list Z) : result str :=
  generatebasepairs_from 0 x.

(** One round of the [for u in range(1, len(x))] loop of [generatemoves]. *)
Definition extend_moves (returnvalue : list str) (xu : ascii) : list str :=
  if Ascii.eqb xu gapc then map (fun y => y ++ [gapc]) returnvalue
  else map (fun y => y ++ [xu]) returnvalue
       ++ map (fun y => y ++ [gapc]) returnvalue.

Definition generatemoves (x : str) : result (list str) :=
  match x with
  | [] => Raise IndexError
  | x0 :: xs =>
      let returnvalue :=
        if negb (Ascii.eqb x0 gapc) then [[x0]; [gapc]] else [[x0]] in
      Py.remove (repeat gapc (length x)) (fold_left extend_moves xs returnvalue)
  end.

Fixpoint generatecoordinates (x : str) (y : list Z) : list Z :=
  match x, y with
  | u :: x', v :: y' =>
      (if Ascii.eqb u gapc then v else v - 1) :: generatecoordinates x' y'
  | _, _ => []
  end.

(** A pair is the two-character string [x[u] + a]. *)
Fixpoint getallpairs (x : str) : list (ascii * ascii) :=
  match x with
  | [] => []
  | xu :: rest => map (fun a => (xu, a)) rest ++ getallpairs rest
  end.

Definition scorePair (x : ascii * ascii) : Z :=
  let (x0, x1) := x in
  if Ascii.eqb x0 x1 && Ascii.eqb x1 gapc then twogaps config
  else if Ascii.eqb x0 gapc || Ascii.eqb x1 gapc then gap config
  else if Ascii.eqb x0 x1 then cmatch config
  else mismatch config.

(** [sum(scores)] over [scores = [scorePair(u) for u in getallpairs(move)]]. *)
Definition movescore (move : str) : Z :=
  Py.sum (map scorePair (getallpairs move)).

Fixpoint retrievematrixelement (currentelement : pyval) (coord : list Z)
  : result pyval :=
  match coord with
  | [] => Ok currentelement
  | u :: rest =>
      match currentelement with
      | PList l => next <- getitem l u ;; retrievematrixelement next rest
      | _ => Raise TypeError
      end
  end.

(** [o.score] *)
Definition score_of (o : pyval) : result Z :=
  match o with
  | PScore s => Ok (score s)
  | _ => Raise AttributeError
  end.

(** [o.coordinate] *)
Definition coordinate_of (o : pyval) : result (option (list Z)) :=
  match o with
  | PScore s => Ok (coordinate s)
  | _ => Raise AttributeError
  end.

(** [enterelement]: the nested lists are never shared between slots (the
    comprehension of [initializeMatrix] builds each one anew), so the
    in-place assignment is the functional update of one path. *)
Fixpoint enterelement (matrix : pyval) (coordinate : list Z) (value : pyval)
  : result pyval :=
  match coordinate with
  | [] => Raise IndexError
  | [u] =>
      match matrix with
      | PList l => l' <- setitem l u value ;; Ok (PList l')
      | _ => Raise TypeError
      end
  | u :: rest =>
      match matrix with
      | PList l =>
          sub <- getitem l u ;;
          sub' <- enterelement sub rest value ;;
          l' <- setitem l u sub' ;;
          Ok (PList l')
      | _ => Raise TypeError
      end
  end.

Fixpoint initializeMatrix (seqs : list str) : result pyval :=
  match seqs with
  | [] => Raise IndexError
  | currentSequence :: rest =>
      match rest with
      | [] => Ok (PList (repeat PNone (length currentSequence + 1)))
      | _ => sub <- initializeMatrix rest ;;
             Ok (PList (repeat sub (length currentSequence + 1)))
      end
  end.

(** The carries of [increase], for [x] running over [range(len - 1)]:
    the counter has one entry per sequence, so [counter[x]] and
    [counter[x+1]] are the two entries in front. *)
Fixpoint carry (seqs : list str) (counter : list Z) : list Z :=
  match seqs, counter with
  | s :: ((_ :: _) as seqs'), cx :: cy :: counter' =>
      if cx =? len s + 1 then 0 :: carry seqs' ((cy + 1) :: counter')
      else cx :: carry seqs' (cy :: counter')
  | _, _ => counter
  end.

Definition increase (counter : list Z) : list Z :=
  match counter with
  | [] => []
  | c0 :: rest => carry sequences ((c0 + 1) :: rest)
  end.

(** The test of the [while] loop of [solve]. *)
Definition unfinished (counter : list Z) : result bool :=
  c <- getitem counter (-1) ;;
  s <- getitem sequences (-1) ;;
  Ok (negb (c =? len s + 1)).

(** The coordinate and score a move leads to, as the body of the loop
    over [moves] computes them. *)
Definition candidate (matrix : pyval) (counter : list Z) (move : str)
  : result (list Z * Z) :=
  let coordinates := generatecoordinates move counter in
  cell <- retrievematrixelement matrix coordinates ;;
  sc <- score_of cell ;;
  Ok (coordinates, sc + movescore move).

(** One line of output per sequence: the inner [for v] loop of [__str__]. *)
Fixpoint extend_strings (v : nat) (origin destination : option (list Z))
  (resultstrings : list str) : result (list str) :=
  match resultstrings with
  | [] => Ok []
  | r :: rs =>
      o <- match origin with Some o => Ok o | None => Raise TypeError end ;;
      ov <- getitem o (Z.of_nat v) ;;
      d <- match destination with Some d => Ok d | None => Raise TypeError end ;;
      dv <- getitem d (Z.of_nat v) ;;
      r' <- (if ov =? dv then Ok (r ++ [dotc])
             else s <- getitem sequences (Z.of_nat v) ;;
                  ch <- getitem s (dv - 1) ;;
                  Ok (r ++ [ch])) ;;
      rs' <- extend_strings (S v) origin destination rs ;;
      Ok (r' :: rs')
  end.

(** The [for u in range(1, len(result))] loop: [result] is walked by
    consecutive pairs; the last pair visited is returned with the strings
    because [SW.__str__] reads [origin] after the loop. *)
Fixpoint walk (result : list (option (list Z))) (resultstrings : list str)
  (last : option (option (list Z)))
  : Py.result (list str * option (option (list Z))) :=
  match result with
  | origin :: ((destination :: _) as rest) =>
      rs <- extend_strings 0 origin destination resultstrings ;;
      walk rest rs (Some origin)
  | _ => Ok (resultstrings, last)
  end.

End Methods.

End Engine.

Import Engine.

Definition newline : ascii := "010"%char.

Definition notsolved_message : str :=
  lit "The matrix has not been solved yet. Call the solve() method to solve the matrix.".

Definition usage_message : str := lit "Please give at least 2 sequences".

(** [[len(u) for u in sequences]] *)
Definition lengths (sequences : list str) : list Z := map len sequences.

(** [[0] * len(sequences)] *)
Definition zeros (sequences : list str) : list Z :=
  repeat 0 (length sequences).

(** The number of slots of the matrix, which bounds the iterations of
    [solve], and the sum of the lengths, which bounds those of a walk
    back along the stored coordinates. *)
Fixpoint lattice_size (sequences : list str) : nat :=
  match sequences with
  | [] => 1%nat
  | s :: rest => (S (length s) * lattice_size rest)%nat
  end.

Fixpoint total_length (sequences : list str) : nat :=
  match sequences with
  | [] => 0%nat
  | s :: rest => (length s + total_length rest)%nat
  end.

(** ** nw.py *)

Module NW.

Record t : Type := mk {
  sequences : list str;
  config : Config;
  matrix : pyval;
  counter : list Z
}.

(** [NW(sequences, config)] *)
Definition init (sequences : list str) (config : Config) : result t :=
  m0 <- initializeMatrix sequences ;;
  m <- enterelement m0 (zeros sequences)
         (PScore (mkScore (Some (zeros sequences)) 0)) ;;
  Ok {| sequences := sequences;
        config := config;
        matrix := m;
        counter := 1 :: repeat 0 (length sequences - 1) |}.

(** The [for move in moves] loop of [solve]. *)
Fixpoint best (config : Config) (matrix : pyval) (counter : list Z)
  (moves : list str) (maxscore : Z) (bestmove : option (list Z))
  : result (Z * option (list Z)) :=
  match moves with
  | [] => Ok (maxscore, bestmove)
  | move :: rest =>
      c <- candidate config matrix counter move ;;
      let (coordinates, newscore) := c in
      if newscore >? maxscore
      then best config matrix counter rest newscore (Some coordinates)
      else best config matrix counter rest maxscore bestmove
  end.

Definition sentinel : Z := -100000000.

(** The body of the [while] loop of [solve]. *)
Definition step (self : t) : result t :=
  basepair <- generatebasepairs (sequences self) (counter self) ;;
  moves <- generatemoves basepair ;;
  r <- best (config self) (matrix self) (counter self) moves sentinel None ;;
  let (maxscore, bestmove) := r in
  m <- enterelement (matrix self) (counter self)
         (PScore (mkScore bestmove maxscore)) ;;
  Ok {| sequences := sequences self;
        config := config self;
        matrix := m;
        counter := increase (sequences self) (counter self) |}.

Fixpoint solve_loop (fuel : nat) (self : t) : result t :=
  match fuel with
  | O => OutOfFuel
  | S fuel' =>
      b <- unfinished (sequences self) (counter self) ;;
      if b then self' <- step self ;; solve_loop fuel' self'
      else Ok self
  end.

Definition solve (self : t) : result t :=
  solve_loop (lattice_size (sequences self)) self.

(** The [while currentorigin != [0] * len(self.sequences)] loop of
    [__str__]; following [None] fails in [retrievematrixelement], which
    iterates over its argument. *)
Fixpoint trace (fuel : nat) (matrix : pyval) (zero : list Z)
  (currentorigin : option (list Z)) (result : list (option (list Z)))
  : Py.result (list (option (list Z))) :=
  let continue :=
    match currentorigin with
    | Some c => negb (coord_eqb c zero)
    | None => true
    end in
  if continue then
    match fuel with
    | O => OutOfFuel
    | S fuel' =>
        c <- match currentorigin with
             | Some c => Ok c
             | None => Raise TypeError
             end ;;
        cell <- retrievematrixelement matrix c ;;
        p <- coordinate_of cell ;;
        trace fuel' matrix zero p (p :: result)
    end
  else Ok result.

(** The path and the lines ([resultstrings]) that [__str__] builds once it
    has found the far corner filled.  Each round of the loop but the last
    lowers the sum of the entries of [currentorigin], and the last one is
    the round that fails on a coordinate that is [None]: the sum of the
    lengths plus one bounds the rounds. *)
Definition path (self : t) : result (list (option (list Z))) :=
  let origin := lengths (sequences self) in
  result <- trace (S (total_length (sequences self))) (matrix self)
              (zeros (sequences self)) (Some origin) [] ;;
  Ok (result ++ [Some origin]).

Definition alignment (self : t) : result (list str) :=
  result <- path self ;;
  w <- walk (sequences self) result
         (repeat [] (length (sequences self))) None ;;
  Ok (fst w).

Definition header : str := lit "The score for this alignment is: ".

(** [__str__] *)
Definition to_str (self : t) : result str :=
  let origin := lengths (sequences self) in
  cell <- retrievematrixelement (matrix self) origin ;;
  sc <- score_of cell ;;
  let returnstring := header ++ str_of_int sc ++ [newline; newline] in
  cell' <- retrievematrixelement (matrix self) origin ;;
  match cell' with
  | PNone => Ok notsolved_message
  | _ =>
      resultstrings <- alignment self ;;
      Ok (returnstring ++ concat (map (fun value => value ++ [newline]) resultstrings))
  end.

(** [main], from the sequences read from the files named on the command
    line to the text printed. *)
Definition main (sequences : list str) : result str :=
  if len sequences <=? 1 then Ok usage_message
  else
    x <- init sequences default_config ;;
    x' <- solve x ;;
    to_str x'.

End NW.

(** ** sw.py *)

Module SW.

Record t : Type := mk {
  sequences : list str;
  config : Config;
  matrix : pyval;
  counter : list Z;
  bestscore : Z;
  bestcoordinate : list Z
}.

(** [SW(sequences, config)] *)
Definition init (sequences : list str) (config : Config) : result t :=
  m0 <- initializeMatrix sequences ;;
  m <- enterelement m0 (zeros sequences)
         (PScore (mkScore (Some (zeros sequences)) 0)) ;;
  Ok {| sequences := sequences;
        config := config;
        matrix := m;
        counter := 1 :: repeat 0 (length sequences - 1);
        bestscore := 0;
        bestcoordinate := zeros sequences |}.

(** What the [for move in moves] loop of [solve] updates. *)
Record acc : Type := mkAcc {
  maxscore : Z;
  bestmove : option (list Z);
  acc_bestscore : Z;
  acc_bestcoordinate : list Z
}.

Fixpoint best (config : Config) (matrix : pyval) (counter : list Z)
  (moves : list str) (a : acc) : result acc :=
  match moves with
  | [] => Ok a
  | move :: rest =>
      c <- candidate config matrix counter move ;;
      let (coordinates, newscore) := c in
      let a1 :=
        if newscore >? maxscore a
        then mkAcc newscore (Some coordinates)
                   (acc_bestscore a) (acc_bestcoordinate a)
        else a in
      let a2 :=
        if newscore >? acc_bestscore a1
        then mkAcc (maxscore a1) (bestmove a1) newscore counter
        else a1 in
      best config matrix counter rest a2
  end.

(** The body of the [while] loop of [solve]. *)
Definition step (self : t) : result t :=
  basepair <- generatebasepairs (sequences self) (counter self) ;;
  moves <- generatemoves basepair ;;
  a <- best (config self) (matrix self) (counter self) moves
         (mkAcc 0 None (bestscore self) (bestcoordinate self)) ;;
  m <- enterelement (matrix self) (counter self)
         (PScore (mkScore (bestmove a) (maxscore a))) ;;
  Ok {| sequences := sequences self;
        config := config self;
        matrix := m;
        counter := increase (sequences self) (counter self);
        bestscore := acc_bestscore a;
        bestcoordinate := acc_bestcoordinate a |}.

Fixpoint solve_loop (fuel : nat) (self : t) : result t :=
  match fuel with
  | O => OutOfFuel
  | S fuel' =>
      b <- unfinished (sequences self) (counter self) ;;
      if b then self' <- step self ;; solve_loop fuel' self'
      else Ok self
  end.

Definition solve (self : t) : result t :=
  solve_loop (lattice_size (sequences self)) self.

(** The [while] loop of [__str__]: it leaves through [break] at a cell
    whose coordinate is [None].  The coordinate is read a second time for
    [result.insert]; were that one [None], the loop would end on it and
    the next loop would fail on indexing it. *)
Fixpoint trace (fuel : nat) (matrix : pyval) (zero : list Z)
  (currentorigin : list Z) (result : list (list Z))
  : Py.result (list Z * list (list Z)) :=
  if negb (coord_eqb currentorigin zero) then
    match fuel with
    | O => OutOfFuel
    | S fuel' =>
        cell <- retrievematrixelement matrix currentorigin ;;
        nextorigin <- coordinate_of cell ;;
        match nextorigin with
        | None => Ok (currentorigin, result)
        | Some p =>
            cell' <- retrievematrixelement matrix currentorigin ;;
            p' <- coordinate_of cell' ;;
            match p' with
            | Some q => trace fuel' matrix zero q (q :: result)
            | None => Raise TypeError
            end
        end
    end
  else Ok (currentorigin, result).

(** The last comprehension of [__str__], over
    [zip(self.sequences, origin, resultstrings, currentorigin)]. *)
Fixpoint flank (whole : list Z) (seqs : list str) (origin : list Z)
  (resultstrings : list str) (currentorigin : list Z) : result (list str) :=
  match seqs, origin, resultstrings, currentorigin with
  | u :: seqs', v :: origin', w :: resultstrings', x :: currentorigin' =>
      m <- Py.max whole ;;
      rest <- flank whole seqs' origin' resultstrings' currentorigin' ;;
      Ok ((times " "%char (m - x) ++ slice_to u x ++ ["|"%char] ++ w
           ++ ["|"%char] ++ slice_from u (v + 1)) :: rest)
  | _, _, _, _ => Ok []
  end.

Definition header : str :=
  lit "The aligned portion of the sequences is bounded by |"
  ++ [newline]
  ++ lit "All nucleotides outside of these bounds are only there to show the entire sequence, "
  ++ [newline]
  ++ lit "and there is no alignment between the sequences outside of these bounds."
  ++ [newline; newline]
  ++ lit "The score for this alignment is: ".

(** [__str__] *)
Definition to_str (self : t) : result str :=
  let originn := lengths (sequences self) in
  let returnstring :=
    header ++ str_of_int (bestscore self) ++ [newline; newline] in
  cell <- retrievematrixelement (matrix self) originn ;;
  match cell with
  | PNone => Ok notsolved_message
  | _ =>
      tr <- trace (total_length (sequences self)) (matrix self)
              (zeros (sequences self)) (bestcoordinate self)
              [bestcoordinate self] ;;
      let (currentorigin, result) := tr in
      w <- walk (sequences self) (map Some result)
             (map (fun _ => []) (sequences self)) None ;;
      let (resultstrings, last) := w in
      origin <- match last with
                | Some (Some o) => Ok o
                | Some None => Raise TypeError
                | None => Raise UnboundLocalError
                end ;;
      lines <- flank currentorigin (sequences self) origin resultstrings
                 currentorigin ;;
      Ok (returnstring ++ concat (map (fun value => value ++ [newline]) lines))
  end.

(** [main] *)
Definition main (sequences : list str) : result str :=
  if len sequences <=? 1 then Ok usage_message
  else
    x <- init sequences default_config ;;
    x' <- solve x ;;
    to_str x'.

End SW.

(** ** Notions used to state the properties *)

(** The coordinates of the lattice: one entry per sequence, between 0 and
    that sequence's length. *)
Definition in_lattice (sequences : list str) (c : list Z) : Prop :=
  Forall2 (fun s x => 0 <= x <= len s) sequences c.

(** The position of a coordinate in the odometer order, dimension 0
    varying fastest. *)
Fixpoint rank (sequences : list str) (c : list Z) : Z :=
  match sequences, c with
  | s :: ss, x :: cs => x + (len s + 1) * rank ss cs
  | _, _ => 0
  end.

(** What the traversal counter may be: a lattice coordinate, or the last
    dimension one past its end once the traversal is over. *)
Fixpoint counter_ok (sequences : list str) (c : list Z) : Prop :=
  match sequences with
  | [] => False
  | s :: ss =>
      match c with
      | [] => False
      | x :: cs =>
          match ss with
          | [] => cs = [] /\ 0 <= x <= len s + 1
          | _ :: _ => 0 <= x <= len s /\ counter_ok ss cs
          end
      end
  end.

(** The nested lists have one level per sequence, [len + 1] items wide,
    and slots at the bottom. *)
Fixpoint shaped (sequences : list str) (m : pyval) : Prop :=
  match sequences with
  | [] => match m with PList _ => False | _ => True end
  | s :: rest =>
      match m with
      | PList l => length l = S (length s) /\ Forall (shaped rest) l
      | _ => False
      end
  end.

Definition filled (m : pyval) (c : list Z) : Prop :=
  exists s, retrievematrixelement m c = Ok (PScore s).

(** Entries of a base-pair string that are symbols, and entries of a
    coordinate that are positive. *)
Definition nongaps (x : str) : nat :=
  length (filter (fun ch => negb (Ascii.eqb ch gapc)) x).

Definition positives (c : list Z) : nat :=
  length (filter (fun u => 0 <? u) c).

Definition gapfree (sequences : list str) : Prop :=
  Forall (fun s => ~ In gapc s) sequences.

Definition dotfree (sequences : list str) : Prop :=
  Forall (fun s => ~ In dotc s) sequences.

(** A move of the base-pair string [x]: entry by entry, the symbol of [x]
    or the gap marker. *)
Definition masks (x move : str) : Prop :=
  Forall2 (fun xi mi => mi = xi \/ mi = gapc) x move.

(** The base-pair string of a coordinate, as [generatebasepairs] builds
    it: the gap marker where the entry is 0, else the symbol found at
    that entry minus one. *)
Inductive bases : list str -> list Z -> str -> Prop :=
| bases_nil ss : bases ss [] []
| bases_gap s ss c bp :
    bases ss c bp -> bases (s :: ss) (0 :: c) (gapc :: bp)
| bases_sym s ss u c ch bp :
    u <> 0 -> getitem s (u - 1) = Ok ch -> bases ss c bp ->
    bases (s :: ss) (u :: c) (ch :: bp).

(** A slot holds [None] or a [Score], never a list. *)
Definition is_slot (v : pyval) : Prop :=
  match v with PList _ => False | _ => True end.

(** What the counter may be when [increase] has added one to dimension 0
    and not yet carried. *)
Definition carry_pre (sequences : list str) (c : list Z) : Prop :=
  match sequences, c with
  | s :: ss, x :: cs => 0 <= x <= len s + 1 /\ in_lattice ss cs
  | _, _ => False
  end.

(** The state of a traversal: the matrix has the shape of the lattice,
    the counter is valid and past the origin, the origin holds what the
    constructor entered, and the coordinates that hold a [Score] are those
    that come before the counter in odometer order. *)
Record traversal (sequences : list str) (m : pyval) (counter : list Z)
  : Prop := mkTraversal {
  tr_nonempty : sequences <> [];
  tr_shape : shaped sequences m;
  tr_counter : counter_ok sequences counter;
  tr_rank : 0 < rank sequences counter;
  tr_origin : retrievematrixelement m (zeros sequences)
              = Ok (PScore (mkScore (Some (zeros sequences)) 0));
  tr_filled : forall c, in_lattice sequences c ->
                        rank sequences c < rank sequences counter ->
                        filled m c;
  tr_unset : forall c, in_lattice sequences c ->
                       rank sequences counter <= rank sequences c ->
                       retrievematrixelement m c = Ok PNone
}.

(** The candidates of a coordinate: for each enumerated move, in the order
    of the enumeration, its predecessor coordinate and its score. *)
Fixpoint candidates_of (config : Config) (m : pyval) (c : list Z)
  (moves : list str) : result (list (list Z * Z)) :=
  match moves with
  | [] => Ok []
  | move :: rest =>
      cand <- candidate config m c move ;;
      cands <- candidates_of config m c rest ;;
      Ok (cand :: cands)
  end.

Definition candidates (sequences : list str) (config : Config) (m : pyval)
  (c : list Z) : result (list (list Z * Z)) :=
  bp <- generatebasepairs sequences c ;;
  moves <- generatemoves bp ;;
  candidates_of config m c moves.

(** The selection that the loop of [NW.solve] makes among candidates. *)
Fixpoint NW_pick (cands : list (list Z * Z)) (maxscore : Z)
  (bestmove : option (list Z)) : Z * option (list Z) :=
  match cands with
  | [] => (maxscore, bestmove)
  | (coordinates, newscore) :: rest =>
      if newscore >? maxscore then NW_pick rest newscore (Some coordinates)
      else NW_pick rest maxscore bestmove
  end.

Definition NW_cell (cands : list (list Z * Z)) : Score :=
  let (maxscore, bestmove) := NW_pick cands NW.sentinel None in
  mkScore bestmove maxscore.

(** The selection that the loop of [SW.solve] makes, running best
    included. *)
Fixpoint SW_pick (cands : list (list Z * Z)) (counter : list Z) (a : SW.acc)
  : SW.acc :=
  match cands with
  | [] => a
  | (coordinates, newscore) :: rest =>
      let a1 :=
        if newscore >? SW.maxscore a
        then SW.mkAcc newscore (Some coordinates)
                      (SW.acc_bestscore a) (SW.acc_bestcoordinate a)
        else a in
      let a2 :=
        if newscore >? SW.acc_bestscore a1
        then SW.mkAcc (SW.maxscore a1) (SW.bestmove a1) newscore counter
        else a1 in
      SW_pick rest counter a2
  end.

Definition SW_cell (cands : list (list Z * Z)) : Score :=
  let (maxscore, bestmove) := NW_pick cands 0 None in
  mkScore bestmove maxscore.

(** [(p, s)] is the first candidate of the list whose score is the
    largest. *)
Definition first_max (cands : list (list Z * Z)) (p : list Z) (s : Z) : Prop :=
  exists before after,
    cands = before ++ (p, s) :: after /\
    Forall (fun cand => snd cand < s) before /\
    Forall (fun cand => snd cand <= s) after.

(** The states an engine goes through: the one its constructor returns,
    and those that running the body of the loop of [solve] leads to. *)
Inductive NW_reach (sequences : list str) (config : Config) : NW.t -> Prop :=
| NW_fresh st :
    NW.init sequences config = Ok st -> NW_reach sequences config st
| NW_next st st' :
    NW_reach sequences config st ->
    unfinished (NW.sequences st) (NW.counter st) = Ok true ->
    NW.step st = Ok st' ->
    NW_reach sequences config st'.

Inductive SW_reach (sequences : list str) (config : Config) : SW.t -> Prop :=
| SW_fresh st :
    SW.init sequences config = Ok st -> SW_reach sequences config st
| SW_next st st' :
    SW_reach sequences config st ->
    unfinished (SW.sequences st) (SW.counter st) = Ok true ->
    SW.step st = Ok st' ->
    SW_reach sequences config st'.

(** The sequences on which the traversal can start: dimension 0 is where
    the counter begins at 1. *)
Definition startable (sequences : list str) : Prop :=
  match sequences with
  | [] => False
  | [_] => True
  | s :: _ => s <> []
  end.

(** Every coordinate before the counter, the origin apart, holds the cell
    that [cell] makes of its candidates. *)
Definition recurrence (cell : list (list Z * Z) -> Score)
  (sequences : list str) (config : Config) (m : pyval) (counter : list Z)
  : Prop :=
  forall c, in_lattice sequences c ->
            0 < rank sequences c < rank sequences counter ->
            exists cands,
              candidates sequences config m c = Ok cands /\
              retrievematrixelement m c = Ok (PScore (cell cands)).

(** What holds of every state of an engine whose traversal can start. *)
Definition NW_inv (sequences : list str) (config : Config) (st : NW.t) : Prop :=
  NW.sequences st = sequences /\
  NW.config st = config /\
  traversal sequences (NW.matrix st) (NW.counter st) /\
  recurrence NW_cell sequences config (NW.matrix st) (NW.counter st).

(** The largest of [b] and the scores of the candidates. *)
Fixpoint peak (cands : list (list Z * Z)) (b : Z) : Z :=
  match cands with
  | [] => b
  | cand :: rest => peak rest (Z.max b (snd cand))
  end.

(** No [Score] of the matrix is negative. *)
Definition nonneg (sequences : list str) (m : pyval) : Prop :=
  forall c v, in_lattice sequences c ->
              retrievematrixelement m c = Ok (PScore v) -> 0 <= score v.

(** The running best of [SW]: [best] is the score stored at [bc], no
    coordinate visited so far holds more, and those visited before [bc]
    hold less. *)
Definition running_best (sequences : list str) (m : pyval) (counter : list Z)
  (best : Z) (bc : list Z) : Prop :=
  in_lattice sequences bc /\
  rank sequences bc < rank sequences counter /\
  (exists v, retrievematrixelement m bc = Ok (PScore v) /\ score v = best) /\
  forall c v, in_lattice sequences c ->
              rank sequences c < rank sequences counter ->
              retrievematrixelement m c = Ok (PScore v) ->
              score v <= best /\
              (rank sequences c < rank sequences bc -> score v < best).

Definition SW_facts (sequences : list str) (config : Config) (st : SW.t) : Prop :=
  retrievematrixelement (SW.matrix st) (zeros sequences)
  = Ok (PScore (mkScore (Some (zeros sequences)) 0)) /\
  recurrence SW_cell sequences config (SW.matrix st) (SW.counter st) /\
  nonneg sequences (SW.matrix st) /\
  running_best sequences (SW.matrix st) (SW.counter st)
               (SW.bestscore st) (SW.bestcoordinate st).

Definition SW_inv (sequences : list str) (config : Config) (st : SW.t) : Prop :=
  SW.sequences st = sequences /\
  SW.config st = config /\
  traversal sequences (SW.matrix st) (SW.counter st) /\
  SW_facts sequences config st.

(** The matrix and the counter of an engine of either kind, at any point
    of its life. *)
Definition engine_state (sequences : list str) (config : Config)
  (m : pyval) (counter : list Z) : Prop :=
  (exists st, NW_reach sequences config st /\
              NW.matrix st = m /\ NW.counter st = counter) \/
  (exists st, SW_reach sequences config st /\
              SW.matrix st = m /\ SW.counter st = counter).

(** A global engine on ["AC"] and ["G"], as constructed. *)
Definition example_fresh : NW.t :=
  Eval vm_compute in
    match NW.init [lit "AC"; lit "G"] default_config with
    | Ok st => st
    | _ => NW.mk [] default_config PNone []
    end.

(** A local engine on ["AC"] and ["GC"], as constructed and once solved. *)
Definition example_local : SW.t :=
  Eval vm_compute in
    match SW.init [lit "AC"; lit "GC"] default_config with
    | Ok st => st
    | _ => SW.mk [] default_config PNone [] 0 []
    end.

Definition example_local_solved : SW.t :=
  Eval vm_compute in
    match SW.solve example_local with
    | Ok st => st
    | _ => example_local
    end.

(** A line of the report without its gap markers. *)
Definition strip (line : str) : str :=
  filter (fun ch => negb (Ascii.eqb ch dotc)) line.

(** The lines built so far spell, gap markers apart, the part of each
    sequence that the coordinate has consumed. *)
Inductive aligned : list str -> list Z -> list str -> Prop :=
| aligned_nil : aligned [] [] []
| aligned_cons s ss x c r rs :
    0 <= x <= len s ->
    strip r = firstn (Z.to_nat x) s ->
    aligned ss c rs ->
    aligned (s :: ss) (x :: c) (r :: rs).

(** The coordinates that following the stored predecessors from [c] goes
    through, from the origin to the predecessor of [c], each one reached
    from the next by an enumerated move whose score accounts for the
    difference of the stored scores. *)
Inductive backchain (sequences : list str) (config : Config) (m : pyval)
  : list Z -> list (list Z) -> Prop :=
| bc_origin : backchain sequences config m (zeros sequences) []
| bc_step c bp move vp path :
    c <> zeros sequences ->
    in_lattice sequences c ->
    bases sequences c bp ->
    masks bp move ->
    move <> repeat gapc (length bp) ->
    retrievematrixelement m (generatecoordinates move c) = Ok (PScore vp) ->
    retrievematrixelement m c
    = Ok (PScore (mkScore (Some (generatecoordinates move c))
                          (score vp + movescore config move))) ->
    backchain sequences config m (generatecoordinates move c) path ->
    backchain sequences config m c (path ++ [generatecoordinates move c]).

(** Every slot that holds a [Score], the origin apart, has a predecessor. *)
Definition predecessors_set (sequences : list str) (m : pyval) : Prop :=
  forall c v, in_lattice sequences c -> c <> zeros sequences ->
              retrievematrixelement m c = Ok (PScore v) ->
              coordinate v <> None.

(** [k * (k - 1) / 2], the number of pairs among [k] entries. *)
Fixpoint pairs_among (k : nat) : Z :=
  match k with
  | O => 0
  | S k' => Z.of_nat k' + pairs_among k'
  end.

(** The score of a move that consumes one symbol and leaves a gap in the
    [n - 1] other sequences. *)
Definition solo_score (config : Config) (n : nat) : Z :=
  Z.of_nat (n - 1) * gap config + pairs_among (n - 1) * twogaps config.

(** The scores stay above the initial [maxscore] of [NW.solve] when even
    an alignment made of such moves only does. *)
Definition above_sentinel (sequences : list str) (config : Config) : Prop :=
  NW.sentinel
  < Z.of_nat (total_length sequences)
    * Z.min 0 (solo_score config (length sequences)).

(** The move that consumes the first symbol of a base-pair string and
    leaves a gap everywhere else. *)
Fixpoint solo (bp : str) : str :=
  match bp with
  | [] => []
  | ch :: rest =>
      if Ascii.eqb ch gapc then gapc :: solo rest
      else ch :: repeat gapc (length rest)
  end.

(** ** The classical two-sequence reference *)

(** The weight of aligning the symbols [x] and [y]. *)
Definition substitution (config : Config) (x y : ascii) : Z :=
  if Ascii.eqb x y then cmatch config else mismatch config.

(** The classical Needleman-Wunsch recurrence on prefixes,
    [F(i, 0) = i * gap], [F(0, j) = j * gap] and
    [F(i, j) = max (F(i-1, j-1) + s(a_i, b_j), F(i-1, j) + gap, F(i, j-1) + gap)],
    written on the reversed prefixes so that their last symbols come
    first. *)
Fixpoint nw_prefix (config : Config) (ra rb : str) : Z :=
  match ra with
  | [] => len rb * gap config
  | x :: ra' =>
      (fix row (rb : str) : Z :=
         match rb with
         | [] => len ra * gap config
         | y :: rb' =>
             Z.max (nw_prefix config ra' rb' + substitution config x y)
                   (Z.max (nw_prefix config ra' rb + gap config)
                          (row rb' + gap config))
         end) rb
  end.

Definition nw_reference (config : Config) (a b : str) : Z :=
  nw_prefix config (rev a) (rev b).

(** An alignment of two sequences as the report prints it: two lines of
    the same length that spell the sequences once the gap markers are
    dropped, and no column made of two gap markers. *)
Definition valid_alignment (a b l0 l1 : str) : Prop :=
  strip l0 = a /\ strip l1 = b /\
  Forall2 (fun x y => x <> dotc \/ y <> dotc) l0 l1.

Definition column_score (config : Config) (x y : ascii) : Z :=
  if Ascii.eqb x dotc || Ascii.eqb y dotc then gap config
  else substitution config x y.

Fixpoint lines_score (config : Config) (l0 l1 : str) : Z :=
  match l0, l1 with
  | x :: l0', y :: l1' => column_score config x y + lines_score config l0' l1'
  | _, _ => 0
  end.

(** What [__str__] appends to a line for an entry of a move. *)
Definition emit (mv : ascii) : ascii :=
  if Ascii.eqb mv gapc then dotc else mv.

Fixpoint snoc_all (rs : list str) (chars : str) : list str :=
  match rs, chars with
  | r :: rs', ch :: chars' => (r ++ [ch]) :: snoc_all rs' chars'
  | _, _ => []
  end.

(** The global engine on ["AC"] and ["G"] once solved. *)
Definition example_solved : NW.t :=
  Eval vm_compute in
    match NW.solve example_fresh with
    | Ok st => st
    | _ => example_fresh
    end.

(** A local engine on ["A"] and ["C"], which have no symbol in common, as
    constructed and once solved. *)
Definition example_apart : SW.t :=
  Eval vm_compute in
    match SW.init [lit "A"; lit "C"] default_config with
    | Ok st => st
    | _ => SW.mk [] default_config PNone [] 0 []
    end.

Definition example_apart_solved : SW.t :=
  Eval vm_compute in
    match SW.solve example_apart with
    | Ok st => st
    | _ => example_apart
    end.

(** The coordinates that the loop of [SW.__str__] goes through from [c]:
    it follows the stored predecessors down to [start], the origin or the
    first cell that has none, and [path] lists them from [start] to the
    predecessor of [c]. *)
Inductive local_chain (sequences : list str) (config : Config) (m : pyval)
  : list Z -> list Z -> list (list Z) -> Prop :=
| lc_origin : local_chain sequences config m (zeros sequences) (zeros sequences) []
| lc_start c :
    in_lattice sequences c ->
    c <> zeros sequences ->
    retrievematrixelement m c = Ok (PScore (mkScore None 0)) ->
    local_chain sequences config m c c []
| lc_step start c bp move vp path :
    c <> zeros sequences ->
    in_lattice sequences c ->
    bases sequences c bp ->
    masks bp move ->
    move <> repeat gapc (length bp) ->
    retrievematrixelement m (generatecoordinates move c) = Ok (PScore vp) ->
    retrievematrixelement m c
    = Ok (PScore (mkScore (Some (generatecoordinates move c))
                          (score vp + movescore config move))) ->
    local_chain sequences config m start (generatecoordinates move c) path ->
    local_chain sequences config m start c (path ++ [generatecoordinates move c]).

(** The lines built between two coordinates spell, gap markers apart, the
    part of each sequence from the entry of the first coordinate to that
    of the second. *)
Inductive window : list str -> list Z -> list Z -> list str -> Prop :=
| window_nil : window [] [] [] []
| window_cons s ss a start x c r rs :
    0 <= a <= x -> x <= len s ->
    strip r = skipn (Z.to_nat a) (firstn (Z.to_nat x) s) ->
    window ss start c rs ->
    window (s :: ss) (a :: start) (x :: c) (r :: rs).

(** The coordinate that the variable [origin] of [SW.__str__] holds after
    the loop over the steps of the path. *)
Definition last_origin (path : list (list Z)) : option (option (list Z)) :=
  match rev path with
  | [] => None
  | p :: _ => Some (Some p)
  end.

(** The weights with another score for a pair of gaps, and an engine
    holding them. *)
Definition with_twogaps (config : Config) (t : Z) : Config :=
  mkConfig (cmatch config) (mismatch config) (gap config) t.

Definition NW_retarget (t : Z) (st : NW.t) : NW.t :=
  NW.mk (NW.sequences st) (with_twogaps (NW.config st) t)
        (NW.matrix st) (NW.counter st).

Definition SW_retarget (t : Z) (st : SW.t) : SW.t :=
  SW.mk (SW.sequences st) (with_twogaps (SW.config st) t)
        (SW.matrix st) (SW.counter st) (SW.bestscore st) (SW.bestcoordinate st).

(** No symbol occurs in two of the sequences. *)
Definition apart (sequences : list str) : Prop :=
  forall i j s s' x,
    (i < j)%nat -> nth_error sequences i = Some s ->
    nth_error sequences j = Some s' -> In x s -> ~ In x s'.

(** The move that a column of the report prints: ['.'] stands for the gap
    marker of the engine. *)
Definition unemit (ch : ascii) : ascii :=
  if Ascii.eqb ch dotc then gapc else ch.

(** The [n] lines whose columns are, from left to right, [cols]. *)
Definition lines_of (n : nat) (cols : list str) : list str :=
  fold_left snoc_all cols (repeat [] n).

(** The sum over the columns of the scores of all pairs of a column. *)
Definition columns_score (config : Config) (cols : list str) : Z :=
  Py.sum (map (fun col => movescore config (map unemit col)) cols).

(** A way from [start] to a coordinate by enumerated moves, listed from
    the first move to the last. *)
Inductive move_path (sequences : list str) (start : list Z)
  : list Z -> list str -> Prop :=
| mp_start : in_lattice sequences start -> move_path sequences start start []
| mp_step c bp move moves :
    in_lattice sequences c ->
    bases sequences c bp ->
    masks bp move ->
    move <> repeat gapc (length bp) ->
    move_path sequences start (generatecoordinates move c) moves ->
    move_path sequences start c (moves ++ [move]).

(** Every [Score] that the matrix holds has a score above the initial
    [maxscore] of [NW.solve]. *)
Fixpoint above_maxscore (m : pyval) : bool :=
  match m with
  | PNone => true
  | PScore s => NW.sentinel <? score s
  | PList l => forallb above_maxscore l
  end.

(** A global engine on ["AA"] and ["CC"] under a gap weight of -30000000,
    as constructed and once solved. *)
Definition steep_config : Config := mkConfig 5 (-2) (-30000000) 0.

Definition example_steep : NW.t :=
  Eval vm_compute in
    match NW.init [lit "AA"; lit "CC"] steep_config with
    | Ok st => st
    | _ => NW.mk [] steep_config PNone []
    end.

Definition example_steep_solved : NW.t :=
  Eval vm_compute in
    match NW.solve example_steep with
    | Ok st => st
    | _ => example_steep
    end.

(** * Properties *)

(** Closed instances of [in_lattice] are settled by evaluation. *)
Ltac lattice :=
  unfold in_lattice;
  repeat (apply Forall2_cons; [split; apply Z.leb_le; reflexivity|]);
  apply Forall2_nil.

(** ** Python lists and strings *)

Section PyFacts.

Context {A : Type}.

Lemma str_eqb_eq (a b : str) : str_eqb a b = true <-> a = b.
Proof.
  revert b; induction a as [|x a IH]; intros [|y b]; simpl; split;
    try congruence; try reflexivity.
  - rewrite andb_true_iff, Ascii.eqb_eq, IH. intros [-> ->]; reflexivity.
  - intros E; injection E as -> ->.
    rewrite andb_true_iff, Ascii.eqb_eq, IH. split; reflexivity.
Qed.

Lemma str_eqb_neq (a b : str) : str_eqb a b = false <-> a <> b.
Proof.
  rewrite <- str_eqb_eq. destruct (str_eqb a b); split; congruence.
Qed.

Lemma coord_eqb_eq (a b : list Z) : coord_eqb a b = true <-> a = b.
Proof.
  revert b; induction a as [|x a IH]; intros [|y b]; simpl; split;
    try congruence; try reflexivity.
  - rewrite andb_true_iff, Z.eqb_eq, IH. intros [-> ->]; reflexivity.
  - intros E; injection E as -> ->.
    rewrite andb_true_iff, Z.eqb_eq, IH. split; reflexivity.
Qed.

Lemma coord_eqb_neq (a b : list Z) : coord_eqb a b = false <-> a <> b.
Proof.
  rewrite <- coord_eqb_eq. destruct (coord_eqb a b); split; congruence.
Qed.

Lemma norm_index_nonneg (n : nat) (i : Z) :
  0 <= i < Z.of_nat n -> norm_index n i = Some (Z.to_nat i).
Proof.
  intros H. unfold norm_index.
  destruct (0 <=? i) eqn:E1; [|apply Z.leb_gt in E1; lia].
  destruct (i <? Z.of_nat n) eqn:E2; [|apply Z.ltb_ge in E2; lia].
  reflexivity.
Qed.

Lemma getitem_nth (l : list A) (i : Z) (a : A) :
  0 <= i -> nth_error l (Z.to_nat i) = Some a -> getitem l i = Ok a.
Proof.
  intros Hi Hn. unfold getitem.
  assert (Z.to_nat i < length l)%nat by (apply nth_error_Some; congruence).
  rewrite norm_index_nonneg by lia. rewrite Hn. reflexivity.
Qed.

Lemma getitem_in_range (l : list A) (i : Z) :
  0 <= i < len l -> exists a, getitem l i = Ok a /\ nth_error l (Z.to_nat i) = Some a.
Proof.
  unfold len. intros H.
  destruct (nth_error l (Z.to_nat i)) as [a|] eqn:E.
  - exists a; split; [apply getitem_nth; [lia|assumption]|reflexivity].
  - apply nth_error_None in E. lia.
Qed.

Lemma getitem_nat (l : list A) (k : nat) (a : A) :
  nth_error l k = Some a -> getitem l (Z.of_nat k) = Ok a.
Proof.
  intros H. apply getitem_nth; [lia|]. rewrite Nat2Z.id. exact H.
Qed.

Lemma getitem_nil (i : Z) : getitem (@nil A) i = Raise IndexError.
Proof.
  unfold getitem, norm_index. simpl.
  destruct (0 <=? i) eqn:E1, (i <? 0) eqn:E2; simpl; try reflexivity.
  apply Z.leb_le in E1. apply Z.ltb_lt in E2. lia.
Qed.

Lemma getitem_last (l : list A) (a : A) : getitem (l ++ [a]) (-1) = Ok a.
Proof.
  unfold getitem, norm_index. rewrite length_app. simpl.
  destruct (- Z.of_nat (length l + 1) <=? -1) eqn:E; [|apply Z.leb_gt in E; lia].
  simpl. replace (Z.to_nat (Z.of_nat (length l + 1) + -1)) with (length l) by lia.
  rewrite nth_error_app2 by lia. rewrite Nat.sub_diag. reflexivity.
Qed.

Lemma upd_length (l : list A) (k : nat) (v : A) : length (upd l k v) = length l.
Proof.
  revert k; induction l as [|h t IH]; intros [|k]; simpl; auto.
Qed.

Lemma nth_error_upd_same (l : list A) (k : nat) (v : A) :
  (k < length l)%nat -> nth_error (upd l k v) k = Some v.
Proof.
  revert k; induction l as [|h t IH]; intros [|k]; simpl; intros H;
    try lia; auto. apply IH. lia.
Qed.

Lemma nth_error_upd_other (l : list A) (k j : nat) (v : A) :
  j <> k -> nth_error (upd l k v) j = nth_error l j.
Proof.
  revert k j; induction l as [|h t IH]; intros [|k] [|j]; simpl; intros H;
    try congruence; auto.
Qed.

Lemma Forall_upd (P : A -> Prop) (l : list A) (k : nat) (v : A) :
  Forall P l -> P v -> Forall P (upd l k v).
Proof.
  intros Hl Hv. revert k; induction Hl; intros [|k]; simpl; auto.
Qed.

Lemma setitem_in_range (l : list A) (i : Z) (v : A) :
  0 <= i < len l -> setitem l i v = Ok (upd l (Z.to_nat i) v).
Proof.
  unfold len, setitem. intros H. rewrite norm_index_nonneg by lia. reflexivity.
Qed.

End PyFacts.

Lemma remove_spec (x : str) (l : list str) :
  In x l -> NoDup l ->
  exists l', Py.remove x l = Ok l' /\
             (forall y, In y l' <-> In y l /\ y <> x) /\
             NoDup l' /\ S (length l') = length l.
Proof.
  induction l as [|y t IH]; simpl; [tauto|]. intros Hin Hnd.
  inversion Hnd as [|? ? Hy Ht]; subst.
  destruct (str_eqb y x) eqn:E.
  - apply str_eqb_eq in E; subst y. exists t.
    split; [reflexivity|]. split; [|split; [assumption|reflexivity]].
    intros z. split.
    + intros Hz. split; [right; exact Hz|]. intros ->. contradiction.
    + intros [[Hz|Hz] N]; [congruence|assumption].
  - apply str_eqb_neq in E. destruct Hin as [H|H]; [congruence|].
    destruct (IH H Ht) as (t' & -> & Hiff & Hnd' & Hlen). simpl.
    exists (y :: t').
    split; [reflexivity|]. split; [|split].
    + intros z. simpl. rewrite Hiff. split.
      * intros [Hz|[Hz N]]; [subst z|]; tauto.
      * intros [[Hz|Hz] N]; tauto.
    + constructor; [|assumption]. intros H0. apply Hiff in H0. tauto.
    + simpl. congruence.
Qed.

(** ** Move enumeration *)

Lemma masks_length (x move : str) : masks x move -> length move = length x.
Proof. intros H. symmetry. exact (Forall2_length H). Qed.

Lemma masks_allgap (x : str) : masks x (repeat gapc (length x)).
Proof. induction x; simpl; constructor; auto. Qed.

Lemma extend_moves_in (rv : list str) (a : ascii) (p : str) :
  In p (extend_moves rv a) <->
  exists q c, In q rv /\ (c = a \/ c = gapc) /\ p = q ++ [c].
Proof.
  unfold extend_moves. destruct (Ascii.eqb a gapc) eqn:E.
  - apply Ascii.eqb_eq in E. subst a. rewrite in_map_iff. split.
    + intros (q & <- & Hq). exists q, gapc. auto.
    + intros (q & c & Hq & [->| ->] & ->); exists q; auto.
  - rewrite in_app_iff, !in_map_iff. split.
    + intros [(q & <- & Hq)|(q & <- & Hq)];
        [exists q, a|exists q, gapc]; auto.
    + intros (q & c & Hq & [->| ->] & ->); [left|right]; exists q; auto.
Qed.

Lemma fold_extend_in (xs : str) (rv : list str) (m : str) :
  In m (fold_left extend_moves xs rv) <->
  exists p s, In p rv /\ masks xs s /\ m = p ++ s.
Proof.
  revert rv; induction xs as [|a xs IH]; intros rv; simpl.
  - split.
    + intros H. exists m, []. rewrite app_nil_r. repeat split; auto. constructor.
    + intros (p & s & Hp & Hs & ->). inversion Hs; subst.
      rewrite app_nil_r. exact Hp.
  - rewrite IH. split.
    + intros (p & s & Hp & Hs & ->). apply extend_moves_in in Hp.
      destruct Hp as (q & c & Hq & Hc & ->).
      exists q, (c :: s). repeat split; auto.
      * constructor; auto.
      * rewrite <- app_assoc. reflexivity.
    + intros (q & s & Hq & Hs & ->). inversion Hs as [|? c ? s' Hc Hs']; subst.
      exists (q ++ [c]), s'. repeat split; auto.
      * apply extend_moves_in. exists q, c. auto.
      * rewrite <- app_assoc. reflexivity.
Qed.

Lemma fold_extend_length (xs : str) (rv : list str) :
  length (fold_left extend_moves xs rv) = (length rv * 2 ^ nongaps xs)%nat.
Proof.
  revert rv; induction xs as [|a xs IH]; intros rv; simpl.
  - unfold nongaps; simpl. lia.
  - rewrite IH. unfold extend_moves, nongaps. simpl.
    destruct (Ascii.eqb a gapc); simpl.
    + rewrite length_map. reflexivity.
    + rewrite length_app, !length_map.
      rewrite Nat.add_0_r, Nat.mul_add_distr_r, Nat.mul_add_distr_l. reflexivity.
Qed.

Lemma snoc_NoDup (c : ascii) (rv : list str) :
  NoDup rv -> NoDup (map (fun y => y ++ [c]) rv).
Proof.
  intros H. apply NoDup_map_NoDup_ForallPairs; [|exact H].
  intros x y _ _ E. apply app_inj_tail in E. tauto.
Qed.

Lemma extend_moves_NoDup (rv : list str) (a : ascii) :
  NoDup rv -> NoDup (extend_moves rv a).
Proof.
  intros H. unfold extend_moves. destruct (Ascii.eqb a gapc) eqn:E.
  - apply snoc_NoDup; exact H.
  - apply NoDup_app; try (apply snoc_NoDup; exact H).
    intros p Hp Hq. apply in_map_iff in Hp. apply in_map_iff in Hq.
    destruct Hp as (x & <- & _). destruct Hq as (y & Hy & _).
    apply app_inj_tail in Hy. destruct Hy as [_ Hy].
    apply Ascii.eqb_neq in E. congruence.
Qed.

Lemma fold_extend_NoDup (xs : str) (rv : list str) :
  NoDup rv -> NoDup (fold_left extend_moves xs rv).
Proof.
  revert rv; induction xs as [|a xs IH]; intros rv H; simpl; [exact H|].
  apply IH. apply extend_moves_NoDup. exact H.
Qed.

(** What [generatemoves] returns on a non-empty base-pair string. *)
Lemma generatemoves_spec (x : str) :
  x <> [] ->
  exists moves,
    generatemoves x = Ok moves /\
    (forall m, In m moves <-> masks x m /\ m <> repeat gapc (length x)) /\
    NoDup moves /\
    S (length moves) = (2 ^ nongaps x)%nat.
Proof.
  destruct x as [|x0 xs]; [congruence|]. intros _.
  unfold generatemoves.
  set (rv := if negb (Ascii.eqb x0 gapc) then [[x0]; [gapc]] else [[x0]]).
  assert (Hrv : forall p, In p rv <-> exists c, (c = x0 \/ c = gapc) /\ p = [c]).
  { intros p. unfold rv. destruct (Ascii.eqb x0 gapc) eqn:E; simpl.
    - apply Ascii.eqb_eq in E. subst x0. split.
      + intros [<-|[]]. exists gapc. auto.
      + intros (c & [->| ->] & ->); auto.
    - split.
      + intros [<-|[<-|[]]]; [exists x0|exists gapc]; auto.
      + intros (c & [->| ->] & ->); auto. }
  assert (Hnd : NoDup rv).
  { unfold rv. destruct (Ascii.eqb x0 gapc) eqn:E; simpl.
    - constructor; [simpl; tauto|constructor].
    - apply Ascii.eqb_neq in E. constructor.
      + simpl. intros [H|[]]. congruence.
      + constructor; [simpl; tauto|constructor]. }
  assert (Hall : forall m, In m (fold_left extend_moves xs rv) <-> masks (x0 :: xs) m).
  { intros m. rewrite fold_extend_in. split.
    - intros (p & s & Hp & Hs & ->). apply Hrv in Hp.
      destruct Hp as (c & Hc & ->). simpl. constructor; auto.
    - intros H. inversion H as [|? c ? s Hc Hs]; subst.
      exists [c], s. repeat split; auto. apply Hrv. exists c. auto. }
  destruct (remove_spec (repeat gapc (length (x0 :: xs)))
              (fold_left extend_moves xs rv)) as (moves & Hrem & Hin & Hnd' & Hlen).
  { apply Hall. apply masks_allgap. }
  { apply fold_extend_NoDup. exact Hnd. }
  exists moves. repeat split; auto.
  - apply Hall. apply Hin. assumption.
  - apply Hin. assumption.
  - intros [H1 H2]. apply Hin. split; [apply Hall|]; assumption.
  - rewrite Hlen, fold_extend_length. unfold rv, nongaps. simpl.
    destruct (Ascii.eqb x0 gapc); simpl; lia.
Qed.

Lemma skipn_cons_nth {A : Type} (l : list A) (v : nat) (a : A) (t : list A) :
  skipn v l = a :: t -> nth_error l v = Some a /\ skipn (S v) l = t.
Proof.
  revert v; induction l as [|h l IH]; intros [|v]; simpl; try discriminate.
  - intros E; injection E as -> ->. auto.
  - intros E. apply IH in E. exact E.
Qed.

Lemma generatebasepairs_from_spec (sequences ss : list str) (c : list Z) :
  in_lattice ss c ->
  forall v, skipn v sequences = ss ->
  exists bp, generatebasepairs_from sequences v c = Ok bp /\ bases ss c bp.
Proof.
  induction 1 as [|s u ss c Hu Hrest IH]; intros v Hv; simpl.
  - exists []. split; [reflexivity|constructor].
  - apply skipn_cons_nth in Hv. destruct Hv as [Hs Hss].
    destruct (IH _ Hss) as (bp & Hbp & Hb). rewrite Hbp. simpl.
    destruct (u =? 0) eqn:E.
    + apply Z.eqb_eq in E. subst u. exists (gapc :: bp).
      split; [reflexivity|constructor; assumption].
    + apply Z.eqb_neq in E. rewrite (getitem_nat _ _ _ Hs). simpl.
      destruct (getitem_in_range s (u - 1)) as (ch & Hch & _);
        [unfold len in *; lia|].
      rewrite Hch. simpl. exists (ch :: bp).
      split; [reflexivity|constructor; assumption].
Qed.

Lemma generatebasepairs_spec (sequences : list str) (c : list Z) :
  in_lattice sequences c ->
  exists bp, generatebasepairs sequences c = Ok bp /\ bases sequences c bp.
Proof.
  intros H. exact (generatebasepairs_from_spec sequences sequences c H 0%nat eq_refl).
Qed.

Lemma bases_length (ss : list str) (c : list Z) (bp : str) :
  bases ss c bp -> length bp = length c.
Proof. induction 1; simpl; congruence. Qed.

Lemma bases_zero (ss : list str) (c : list Z) (bp : str) (i : nat) :
  bases ss c bp -> nth_error c i = Some 0 -> nth_error bp i = Some gapc.
Proof.
  intros H; revert i; induction H; intros [|i]; simpl; try discriminate; auto.
  intros E; injection E as ->. congruence.
Qed.

Lemma getitem_In {A : Type} (l : list A) (i : Z) (a : A) :
  getitem l i = Ok a -> In a l.
Proof.
  unfold getitem. destruct (norm_index (length l) i) as [k|]; [|discriminate].
  destruct (nth_error l k) as [b|] eqn:E; [|discriminate].
  intros H; injection H as ->. eapply nth_error_In; eauto.
Qed.

Lemma bases_nongaps (ss : list str) (c : list Z) (bp : str) :
  bases ss c bp -> in_lattice ss c -> gapfree ss -> nongaps bp = positives c.
Proof.
  unfold nongaps, positives.
  induction 1 as [|s ss c bp Hb IH|s ss u c ch bp Hu Hch Hb IH];
    intros Hl Hg; simpl.
  - reflexivity.
  - inversion Hl; subst. inversion Hg; subst. auto.
  - inversion Hl as [|? ? ? ? Hr Hl']; subst. inversion Hg as [|? ? Hs Hg']; subst.
    assert (E1 : Ascii.eqb ch gapc = false).
    { apply Ascii.eqb_neq. intros ->. apply Hs. eapply getitem_In; eauto. }
    assert (E2 : (0 <? u) = true) by (apply Z.ltb_lt; lia).
    rewrite E1, E2. simpl. f_equal. auto.
Qed.

Lemma masks_gap_at (x move : str) (i : nat) :
  masks x move -> nth_error x i = Some gapc -> nth_error move i = Some gapc.
Proof.
  intros H; revert i; induction H as [|a b x m Hab H IH]; intros [|i]; simpl;
    try discriminate; auto.
  intros E; injection E as ->. destruct Hab; congruence.
Qed.

(** C8, as the code has it: at every coordinate of the lattice the
    enumeration yields [2^k - 1] distinct moves, [k] being the number of
    entries of the base-pair string that are not the character ['_']; the
    all-gap pattern is not among them, every move keeps the gap marker in
    the dimensions whose coordinate is 0, and [k] is the number of
    positive dimensions as soon as no sequence contains ['_']. *)
Theorem move_count (sequences : list str) (c : list Z) :
  in_lattice sequences c -> c <> [] ->
  exists bp moves,
    generatebasepairs sequences c = Ok bp /\
    generatemoves bp = Ok moves /\
    NoDup moves /\
    Z.of_nat (length moves) = 2 ^ Z.of_nat (nongaps bp) - 1 /\
    ~ In (repeat gapc (length c)) moves /\
    (forall move i, In move moves -> nth_error c i = Some 0 ->
                    nth_error move i = Some gapc) /\
    (gapfree sequences -> nongaps bp = positives c).
Proof.
  intros Hl Hc.
  destruct (generatebasepairs_spec sequences c Hl) as (bp & Hbp & Hb).
  assert (Hne : bp <> []).
  { intros ->. apply bases_length in Hb. destruct c; [congruence|discriminate]. }
  destruct (generatemoves_spec bp Hne) as (moves & Hm & Hin & Hnd & Hlen).
  exists bp, moves. repeat split; auto.
  - assert (E : Z.of_nat (S (length moves)) = Z.of_nat (2 ^ nongaps bp)) by congruence.
    rewrite Nat2Z.inj_succ, Nat2Z.inj_pow in E. simpl in E. lia.
  - intros H. apply Hin in H. destruct H as [_ H]. apply H.
    rewrite (bases_length _ _ _ Hb). reflexivity.
  - intros move i Hmv Hi. apply Hin in Hmv. destruct Hmv as [Hmv _].
    eapply masks_gap_at; eauto. eapply bases_zero; eauto.
  - intros Hg. eapply bases_nongaps; eauto.
Qed.

Lemma move_count_witness :
  exists bp moves,
    generatebasepairs [lit "AC"; lit "G"; lit "T"] [2; 0; 1] = Ok bp /\
    generatemoves bp = Ok moves /\
    NoDup moves /\
    Z.of_nat (length moves) = 2 ^ Z.of_nat (nongaps bp) - 1 /\
    ~ In (repeat gapc 3) moves /\
    (forall move i, In move moves -> nth_error [2; 0; 1] i = Some 0 ->
                    nth_error move i = Some gapc) /\
    (gapfree [lit "AC"; lit "G"; lit "T"] -> nongaps bp = positives [2; 0; 1]).
Proof.
  apply (move_count [lit "AC"; lit "G"; lit "T"] [2; 0; 1]).
  - lattice.
  - discriminate.
Defined.

(** C8 as stated fails when a sequence holds the character ['_']: at
    [(1, 1)] of ["_"] and ["A"] both dimensions are positive and the
    enumeration yields one move, not three. *)
Lemma move_count_gap_symbol :
  in_lattice [lit "_"; lit "A"] [1; 1] /\
  positives [1; 1] = 2%nat /\
  (bp <- generatebasepairs [lit "_"; lit "A"] [1; 1] ;; generatemoves bp)
  = Ok [lit "_A"] /\
  Z.of_nat (length [lit "_A"]) <> 2 ^ Z.of_nat (positives [1; 1]) - 1.
Proof.
  split; [lattice|].
  split; [reflexivity|]. split; [reflexivity|]. discriminate.
Qed.

(** ** The nested matrix *)

Lemma shaped_nil (m : pyval) : shaped [] m <-> is_slot m.
Proof. reflexivity. Qed.

Lemma in_lattice_length (ss : list str) (c : list Z) :
  in_lattice ss c -> length c = length ss.
Proof. intros H. symmetry. exact (Forall2_length H). Qed.

Lemma retrieve_shaped (ss : list str) :
  forall m c, shaped ss m -> in_lattice ss c ->
  exists v, retrievematrixelement m c = Ok v /\ is_slot v.
Proof.
  induction ss as [|s ss IH]; intros m c Hm Hc; inversion Hc; subst; simpl.
  - exists m. split; [reflexivity|exact Hm].
  - destruct m as [| |l]; simpl in Hm; try contradiction.
    destruct Hm as [Hlen Hall].
    destruct (getitem_in_range l y) as (sub & Hsub & Hnth);
      [unfold len in *; lia|].
    rewrite Hsub. simpl. apply IH; [|assumption].
    rewrite Forall_forall in Hall. apply Hall. eapply nth_error_In; eauto.
Qed.

Lemma enterelement_shaped (ss : list str) :
  forall m c v, ss <> [] -> shaped ss m -> in_lattice ss c -> is_slot v ->
  exists m', enterelement m c v = Ok m' /\
             shaped ss m' /\
             retrievematrixelement m' c = Ok v /\
             (forall c', in_lattice ss c' -> c' <> c ->
                         retrievematrixelement m' c' = retrievematrixelement m c').
Proof.
  induction ss as [|s ss IH]; intros m c v Hne Hm Hc Hv; [congruence|].
  inversion Hc as [|? u ? c0 Hu Hc0]; subst.
  destruct m as [| |l]; simpl in Hm; try contradiction.
  destruct Hm as [Hlen Hall].
  assert (Hr : 0 <= u < len l) by (unfold len in *; lia).
  assert (Hk : (Z.to_nat u < length l)%nat) by (unfold len in *; lia).
  destruct ss as [|s' ss].
  - (* last dimension *)
    inversion Hc0; subst. simpl.
    rewrite (setitem_in_range l u v Hr). simpl.
    exists (PList (upd l (Z.to_nat u) v)). split; [reflexivity|].
    split; [|split].
    + simpl. rewrite upd_length. split; [assumption|].
      apply Forall_upd; assumption.
    + unfold getitem. rewrite upd_length, norm_index_nonneg by (unfold len in Hr; lia).
      rewrite nth_error_upd_same by assumption. reflexivity.
    + intros c' Hc' Hd. inversion Hc' as [|? u' ? c1 Hu' Hc1]; subst.
      inversion Hc1; subst. simpl.
      assert (u' <> u) by congruence.
      unfold getitem. rewrite upd_length.
      rewrite norm_index_nonneg by (unfold len in *; lia).
      rewrite nth_error_upd_other by lia. reflexivity.
  - (* an inner dimension *)
    inversion Hc0 as [|? u1 ? c1 Hu1 Hc1]; subst.
    destruct (getitem_in_range l u Hr) as (sub & Hsub & Hnth).
    assert (Hs : shaped (s' :: ss) sub).
    { rewrite Forall_forall in Hall. apply Hall. eapply nth_error_In; eauto. }
    destruct (IH sub (u1 :: c1) v ltac:(discriminate) Hs Hc0 Hv)
      as (sub' & Hent & Hs' & Hget & Hoth).
    change (enterelement (PList l) (u :: u1 :: c1) v)
      with (sub0 <- getitem l u ;;
            sub1 <- enterelement sub0 (u1 :: c1) v ;;
            l' <- setitem l u sub1 ;; Ok (PList l')).
    rewrite Hsub. cbn [bind]. rewrite Hent. cbn [bind].
    rewrite (setitem_in_range l u sub' Hr). cbn [bind].
    exists (PList (upd l (Z.to_nat u) sub')). split; [reflexivity|].
    split; [|split].
    + simpl. rewrite upd_length. split; [assumption|].
      apply Forall_upd; assumption.
    + change (retrievematrixelement (PList (upd l (Z.to_nat u) sub')) (u :: u1 :: c1))
        with (next <- getitem (upd l (Z.to_nat u) sub') u ;;
              retrievematrixelement next (u1 :: c1)).
      unfold getitem at 1. rewrite upd_length, norm_index_nonneg by (unfold len in Hr; lia).
      rewrite nth_error_upd_same by assumption. cbn [bind]. exact Hget.
    + intros c' Hc' Hd. inversion Hc' as [|? u' ? c2 Hu' Hc2]; subst.
      change (retrievematrixelement (PList (upd l (Z.to_nat u) sub')) (u' :: c2))
        with (next <- getitem (upd l (Z.to_nat u) sub') u' ;;
              retrievematrixelement next c2).
      change (retrievematrixelement (PList l) (u' :: c2))
        with (next <- getitem l u' ;; retrievematrixelement next c2).
      destruct (Z.eq_dec u' u) as [->|Hneq].
      * unfold getitem at 1.
        rewrite upd_length, norm_index_nonneg by (unfold len in Hr; lia).
        rewrite nth_error_upd_same by assumption. rewrite Hsub. cbn [bind].
        apply Hoth; [assumption|congruence].
      * unfold getitem. rewrite upd_length.
        rewrite norm_index_nonneg by (unfold len in *; lia).
        rewrite nth_error_upd_other by lia. reflexivity.
Qed.

Lemma repeat_nth {A : Type} (a : A) (n k : nat) :
  (k < n)%nat -> nth_error (repeat a n) k = Some a.
Proof.
  revert k; induction n as [|n IH]; intros [|k] H; simpl; try lia; auto.
  apply IH. lia.
Qed.

Lemma Forall_repeat {A : Type} (P : A -> Prop) (a : A) (n : nat) :
  P a -> Forall P (repeat a n).
Proof. intros H. induction n; simpl; constructor; auto. Qed.

Lemma initializeMatrix_spec (ss : list str) :
  ss <> [] ->
  exists m, initializeMatrix ss = Ok m /\ shaped ss m /\
            forall c, in_lattice ss c -> retrievematrixelement m c = Ok PNone.
Proof.
  induction ss as [|s ss IH]; [congruence|]. intros _.
  destruct ss as [|s' ss].
  - simpl. eexists. split; [reflexivity|]. split.
    + simpl. rewrite repeat_length. split; [lia|].
      apply Forall_repeat. exact I.
    + intros c Hc. inversion Hc as [|? u ? c0 Hu Hc0]; subst.
      inversion Hc0; subst. simpl.
      rewrite (getitem_nth _ u PNone); [reflexivity|lia|].
      apply repeat_nth. unfold len in Hu. lia.
  - destruct (IH ltac:(discriminate)) as (sub & Hsub & Hs & Hget).
    change (initializeMatrix (s :: s' :: ss))
      with (sub0 <- initializeMatrix (s' :: ss) ;;
            Ok (PList (repeat sub0 (length s + 1)))).
    rewrite Hsub. cbn [bind]. eexists. split; [reflexivity|]. split.
    + simpl. rewrite repeat_length. split; [lia|].
      apply Forall_repeat. exact Hs.
    + intros c Hc. inversion Hc as [|? u ? c0 Hu Hc0]; subst.
      change (retrievematrixelement (PList (repeat sub (length s + 1))) (u :: c0))
        with (next <- getitem (repeat sub (length s + 1)) u ;;
              retrievematrixelement next c0).
      rewrite (getitem_nth _ u sub); [cbn [bind]; auto|lia|].
      apply repeat_nth. unfold len in Hu. lia.
Qed.

Lemma zeros_in_lattice (ss : list str) : in_lattice ss (zeros ss).
Proof.
  unfold in_lattice, zeros. induction ss as [|s ss IH]; simpl; constructor; auto.
  unfold len. lia.
Qed.

(** ** The odometer *)

Lemma getitem_m1_single {A : Type} (a : A) : getitem [a] (-1) = Ok a.
Proof. reflexivity. Qed.

Lemma getitem_m1_cons {A : Type} (a b : A) (l : list A) :
  getitem (a :: b :: l) (-1) = getitem (b :: l) (-1).
Proof.
  change (a :: b :: l) with ([a] ++ b :: l).
  destruct (exists_last (l := b :: l) ltac:(discriminate)) as (l' & z & ->).
  rewrite app_assoc, !getitem_last. reflexivity.
Qed.

Lemma lattice_size_pos (ss : list str) : (0 < lattice_size ss)%nat.
Proof. induction ss; simpl; lia. Qed.

Lemma rank_bounds (ss : list str) (c : list Z) :
  in_lattice ss c -> 0 <= rank ss c < Z.of_nat (lattice_size ss).
Proof.
  induction 1 as [|s x ss c Hx _ IH]; [simpl; lia|].
  change (lattice_size (s :: ss)) with (S (length s) * lattice_size ss)%nat.
  rewrite Nat2Z.inj_mul, Nat2Z.inj_succ. simpl rank. unfold len in *. nia.
Qed.

Lemma rank_injective (ss : list str) (c c' : list Z) :
  in_lattice ss c -> in_lattice ss c' -> rank ss c = rank ss c' -> c = c'.
Proof.
  intros H; revert c'; induction H as [|s x ss c Hx Hc IH];
    intros c' H' E; inversion H' as [|? x' ? c0 Hx' Hc0]; subst; [reflexivity|].
  simpl in E. unfold len in *.
  assert (E' : rank ss c = rank ss c0).
  { destruct (Z.lt_trichotomy (rank ss c) (rank ss c0)) as [L|[L|L]];
      [exfalso; nia|assumption|exfalso; nia]. }
  rewrite E' in E. assert (x = x') by lia. subst x'.
  f_equal. apply IH; assumption.
Qed.

Lemma rank_monotone (ss : list str) (p c : list Z) :
  in_lattice ss p -> in_lattice ss c -> Forall2 Z.le p c ->
  rank ss p <= rank ss c.
Proof.
  intros H; revert c; induction H as [|s x ss p Hx Hp IH];
    intros c Hc Hle; inversion Hc; subst; [simpl; lia|].
  inversion Hle; subst. simpl.
  assert (rank ss p <= rank ss l') by auto.
  unfold len in *. nia.
Qed.

Lemma rank_zeros (ss : list str) : rank ss (zeros ss) = 0.
Proof.
  unfold zeros. induction ss as [|s ss IH]; simpl; [reflexivity|].
  rewrite IH. lia.
Qed.

Lemma rank_zero_origin (ss : list str) (c : list Z) :
  in_lattice ss c -> rank ss c = 0 -> c = zeros ss.
Proof.
  intros H E. apply (rank_injective ss); auto using zeros_in_lattice.
  rewrite rank_zeros. exact E.
Qed.

Lemma counter_ok_lattice (ss : list str) (c : list Z) :
  in_lattice ss c -> ss <> [] -> counter_ok ss c.
Proof.
  induction 1 as [|s x ss c Hx Hc IH]; [intros N; contradiction N; reflexivity|].
  intros _. destruct ss as [|s' ss].
  - inversion Hc; subst. simpl. split; [reflexivity|lia].
  - inversion Hc; subst. split; [assumption|]. apply IH. discriminate.
Qed.

Lemma unfinished_spec (ss : list str) (c : list Z) :
  counter_ok ss c ->
  exists b, unfinished ss c = Ok b /\
            (b = true -> in_lattice ss c) /\
            (b = false -> Z.of_nat (lattice_size ss) <= rank ss c).
Proof.
  revert c; induction ss as [|s ss IH]; intros c H; [destruct c; contradiction|].
  destruct ss as [|s' ss].
  - destruct c as [|x c]; simpl in H; [contradiction|].
    destruct H as [-> H]. unfold unfinished. simpl bind.
    destruct (x =? len s + 1) eqn:E; eexists; (split; [reflexivity|]); split;
      try (intros D; discriminate D); intros _.
    + apply Z.eqb_eq in E. simpl. unfold len in *. lia.
    + apply Z.eqb_neq in E. constructor; [lia|constructor].
  - destruct c as [|x c]; [contradiction|]. destruct H as [Hx H].
    destruct c as [|y c]; [contradiction|].
    destruct (IH _ H) as (b & Hb & Ht & Hf).
    exists b. split; [|split].
    + unfold unfinished in *. rewrite !getitem_m1_cons. exact Hb.
    + intros E. constructor; [exact Hx|exact (Ht E)].
    + intros E. specialize (Hf E).
      change (rank (s :: s' :: ss) (x :: y :: c))
        with (x + (len s + 1) * rank (s' :: ss) (y :: c)).
      change (lattice_size (s :: s' :: ss))
        with (S (length s) * lattice_size (s' :: ss))%nat.
      rewrite Nat2Z.inj_mul, Nat2Z.inj_succ. unfold len in *. nia.
Qed.

Lemma carry_spec (ss : list str) :
  forall c, carry_pre ss c ->
            counter_ok ss (carry ss c) /\ rank ss (carry ss c) = rank ss c.
Proof.
  induction ss as [|s ss IH]; intros c H; [destruct c; contradiction|].
  destruct c as [|x c]; [contradiction|]. destruct H as [Hx Hc].
  destruct ss as [|s' ss].
  - inversion Hc; subst. simpl. split; [split; [reflexivity|assumption]|reflexivity].
  - inversion Hc as [|? y ? c' Hy Hc']; subst.
    change (carry (s :: s' :: ss) (x :: y :: c'))
      with (if x =? len s + 1 then 0 :: carry (s' :: ss) ((y + 1) :: c')
            else x :: carry (s' :: ss) (y :: c')).
    destruct (x =? len s + 1) eqn:E.
    + apply Z.eqb_eq in E.
      destruct (IH ((y + 1) :: c')) as [Hok Hrk]; [split; [lia|assumption]|].
      split.
      * split; [unfold len; lia|exact Hok].
      * change (rank (s :: s' :: ss) (0 :: carry (s' :: ss) ((y + 1) :: c')))
          with (0 + (len s + 1) * rank (s' :: ss) (carry (s' :: ss) ((y + 1) :: c'))).
        rewrite Hrk. simpl rank. subst x. ring.
    + apply Z.eqb_neq in E.
      destruct (IH (y :: c')) as [Hok Hrk]; [split; [lia|assumption]|].
      split.
      * split; [lia|exact Hok].
      * change (rank (s :: s' :: ss) (x :: carry (s' :: ss) (y :: c')))
          with (x + (len s + 1) * rank (s' :: ss) (carry (s' :: ss) (y :: c'))).
        rewrite Hrk. reflexivity.
Qed.

Lemma increase_spec (ss : list str) (c : list Z) :
  in_lattice ss c -> ss <> [] ->
  counter_ok ss (increase ss c) /\ rank ss (increase ss c) = rank ss c + 1.
Proof.
  intros H Hne. destruct H as [|s x ss c Hx Hc]; [exfalso; apply Hne; reflexivity|].
  unfold increase.
  destruct (carry_spec (s :: ss) ((x + 1) :: c)) as [Hok Hrk];
    [split; [lia|assumption]|].
  split; [exact Hok|]. rewrite Hrk. simpl. ring.
Qed.

(** ** Predecessor coordinates *)

Lemma predecessor_spec (ss : list str) (c : list Z) (bp move : str) :
  bases ss c bp -> in_lattice ss c -> masks bp move ->
  in_lattice ss (generatecoordinates move c) /\
  Forall2 Z.le (generatecoordinates move c) c /\
  (generatecoordinates move c = c -> move = repeat gapc (length bp)).
Proof.
  intros Hb; revert move;
    induction Hb as [ss|s ss c bp Hb IH|s ss u c ch bp Hu Hch Hb IH];
    intros move Hl Hm.
  - inversion Hm; subst. inversion Hl; subst. simpl.
    repeat split; constructor.
  - inversion Hm as [|? mi ? mv Hmi Hmv]; subst.
    inversion Hl as [|? ? ? ? Hr Hl']; subst.
    assert (mi = gapc) by (destruct Hmi; assumption). subst mi.
    destruct (IH mv Hl' Hmv) as (H1 & H2 & H3).
    cbn [generatecoordinates]. rewrite Ascii.eqb_refl. repeat split.
    + constructor; assumption.
    + constructor; [lia|assumption].
    + intros E. injection E as E. cbn [length repeat]. f_equal. auto.
  - inversion Hm as [|? mi ? mv Hmi Hmv]; subst.
    inversion Hl as [|? ? ? ? Hr Hl']; subst.
    destruct (IH mv Hl' Hmv) as (H1 & H2 & H3).
    cbn [generatecoordinates]. destruct (Ascii.eqb mi gapc) eqn:E.
    + apply Ascii.eqb_eq in E. subst mi. repeat split.
      * constructor; assumption.
      * constructor; [lia|assumption].
      * intros E. injection E as E. cbn [length repeat]. f_equal. auto.
    + repeat split.
      * constructor; [lia|assumption].
      * constructor; [lia|assumption].
      * intros E'. injection E' as E' _. lia.
Qed.

Lemma predecessor_before (ss : list str) (c : list Z) (bp move : str) :
  bases ss c bp -> in_lattice ss c -> masks bp move ->
  move <> repeat gapc (length bp) ->
  in_lattice ss (generatecoordinates move c) /\
  rank ss (generatecoordinates move c) < rank ss c.
Proof.
  intros Hb Hl Hm Hne.
  destruct (predecessor_spec ss c bp move Hb Hl Hm) as (H1 & H2 & H3).
  split; [assumption|].
  assert (rank ss (generatecoordinates move c) <= rank ss c)
    by (apply rank_monotone; assumption).
  assert (rank ss (generatecoordinates move c) <> rank ss c).
  { intros E. apply Hne, H3. apply (rank_injective ss); assumption. }
  lia.
Qed.

(** ** The traversal of the lattice *)

Lemma startable_nonempty (ss : list str) : startable ss -> ss <> [].
Proof. destruct ss; simpl; [tauto|discriminate]. Qed.

Lemma fresh_matrix (ss : list str) :
  ss <> [] ->
  exists m,
    (m0 <- initializeMatrix ss ;;
     enterelement m0 (zeros ss) (PScore (mkScore (Some (zeros ss)) 0))) = Ok m /\
    shaped ss m /\
    retrievematrixelement m (zeros ss)
    = Ok (PScore (mkScore (Some (zeros ss)) 0)) /\
    (forall c, in_lattice ss c -> c <> zeros ss ->
               retrievematrixelement m c = Ok PNone).
Proof.
  intros Hne.
  destruct (initializeMatrix_spec ss Hne) as (m0 & Hm0 & Hs0 & Hnone).
  destruct (enterelement_shaped ss m0 (zeros ss)
              (PScore (mkScore (Some (zeros ss)) 0)) Hne Hs0
              (zeros_in_lattice ss) I) as (m & Hm & Hs & Hget & Hoth).
  exists m. rewrite Hm0. cbn [bind]. repeat split; auto.
  intros c Hc Hd. rewrite Hoth by assumption. auto.
Qed.

Lemma counter_ok_zeros (ss : list str) : ss <> [] -> counter_ok ss (zeros ss).
Proof. intros H. apply counter_ok_lattice; [apply zeros_in_lattice|exact H]. Qed.

Lemma start_counter (ss : list str) :
  startable ss ->
  counter_ok ss (1 :: repeat 0 (length ss - 1)) /\
  rank ss (1 :: repeat 0 (length ss - 1)) = 1.
Proof.
  destruct ss as [|s [|s' ss]]; simpl startable; intros H; [contradiction| |].
  - change (length [s] - 1)%nat with 0%nat. cbn [repeat rank counter_ok].
    split; [split; [reflexivity|unfold len; lia]|lia].
  - change (length (s :: s' :: ss) - 1)%nat with (length (s' :: ss)).
    change (repeat 0 (length (s' :: ss))) with (zeros (s' :: ss)).
    split.
    + split; [|apply counter_ok_zeros; discriminate].
      destruct s; [congruence|]. unfold len. cbn [length].
      rewrite Nat2Z.inj_succ. lia.
    + change (rank (s :: s' :: ss) (1 :: zeros (s' :: ss)))
        with (1 + (len s + 1) * rank (s' :: ss) (zeros (s' :: ss))).
      rewrite rank_zeros. lia.
Qed.

Lemma traversal_start (ss : list str) (m : pyval) :
  startable ss ->
  (m0 <- initializeMatrix ss ;;
   enterelement m0 (zeros ss) (PScore (mkScore (Some (zeros ss)) 0))) = Ok m ->
  traversal ss m (1 :: repeat 0 (length ss - 1)).
Proof.
  intros Hs Hm. pose proof (startable_nonempty ss Hs) as Hne.
  destruct (fresh_matrix ss Hne) as (m' & Hm' & Hsh & Hor & Hoth).
  rewrite Hm in Hm'. injection Hm' as <-.
  destruct (start_counter ss Hs) as [Hok Hrk].
  constructor; auto.
  - rewrite Hrk. lia.
  - intros c Hc Hlt. rewrite Hrk in Hlt.
    pose proof (rank_bounds ss c Hc).
    rewrite (rank_zero_origin ss c Hc) by lia.
    eexists. exact Hor.
  - intros c Hc Hle. rewrite Hrk in Hle. apply Hoth; [assumption|].
    intros ->. rewrite rank_zeros in Hle. lia.
Qed.

Lemma traversal_step (ss : list str) (m : pyval) (counter : list Z) (v : Score) :
  traversal ss m counter -> in_lattice ss counter ->
  exists m',
    enterelement m counter (PScore v) = Ok m' /\
    traversal ss m' (increase ss counter) /\
    retrievematrixelement m' counter = Ok (PScore v) /\
    (forall c, in_lattice ss c -> c <> counter ->
               retrievematrixelement m' c = retrievematrixelement m c).
Proof.
  intros [Hne Hsh Hok Hrk Hor Hfill Hun] Hl.
  destruct (enterelement_shaped ss m counter (PScore v) Hne Hsh Hl I)
    as (m' & Hm' & Hsh' & Hget & Hoth).
  destruct (increase_spec ss counter Hl Hne) as [Hok' Hrk'].
  exists m'. repeat split; auto.
  - lia.
  - rewrite Hoth; [exact Hor|apply zeros_in_lattice|].
    intros E. rewrite <- E, rank_zeros in Hrk. lia.
  - intros c Hc Hlt. rewrite Hrk' in Hlt.
    destruct (list_eq_dec Z.eq_dec c counter) as [->|Hd].
    + eexists. exact Hget.
    + unfold filled. rewrite Hoth by assumption. apply Hfill; [assumption|].
      assert (rank ss c <> rank ss counter)
        by (intros E; apply Hd; eapply rank_injective; eauto).
      lia.
  - intros c Hc Hle. rewrite Hrk' in Hle.
    rewrite Hoth; [apply Hun; [assumption|lia]|assumption|].
    intros ->. lia.
Qed.

Lemma traversal_visited (ss : list str) (m : pyval) (counter c : list Z) :
  traversal ss m counter -> in_lattice ss c -> filled m c ->
  rank ss c < rank ss counter.
Proof.
  intros T Hc (v & Hv).
  destruct (Z.lt_ge_cases (rank ss c) (rank ss counter)) as [H|H]; [exact H|].
  rewrite (tr_unset _ _ _ T c Hc H) in Hv. discriminate.
Qed.

Lemma traversal_finished (ss : list str) (m : pyval) (counter : list Z) :
  traversal ss m counter -> unfinished ss counter = Ok false ->
  forall c, in_lattice ss c -> filled m c.
Proof.
  intros T Hu c Hc.
  destruct (unfinished_spec ss counter (tr_counter _ _ _ T)) as (b & Hb & _ & Hf).
  rewrite Hu in Hb. injection Hb as <-.
  apply (tr_filled _ _ _ T); [assumption|].
  pose proof (rank_bounds ss c Hc). specialize (Hf eq_refl). lia.
Qed.

Lemma traversal_unfinished (ss : list str) (m : pyval) (counter : list Z) :
  traversal ss m counter -> unfinished ss counter = Ok true ->
  in_lattice ss counter.
Proof.
  intros T Hu.
  destruct (unfinished_spec ss counter (tr_counter _ _ _ T)) as (b & Hb & Ht & _).
  rewrite Hu in Hb. injection Hb as <-. auto.
Qed.

(** The moves enumerated at a coordinate lead back to coordinates of the
    lattice that come earlier in the odometer order. *)
Lemma enumerated_moves (ss : list str) (c : list Z) (bp : str) (moves : list str) :
  in_lattice ss c ->
  generatebasepairs ss c = Ok bp -> generatemoves bp = Ok moves ->
  forall move, In move moves ->
    masks bp move /\
    in_lattice ss (generatecoordinates move c) /\
    rank ss (generatecoordinates move c) < rank ss c.
Proof.
  intros Hl Hbp Hmv move Hin.
  destruct (generatebasepairs_spec ss c Hl) as (bp' & Hbp' & Hb).
  rewrite Hbp in Hbp'. injection Hbp' as <-.
  assert (Hne : bp <> []) by (intros ->; discriminate Hmv).
  destruct (generatemoves_spec bp Hne) as (moves' & Hmv' & Hiff & _).
  rewrite Hmv in Hmv'. injection Hmv' as <-.
  apply Hiff in Hin. destruct Hin as [Hm Hd].
  split; [assumption|]. eapply predecessor_before; eauto.
Qed.

Lemma candidates_of_ok (cfg : Config) (m : pyval) (c : list Z) (moves : list str) :
  (forall move, In move moves -> filled m (generatecoordinates move c)) ->
  exists cands, candidates_of cfg m c moves = Ok cands /\
                map fst cands = map (fun move => generatecoordinates move c) moves.
Proof.
  induction moves as [|move moves IH]; intros H; simpl.
  - exists []. auto.
  - destruct (H move (or_introl eq_refl)) as (s & Hs).
    destruct IH as (cands & Hc & Hmap); [intros; apply H; right; assumption|].
    unfold candidate. rewrite Hs. cbn [bind score_of]. rewrite Hc. cbn [bind].
    eexists. split; [reflexivity|]. simpl. congruence.
Qed.

Lemma candidates_of_congr (cfg : Config) (m m' : pyval) (c : list Z)
  (moves : list str) :
  (forall move, In move moves ->
     retrievematrixelement m' (generatecoordinates move c)
     = retrievematrixelement m (generatecoordinates move c)) ->
  candidates_of cfg m' c moves = candidates_of cfg m c moves.
Proof.
  induction moves as [|move moves IH]; intros H; simpl; [reflexivity|].
  unfold candidate. rewrite (H move (or_introl eq_refl)).
  rewrite IH; [reflexivity|]. intros; apply H; right; assumption.
Qed.

Lemma candidates_ok (ss : list str) (cfg : Config) (m : pyval)
  (counter c : list Z) :
  traversal ss m counter -> in_lattice ss c ->
  rank ss c <= rank ss counter ->
  exists cands, candidates ss cfg m c = Ok cands.
Proof.
  intros T Hc Hle.
  destruct (generatebasepairs_spec ss c Hc) as (bp & Hbp & Hb).
  assert (Hne : bp <> []).
  { intros ->. apply bases_length in Hb. destruct c; [|discriminate].
    inversion Hc; subst. exact (tr_nonempty _ _ _ T eq_refl). }
  destruct (generatemoves_spec bp Hne) as (moves & Hmv & _).
  destruct (candidates_of_ok cfg m c moves) as (cands & Hcs & _).
  { intros move Hin.
    destruct (enumerated_moves ss c bp moves Hc Hbp Hmv move Hin) as (_ & H1 & H2).
    apply (tr_filled _ _ _ T); [assumption|lia]. }
  exists cands. unfold candidates. rewrite Hbp. cbn [bind]. rewrite Hmv. exact Hcs.
Qed.

Lemma candidates_congr (ss : list str) (cfg : Config) (m m' : pyval)
  (counter c : list Z) :
  in_lattice ss c -> in_lattice ss counter ->
  rank ss c <= rank ss counter ->
  (forall c', in_lattice ss c' -> c' <> counter ->
              retrievematrixelement m' c' = retrievematrixelement m c') ->
  candidates ss cfg m' c = candidates ss cfg m c.
Proof.
  intros Hc Hcounter Hle Hoth. unfold candidates.
  destruct (generatebasepairs ss c) as [bp| |] eqn:Hbp; try reflexivity.
  cbn [bind]. destruct (generatemoves bp) as [moves| |] eqn:Hmv; try reflexivity.
  cbn [bind]. apply candidates_of_congr. intros move Hin.
  destruct (enumerated_moves ss c bp moves Hc Hbp Hmv move Hin) as (_ & H1 & H2).
  apply Hoth; [assumption|]. intros E. rewrite E in H2. lia.
Qed.

Lemma recurrence_step (cell : list (list Z * Z) -> Score) (ss : list str)
  (cfg : Config) (m m' : pyval) (counter : list Z) (cands : list (list Z * Z)) :
  traversal ss m counter -> in_lattice ss counter ->
  recurrence cell ss cfg m counter ->
  candidates ss cfg m counter = Ok cands ->
  retrievematrixelement m' counter = Ok (PScore (cell cands)) ->
  (forall c, in_lattice ss c -> c <> counter ->
             retrievematrixelement m' c = retrievematrixelement m c) ->
  recurrence cell ss cfg m' (increase ss counter).
Proof.
  intros T Hl Hrec Hcands Hget Hoth c Hc [Hpos Hlt].
  destruct (increase_spec ss counter Hl (tr_nonempty _ _ _ T)) as [_ Hrk].
  rewrite Hrk in Hlt.
  rewrite (candidates_congr ss cfg m m' counter c) by (auto; lia).
  destruct (list_eq_dec Z.eq_dec c counter) as [->|Hd].
  - exists cands. auto.
  - rewrite Hoth by assumption. apply Hrec; [assumption|].
    assert (rank ss c <> rank ss counter)
      by (intros E; apply Hd; eapply rank_injective; eauto).
    lia.
Qed.

(** ** The global engine *)

Lemma NW_best_pick (cfg : Config) (m : pyval) (c : list Z) (moves : list str)
  (cands : list (list Z * Z)) :
  candidates_of cfg m c moves = Ok cands ->
  forall maxscore bestmove,
    NW.best cfg m c moves maxscore bestmove = Ok (NW_pick cands maxscore bestmove).
Proof.
  revert cands; induction moves as [|move moves IH]; intros cands H; simpl in *.
  - injection H as <-. reflexivity.
  - destruct (candidate cfg m c move) as [[p s]| |]; try discriminate.
    cbn [bind] in *.
    destruct (candidates_of cfg m c moves) as [cs| |]; try discriminate.
    cbn [bind] in H. injection H as <-. intros maxscore bestmove. simpl.
    destruct (s >? maxscore); apply IH; reflexivity.
Qed.

Lemma NW_step_spec (st : NW.t) (cands : list (list Z * Z)) :
  candidates (NW.sequences st) (NW.config st) (NW.matrix st) (NW.counter st)
  = Ok cands ->
  NW.step st =
  (m <- enterelement (NW.matrix st) (NW.counter st) (PScore (NW_cell cands)) ;;
   Ok (NW.mk (NW.sequences st) (NW.config st) m
             (increase (NW.sequences st) (NW.counter st)))).
Proof.
  unfold candidates, NW.step. intros H.
  destruct (generatebasepairs (NW.sequences st) (NW.counter st)) as [bp| |];
    try discriminate. cbn [bind] in *.
  destruct (generatemoves bp) as [moves| |]; try discriminate. cbn [bind] in *.
  rewrite (NW_best_pick _ _ _ _ _ H). cbn [bind]. unfold NW_cell.
  destruct (NW_pick cands NW.sentinel None). reflexivity.
Qed.

Lemma NW_inv_fresh (ss : list str) (cfg : Config) (st : NW.t) :
  startable ss -> NW.init ss cfg = Ok st -> NW_inv ss cfg st.
Proof.
  intros Hs Hi. unfold NW.init in Hi.
  destruct (m0 <- initializeMatrix ss;;
            enterelement m0 (zeros ss) (PScore (mkScore (Some (zeros ss)) 0)))
    as [m| |] eqn:Hm.
  - pose proof (traversal_start ss m Hs Hm) as T.
    destruct (initializeMatrix ss) as [m0| |]; try discriminate.
    cbn [bind] in Hm, Hi. rewrite Hm in Hi. cbn [bind] in Hi.
    injection Hi as <-.
    split; [reflexivity|]. split; [reflexivity|]. split; [exact T|].
    intros c Hc [Hpos Hlt]. simpl in Hlt.
    destruct (start_counter ss Hs) as [_ Hrk]. lia.
  - destruct (initializeMatrix ss) as [m0| |]; try discriminate.
    cbn [bind] in Hm, Hi. rewrite Hm in Hi. discriminate.
  - destruct (initializeMatrix ss) as [m0| |]; try discriminate.
    cbn [bind] in Hm, Hi. rewrite Hm in Hi. discriminate.
Qed.

Lemma NW_inv_next (ss : list str) (cfg : Config) (st : NW.t) :
  NW_inv ss cfg st ->
  unfinished ss (NW.counter st) = Ok true ->
  exists st' cands,
    NW.step st = Ok st' /\ NW_inv ss cfg st' /\
    candidates ss cfg (NW.matrix st) (NW.counter st) = Ok cands /\
    retrievematrixelement (NW.matrix st') (NW.counter st)
    = Ok (PScore (NW_cell cands)) /\
    NW.counter st' = increase ss (NW.counter st) /\
    (forall c, in_lattice ss c -> c <> NW.counter st ->
               retrievematrixelement (NW.matrix st') c
               = retrievematrixelement (NW.matrix st) c).
Proof.
  intros (Hss & Hcfg & T & R) Hu.
  pose proof (traversal_unfinished _ _ _ T Hu) as Hl.
  destruct (candidates_ok ss cfg _ _ _ T Hl (Z.le_refl _)) as (cands & Hc).
  destruct (traversal_step ss _ _ (NW_cell cands) T Hl)
    as (m' & Hm' & T' & Hget & Hoth).
  exists (NW.mk ss cfg m' (increase ss (NW.counter st))), cands.
  split; [|split; [|auto]].
  - rewrite (NW_step_spec st cands) by (rewrite Hss, Hcfg; exact Hc).
    rewrite Hss, Hcfg, Hm'. reflexivity.
  - split; [reflexivity|]. split; [reflexivity|]. split; [exact T'|].
    simpl. eapply recurrence_step; eauto.
Qed.

Lemma NW_reach_inv (ss : list str) (cfg : Config) (st : NW.t) :
  startable ss -> NW_reach ss cfg st -> NW_inv ss cfg st.
Proof.
  intros Hs. induction 1 as [st Hi|st st' _ IH Hu Hstep].
  - apply NW_inv_fresh; assumption.
  - destruct IH as (Hss & Hcfg & T & R).
    rewrite Hss in Hu.
    destruct (NW_inv_next ss cfg st (conj Hss (conj Hcfg (conj T R))) Hu)
      as (st'' & cands & Hstep' & Hinv & _).
    rewrite Hstep in Hstep'. injection Hstep' as <-. exact Hinv.
Qed.

Lemma NW_solve_loop_total (ss : list str) (cfg : Config) (fuel : nat) :
  forall st,
    startable ss -> NW_reach ss cfg st ->
    Z.of_nat (lattice_size ss) - rank ss (NW.counter st) <= Z.of_nat fuel ->
    exists st', NW.solve_loop (S fuel) st = Ok st' /\
                NW_reach ss cfg st' /\
                unfinished ss (NW.counter st') = Ok false.
Proof.
  induction fuel as [|fuel IH]; intros st Hs Hr Hf;
    pose proof (NW_reach_inv ss cfg st Hs Hr) as Hinv;
    destruct Hinv as (Hss & Hcfg & T & R);
    destruct (unfinished_spec ss _ (tr_counter _ _ _ T)) as (b & Hb & Ht & _);
    cbn [NW.solve_loop]; rewrite Hss, Hb; cbn [bind]; destruct b.
  - pose proof (rank_bounds ss _ (Ht eq_refl)). lia.
  - exists st. auto.
  - destruct (NW_inv_next ss cfg st (conj Hss (conj Hcfg (conj T R))) Hb)
      as (st' & cands & Hstep & Hinv' & _ & _ & Hcnt & _).
    rewrite Hstep. cbn [bind]. apply IH; [assumption| |].
    + eapply NW_next; eauto. rewrite Hss. exact Hb.
    + rewrite Hcnt.
      destruct (increase_spec ss _ (Ht eq_refl) (tr_nonempty _ _ _ T)) as [_ ->].
      lia.
  - exists st. auto.
Qed.

(** On sequences the traversal can start on, construction and [solve]
    return, and [solve] leaves a state that the loop has run to its end. *)
Lemma NW_solve_total (ss : list str) (cfg : Config) :
  startable ss ->
  exists st0 st,
    NW.init ss cfg = Ok st0 /\ NW.solve st0 = Ok st /\
    NW_reach ss cfg st /\ unfinished ss (NW.counter st) = Ok false.
Proof.
  intros Hs. pose proof (startable_nonempty ss Hs) as Hne.
  destruct (fresh_matrix ss Hne) as (m & Hm & _).
  assert (Hi : NW.init ss cfg
               = Ok (NW.mk ss cfg m (1 :: repeat 0 (length ss - 1)))).
  { unfold NW.init. destruct (initializeMatrix ss); try discriminate.
    cbn [bind] in *. rewrite Hm. reflexivity. }
  pose proof (NW_fresh ss cfg _ Hi) as Hr.
  pose proof (lattice_size_pos ss) as Hp.
  destruct (lattice_size ss) as [|n] eqn:En; [lia|].
  destruct (NW_solve_loop_total ss cfg n _ Hs Hr) as (st & Hst & Hr' & Hu).
  { simpl NW.counter. destruct (start_counter ss Hs) as [_ ->]. rewrite En. lia. }
  eexists _, st. split; [exact Hi|]. split; [|auto].
  unfold NW.solve. simpl NW.sequences. rewrite En. exact Hst.
Qed.

(** ** Selection among candidates *)

Lemma peak_ge (cands : list (list Z * Z)) (b : Z) : b <= peak cands b.
Proof.
  revert b; induction cands as [|cand rest IH]; intros b; simpl; [lia|].
  specialize (IH (Z.max b (snd cand))). lia.
Qed.

Lemma peak_bound (cands : list (list Z * Z)) (b : Z) :
  Forall (fun cand => snd cand <= peak cands b) cands.
Proof.
  revert b; induction cands as [|cand rest IH]; intros b; simpl; constructor.
  - pose proof (peak_ge rest (Z.max b (snd cand))). lia.
  - apply IH.
Qed.

Lemma peak_floor (cands : list (list Z * Z)) (b : Z) :
  Forall (fun cand => snd cand <= b) cands -> peak cands b = b.
Proof.
  induction 1 as [|cand rest H _ IH]; simpl; [reflexivity|].
  rewrite Z.max_l by assumption. exact IH.
Qed.

Lemma NW_pick_peak (cands : list (list Z * Z)) (ms : Z) (bm : option (list Z)) :
  fst (NW_pick cands ms bm) = peak cands ms.
Proof.
  revert ms bm; induction cands as [|[p sc] rest IH]; intros ms bm; simpl;
    [reflexivity|].
  destruct (sc >? ms) eqn:E; rewrite IH; f_equal; lia.
Qed.

Lemma NW_pick_spec (cands : list (list Z * Z)) (ms : Z) (bm : option (list Z)) :
  (Forall (fun cand => snd cand <= ms) cands /\ NW_pick cands ms bm = (ms, bm)) \/
  (exists p s, ms < s /\ NW_pick cands ms bm = (s, Some p) /\ first_max cands p s).
Proof.
  revert ms bm; induction cands as [|[p sc] rest IH]; intros ms bm; simpl.
  - left. split; [constructor|reflexivity].
  - destruct (sc >? ms) eqn:E.
    + right. destruct (IH sc (Some p)) as [[Hall Heq]|(q & s & Hlt & Heq & Hfm)].
      * exists p, sc. split; [lia|]. split; [exact Heq|].
        exists [], rest. split; [reflexivity|]. split; [constructor|exact Hall].
      * exists q, s. split; [lia|]. split; [exact Heq|].
        destruct Hfm as (before & after & -> & Hb & Ha).
        exists ((p, sc) :: before), after. split; [reflexivity|].
        split; [constructor; [simpl; lia|exact Hb]|exact Ha].
    + destruct (IH ms bm) as [[Hall Heq]|(q & s & Hlt & Heq & Hfm)].
      * left. split; [constructor; [simpl; lia|exact Hall]|exact Heq].
      * right. exists q, s. split; [lia|]. split; [exact Heq|].
        destruct Hfm as (before & after & -> & Hb & Ha).
        exists ((p, sc) :: before), after. split; [reflexivity|].
        split; [constructor; [simpl; lia|exact Hb]|exact Ha].
Qed.

Lemma SW_pick_spec (cands : list (list Z * Z)) (c : list Z) (a : SW.acc) :
  (SW.maxscore (SW_pick cands c a), SW.bestmove (SW_pick cands c a))
  = NW_pick cands (SW.maxscore a) (SW.bestmove a) /\
  SW.acc_bestscore (SW_pick cands c a) = peak cands (SW.acc_bestscore a) /\
  SW.acc_bestcoordinate (SW_pick cands c a)
  = if peak cands (SW.acc_bestscore a) >? SW.acc_bestscore a then c
    else SW.acc_bestcoordinate a.
Proof.
  revert a; induction cands as [|[p sc] rest IH]; intros a.
  - simpl. rewrite Z.gtb_ltb, Z.ltb_irrefl. auto.
  - cbn [SW_pick NW_pick peak snd].
    set (a1 := if sc >? SW.maxscore a
               then SW.mkAcc sc (Some p) (SW.acc_bestscore a) (SW.acc_bestcoordinate a)
               else a).
    set (a2 := if sc >? SW.acc_bestscore a1
               then SW.mkAcc (SW.maxscore a1) (SW.bestmove a1) sc c
               else a1).
    destruct (IH a2) as (H1 & H2 & H3). rewrite H1, H2, H3.
    assert (Eb : SW.acc_bestscore a1 = SW.acc_bestscore a)
      by (unfold a1; destruct (sc >? SW.maxscore a); reflexivity).
    assert (Em : SW.maxscore a2 = SW.maxscore a1 /\ SW.bestmove a2 = SW.bestmove a1)
      by (unfold a2; destruct (sc >? SW.acc_bestscore a1); auto).
    destruct Em as [-> ->].
    assert (E2 : SW.acc_bestscore a2 = Z.max (SW.acc_bestscore a) sc).
    { unfold a2. rewrite Eb. destruct (sc >? SW.acc_bestscore a) eqn:E; simpl; lia. }
    rewrite E2. split; [|split; [reflexivity|]].
    + unfold a1. destruct (sc >? SW.maxscore a); reflexivity.
    + pose proof (peak_ge rest (Z.max (SW.acc_bestscore a) sc)) as Hge.
      unfold a2. rewrite Eb.
      destruct (sc >? SW.acc_bestscore a) eqn:E; cbn [SW.acc_bestcoordinate].
      * destruct (peak rest (Z.max (SW.acc_bestscore a) sc) >? Z.max (SW.acc_bestscore a) sc);
          destruct (peak rest (Z.max (SW.acc_bestscore a) sc) >? SW.acc_bestscore a) eqn:E';
          try reflexivity; lia.
      * replace (Z.max (SW.acc_bestscore a) sc) with (SW.acc_bestscore a) by lia.
        unfold a1. destruct (sc >? SW.maxscore a); reflexivity.
Qed.

Lemma SW_best_pick (cfg : Config) (m : pyval) (c : list Z) (moves : list str)
  (cands : list (list Z * Z)) :
  candidates_of cfg m c moves = Ok cands ->
  forall a, SW.best cfg m c moves a = Ok (SW_pick cands c a).
Proof.
  revert cands; induction moves as [|move moves IH]; intros cands H; simpl in *.
  - injection H as <-. reflexivity.
  - destruct (candidate cfg m c move) as [[p s]| |]; try discriminate.
    cbn [bind] in *.
    destruct (candidates_of cfg m c moves) as [cs| |]; try discriminate.
    cbn [bind] in H. injection H as <-. intros a.
    cbn [SW_pick]. rewrite (IH cs eq_refl). reflexivity.
Qed.

Lemma SW_cell_spec (cands : list (list Z * Z)) :
  score (SW_cell cands) = peak cands 0 /\
  0 <= score (SW_cell cands) /\
  (Forall (fun cand => snd cand <= 0) cands -> SW_cell cands = mkScore None 0) /\
  (~ Forall (fun cand => snd cand <= 0) cands ->
   exists p, coordinate (SW_cell cands) = Some p /\
             first_max cands p (score (SW_cell cands))).
Proof.
  unfold SW_cell. pose proof (NW_pick_peak cands 0 None) as Hp.
  pose proof (peak_ge cands 0) as Hge.
  destruct (NW_pick_spec cands 0 None) as [[Hall Heq]|(p & s & Hlt & Heq & Hfm)];
    rewrite Heq in *; simpl in *.
  - repeat split; auto; try lia. intros N. contradiction.
  - repeat split; auto; try lia.
    + intros Hall. exfalso.
      destruct Hfm as (before & after & -> & _ & _).
      rewrite Forall_forall in Hall.
      specialize (Hall (p, s) ltac:(apply in_or_app; right; left; reflexivity)).
      simpl in Hall. lia.
    + intros _. exists p. auto.
Qed.

Lemma peak_max (cands : list (list Z * Z)) (a b : Z) :
  peak cands (Z.max a b) = Z.max a (peak cands b).
Proof.
  revert b; induction cands as [|cand rest IH]; intros b; simpl; [reflexivity|].
  rewrite <- IH. f_equal. lia.
Qed.

(** ** The local engine *)

Lemma start_rank (ss : list str) :
  ss <> [] -> rank ss (1 :: repeat 0 (length ss - 1)) = 1.
Proof.
  destruct ss as [|s ss]; [congruence|]. intros _.
  cbn [length]. rewrite Nat.sub_succ, Nat.sub_0_r.
  change (repeat 0 (length ss)) with (zeros ss). cbn [rank].
  rewrite rank_zeros. lia.
Qed.

Lemma SW_init_spec (ss : list str) (cfg : Config) (st : SW.t) :
  SW.init ss cfg = Ok st ->
  ss <> [] /\
  exists m,
    (m0 <- initializeMatrix ss ;;
     enterelement m0 (zeros ss) (PScore (mkScore (Some (zeros ss)) 0))) = Ok m /\
    st = SW.mk ss cfg m (1 :: repeat 0 (length ss - 1)) 0 (zeros ss).
Proof.
  unfold SW.init. intros H. split; [intros ->; discriminate H|].
  destruct (initializeMatrix ss) as [m0| |]; try discriminate. cbn [bind] in *.
  destruct (enterelement m0 (zeros ss) _) as [m| |]; try discriminate.
  cbn [bind] in H. injection H as <-. exists m. auto.
Qed.

Lemma NW_init_spec (ss : list str) (cfg : Config) (st : NW.t) :
  NW.init ss cfg = Ok st ->
  ss <> [] /\
  exists m,
    (m0 <- initializeMatrix ss ;;
     enterelement m0 (zeros ss) (PScore (mkScore (Some (zeros ss)) 0))) = Ok m /\
    st = NW.mk ss cfg m (1 :: repeat 0 (length ss - 1)).
Proof.
  unfold NW.init. intros H. split; [intros ->; discriminate H|].
  destruct (initializeMatrix ss) as [m0| |]; try discriminate. cbn [bind] in *.
  destruct (enterelement m0 (zeros ss) _) as [m| |]; try discriminate.
  cbn [bind] in H. injection H as <-. exists m. auto.
Qed.

Lemma fresh_cells (ss : list str) (m : pyval) (c : list Z) (v : Score) :
  (m0 <- initializeMatrix ss ;;
   enterelement m0 (zeros ss) (PScore (mkScore (Some (zeros ss)) 0))) = Ok m ->
  in_lattice ss c -> retrievematrixelement m c = Ok (PScore v) ->
  c = zeros ss /\ v = mkScore (Some (zeros ss)) 0.
Proof.
  intros Hm Hc Hv.
  assert (Hne : ss <> []) by (intros ->; discriminate Hm).
  destruct (fresh_matrix ss Hne) as (m' & Hm' & _ & Hor & Hoth).
  rewrite Hm in Hm'. injection Hm' as <-.
  destruct (list_eq_dec Z.eq_dec c (zeros ss)) as [->|Hd].
  - rewrite Hor in Hv. injection Hv as <-. auto.
  - rewrite (Hoth c Hc Hd) in Hv. discriminate.
Qed.

Lemma SW_facts_fresh (ss : list str) (cfg : Config) (st : SW.t) :
  SW.init ss cfg = Ok st -> SW_facts ss cfg st.
Proof.
  intros Hi. destruct (SW_init_spec ss cfg st Hi) as (Hne & m & Hm & ->).
  destruct (fresh_matrix ss Hne) as (m' & Hm' & _ & Hor & Hoth).
  rewrite Hm in Hm'. injection Hm' as <-.
  pose proof (start_rank ss Hne) as Hrk.
  unfold SW_facts. cbn [SW.matrix SW.counter SW.bestscore SW.bestcoordinate].
  split; [exact Hor|]. split; [|split].
  - intros c Hc [Hpos Hlt]. lia.
  - intros c v Hc Hv. destruct (fresh_cells ss m c v Hm Hc Hv) as [_ ->].
    simpl. lia.
  - split; [apply zeros_in_lattice|]. split; [rewrite rank_zeros; lia|].
    split; [eexists; split; [exact Hor|reflexivity]|].
    intros c v Hc Hlt Hv. destruct (fresh_cells ss m c v Hm Hc Hv) as [-> ->].
    simpl. split; [lia|]. rewrite rank_zeros. lia.
Qed.

Lemma SW_step_spec (st : SW.t) (cands : list (list Z * Z)) :
  candidates (SW.sequences st) (SW.config st) (SW.matrix st) (SW.counter st)
  = Ok cands ->
  SW.step st =
  (m <- enterelement (SW.matrix st) (SW.counter st) (PScore (SW_cell cands)) ;;
   Ok (SW.mk (SW.sequences st) (SW.config st) m
             (increase (SW.sequences st) (SW.counter st))
             (peak cands (SW.bestscore st))
             (if peak cands (SW.bestscore st) >? SW.bestscore st
              then SW.counter st else SW.bestcoordinate st))).
Proof.
  unfold candidates, SW.step. intros H.
  destruct (generatebasepairs (SW.sequences st) (SW.counter st)) as [bp| |];
    try discriminate. cbn [bind] in *.
  destruct (generatemoves bp) as [moves| |]; try discriminate. cbn [bind] in *.
  rewrite (SW_best_pick _ _ _ _ _ H). cbn [bind].
  destruct (SW_pick_spec cands (SW.counter st)
              (SW.mkAcc 0 None (SW.bestscore st) (SW.bestcoordinate st)))
    as (H1 & H2 & H3).
  cbn [SW.maxscore SW.bestmove SW.acc_bestscore SW.acc_bestcoordinate] in H1, H2, H3.
  rewrite H2, H3. unfold SW_cell. rewrite <- H1. reflexivity.
Qed.

Lemma SW_inv_next (ss : list str) (cfg : Config) (st : SW.t) :
  SW_inv ss cfg st ->
  unfinished ss (SW.counter st) = Ok true ->
  exists st' cands,
    SW.step st = Ok st' /\ SW_inv ss cfg st' /\
    candidates ss cfg (SW.matrix st) (SW.counter st) = Ok cands /\
    retrievematrixelement (SW.matrix st') (SW.counter st)
    = Ok (PScore (SW_cell cands)) /\
    SW.counter st' = increase ss (SW.counter st) /\
    SW.bestscore st' = Z.max (SW.bestscore st) (score (SW_cell cands)) /\
    SW.bestcoordinate st'
    = (if score (SW_cell cands) >? SW.bestscore st then SW.counter st
       else SW.bestcoordinate st).
Proof.
  intros (Hss & Hcfg & T & Hor & R & Hnn & Hrb) Hu.
  pose proof (traversal_unfinished _ _ _ T Hu) as Hl.
  destruct (candidates_ok ss cfg _ _ _ T Hl (Z.le_refl _)) as (cands & Hcands).
  destruct (traversal_step ss _ _ (SW_cell cands) T Hl)
    as (m' & Hm' & T' & Hget & Hoth).
  destruct (SW_cell_spec cands) as (Hsc & Hpos & _).
  destruct Hrb as (Hbl & Hbr & (vb & Hvb & Hvs) & Hball).
  assert (Hb0 : 0 <= SW.bestscore st) by (rewrite <- Hvs; exact (Hnn _ vb Hbl Hvb)).
  assert (Hpk : peak cands (SW.bestscore st)
                = Z.max (SW.bestscore st) (score (SW_cell cands))).
  { rewrite Hsc, <- peak_max. f_equal. lia. }
  assert (Hgt : (peak cands (SW.bestscore st) >? SW.bestscore st)
                = (score (SW_cell cands) >? SW.bestscore st)).
  { rewrite Hpk, !Z.gtb_ltb.
    destruct (SW.bestscore st <? score (SW_cell cands)) eqn:E.
    - apply Z.ltb_lt in E. apply Z.ltb_lt. lia.
    - apply Z.ltb_ge in E. apply Z.ltb_ge. lia. }
  destruct (increase_spec ss _ Hl (tr_nonempty _ _ _ T)) as [_ Hrk].
  assert (Hbne : SW.bestcoordinate st <> SW.counter st)
    by (intros E; rewrite E in Hbr; lia).
  eexists _, cands. split.
  { rewrite (SW_step_spec st cands) by (rewrite Hss, Hcfg; exact Hcands).
    rewrite Hss, Hcfg, Hm'. cbn [bind]. reflexivity. }
  cbn [SW.matrix SW.counter SW.bestscore SW.bestcoordinate].
  rewrite Hgt, Hpk. split; [|auto 6].
  split; [reflexivity|]. split; [reflexivity|]. split; [exact T'|].
  unfold SW_facts. cbn [SW.matrix SW.counter SW.bestscore SW.bestcoordinate].
  split; [exact (tr_origin _ _ _ T')|]. split; [|split].
  - eapply recurrence_step; eauto.
  - intros c v Hc Hv. destruct (list_eq_dec Z.eq_dec c (SW.counter st)) as [->|Hd].
    + rewrite Hget in Hv. injection Hv as <-. exact Hpos.
    + rewrite Hoth in Hv by assumption. exact (Hnn c v Hc Hv).
  - unfold running_best. rewrite Hrk.
    destruct (score (SW_cell cands) >? SW.bestscore st) eqn:E.
    + split; [exact Hl|]. split; [lia|].
      split; [eexists; split; [exact Hget|lia]|].
      intros c v Hc Hlt Hv.
      destruct (list_eq_dec Z.eq_dec c (SW.counter st)) as [->|Hd].
      * rewrite Hget in Hv. injection Hv as <-. lia.
      * rewrite Hoth in Hv by assumption.
        assert (rank ss c <> rank ss (SW.counter st))
          by (intros E'; apply Hd; eapply rank_injective; eauto).
        destruct (Hball c v Hc ltac:(lia) Hv). lia.
    + split; [exact Hbl|]. split; [lia|].
      split; [exists vb; split; [rewrite Hoth by assumption; exact Hvb|lia]|].
      intros c v Hc Hlt Hv.
      destruct (list_eq_dec Z.eq_dec c (SW.counter st)) as [->|Hd].
      * rewrite Hget in Hv. injection Hv as <-. lia.
      * rewrite Hoth in Hv by assumption.
        assert (rank ss c <> rank ss (SW.counter st))
          by (intros E'; apply Hd; eapply rank_injective; eauto).
        destruct (Hball c v Hc ltac:(lia) Hv). lia.
Qed.

Lemma SW_inv_fresh (ss : list str) (cfg : Config) (st : SW.t) :
  startable ss -> SW.init ss cfg = Ok st -> SW_inv ss cfg st.
Proof.
  intros Hs Hi. pose proof (SW_facts_fresh ss cfg st Hi) as F.
  destruct (SW_init_spec ss cfg st Hi) as (Hne & m & Hm & ->).
  split; [reflexivity|]. split; [reflexivity|]. split; [|exact F].
  apply traversal_start; assumption.
Qed.

Lemma SW_reach_inv (ss : list str) (cfg : Config) (st : SW.t) :
  startable ss -> SW_reach ss cfg st -> SW_inv ss cfg st.
Proof.
  intros Hs. induction 1 as [st Hi|st st' _ IH Hu Hstep].
  - apply SW_inv_fresh; assumption.
  - pose proof IH as (Hss & _). rewrite Hss in Hu.
    destruct (SW_inv_next ss cfg st IH Hu) as (st'' & cands & Hstep' & Hinv & _).
    rewrite Hstep in Hstep'. injection Hstep' as <-. exact Hinv.
Qed.

Lemma SW_solve_loop_total (ss : list str) (cfg : Config) (fuel : nat) :
  forall st,
    startable ss -> SW_reach ss cfg st ->
    Z.of_nat (lattice_size ss) - rank ss (SW.counter st) <= Z.of_nat fuel ->
    exists st', SW.solve_loop (S fuel) st = Ok st' /\
                SW_reach ss cfg st' /\
                unfinished ss (SW.counter st') = Ok false.
Proof.
  induction fuel as [|fuel IH]; intros st Hs Hr Hf;
    pose proof (SW_reach_inv ss cfg st Hs Hr) as Hinv;
    pose proof Hinv as (Hss & Hcfg & T & F);
    destruct (unfinished_spec ss _ (tr_counter _ _ _ T)) as (b & Hb & Ht & _);
    cbn [SW.solve_loop]; rewrite Hss, Hb; cbn [bind]; destruct b.
  - pose proof (rank_bounds ss _ (Ht eq_refl)). lia.
  - exists st. auto.
  - destruct (SW_inv_next ss cfg st Hinv Hb)
      as (st' & cands & Hstep & Hinv' & _ & _ & Hcnt & _).
    rewrite Hstep. cbn [bind]. apply IH; [assumption| |].
    + eapply SW_next; eauto. rewrite Hss. exact Hb.
    + rewrite Hcnt.
      destruct (increase_spec ss _ (Ht eq_refl) (tr_nonempty _ _ _ T)) as [_ ->].
      lia.
  - exists st. auto.
Qed.

Lemma SW_solve_total (ss : list str) (cfg : Config) :
  startable ss ->
  exists st0 st,
    SW.init ss cfg = Ok st0 /\ SW.solve st0 = Ok st /\
    SW_reach ss cfg st /\ unfinished ss (SW.counter st) = Ok false.
Proof.
  intros Hs. pose proof (startable_nonempty ss Hs) as Hne.
  destruct (fresh_matrix ss Hne) as (m & Hm & _).
  assert (Hi : SW.init ss cfg
               = Ok (SW.mk ss cfg m (1 :: repeat 0 (length ss - 1)) 0 (zeros ss))).
  { unfold SW.init. destruct (initializeMatrix ss); try discriminate.
    cbn [bind] in *. rewrite Hm. reflexivity. }
  pose proof (SW_fresh ss cfg _ Hi) as Hr.
  pose proof (lattice_size_pos ss) as Hp.
  destruct (lattice_size ss) as [|n] eqn:En; [lia|].
  destruct (SW_solve_loop_total ss cfg n _ Hs Hr) as (st & Hst & Hr' & Hu).
  { simpl SW.counter. rewrite (start_rank ss Hne), En. lia. }
  eexists _, st. split; [exact Hi|]. split; [|auto].
  unfold SW.solve. simpl SW.sequences. rewrite En. exact Hst.
Qed.

(** ** Engines whose traversal cannot start *)

Lemma startable_dec (ss : list str) : {startable ss} + {~ startable ss}.
Proof.
  destruct ss as [|s [|s' ss]]; simpl; [right; tauto|left; exact I|].
  destruct s; [right; intros H; apply H; reflexivity|left; discriminate].
Qed.

Lemma unstartable_basepairs (ss : list str) :
  ss <> [] -> ~ startable ss ->
  generatebasepairs ss (1 :: repeat 0 (length ss - 1)) = Raise IndexError.
Proof.
  destruct ss as [|s [|s' ss]]; simpl startable; intros Hne Hs;
    [congruence|tauto|].
  destruct s; [|exfalso; apply Hs; discriminate].
  reflexivity.
Qed.

Lemma NW_unstartable_step (ss : list str) (cfg : Config) (st : NW.t) :
  ~ startable ss -> NW.init ss cfg = Ok st -> NW.step st = Raise IndexError.
Proof.
  intros Hs Hi. destruct (NW_init_spec ss cfg st Hi) as (Hne & m & _ & ->).
  unfold NW.step. cbn [NW.sequences NW.counter].
  rewrite (unstartable_basepairs ss Hne Hs). reflexivity.
Qed.

Lemma SW_unstartable_step (ss : list str) (cfg : Config) (st : SW.t) :
  ~ startable ss -> SW.init ss cfg = Ok st -> SW.step st = Raise IndexError.
Proof.
  intros Hs Hi. destruct (SW_init_spec ss cfg st Hi) as (Hne & m & _ & ->).
  unfold SW.step. cbn [SW.sequences SW.counter].
  rewrite (unstartable_basepairs ss Hne Hs). reflexivity.
Qed.

Lemma NW_reach_cases (ss : list str) (cfg : Config) (st : NW.t) :
  NW_reach ss cfg st ->
  (startable ss /\ NW_inv ss cfg st) \/ (~ startable ss /\ NW.init ss cfg = Ok st).
Proof.
  intros Hr. destruct (startable_dec ss) as [Hs|Hs].
  - left. split; [assumption|apply NW_reach_inv; assumption].
  - right. split; [assumption|].
    induction Hr as [st Hi|st st' _ IH Hu Hstep]; [assumption|].
    rewrite (NW_unstartable_step ss cfg st Hs IH) in Hstep. discriminate.
Qed.

Lemma SW_reach_cases (ss : list str) (cfg : Config) (st : SW.t) :
  SW_reach ss cfg st ->
  (startable ss /\ SW_inv ss cfg st) \/ (~ startable ss /\ SW.init ss cfg = Ok st).
Proof.
  intros Hr. destruct (startable_dec ss) as [Hs|Hs].
  - left. split; [assumption|apply SW_reach_inv; assumption].
  - right. split; [assumption|].
    induction Hr as [st Hi|st st' _ IH Hu Hstep]; [assumption|].
    rewrite (SW_unstartable_step ss cfg st Hs IH) in Hstep. discriminate.
Qed.

Lemma engine_state_cases (ss : list str) (cfg : Config) (m : pyval)
  (counter : list Z) :
  engine_state ss cfg m counter ->
  (startable ss /\ traversal ss m counter) \/
  (~ startable ss /\ ss <> [] /\
   counter = 1 :: repeat 0 (length ss - 1) /\
   (m0 <- initializeMatrix ss ;;
    enterelement m0 (zeros ss) (PScore (mkScore (Some (zeros ss)) 0))) = Ok m).
Proof.
  intros [(st & Hr & <- & <-)|(st & Hr & <- & <-)].
  - destruct (NW_reach_cases ss cfg st Hr) as [[Hs (_ & _ & T & _)]|[Hs Hi]];
      [left; auto|right].
    destruct (NW_init_spec ss cfg st Hi) as (Hne & m & Hm & ->). auto.
  - destruct (SW_reach_cases ss cfg st Hr) as [[Hs (_ & _ & T & _)]|[Hs Hi]];
      [left; auto|right].
    destruct (SW_init_spec ss cfg st Hi) as (Hne & m & Hm & ->). auto.
Qed.

(** A slot other than the origin holds a [Score] only once the traversal
    has gone through it. *)
Lemma engine_visited (ss : list str) (cfg : Config) (m : pyval)
  (counter c : list Z) (v : Score) :
  engine_state ss cfg m counter ->
  in_lattice ss c -> c <> zeros ss ->
  retrievematrixelement m c = Ok (PScore v) ->
  0 < rank ss c < rank ss counter.
Proof.
  intros He Hc Hd Hv.
  destruct (engine_state_cases ss cfg m counter He)
    as [[Hs T]|(Hs & Hne & _ & Hm)].
  - pose proof (rank_bounds ss c Hc).
    assert (rank ss c <> 0) by (intros E; apply Hd; apply rank_zero_origin; auto).
    assert (rank ss c < rank ss counter)
      by (eapply traversal_visited; eauto; eexists; eauto).
    lia.
  - destruct (fresh_cells ss m c v Hm Hc Hv) as [E _]. contradiction.
Qed.

(** ** Lookups of predecessors *)

(** C10: at every coordinate that [solve] visits, in either engine, each
    enumerated move leads back to a coordinate whose entries lie between 0
    and the length of their sequence and whose slot already holds a
    [Score], so the lookup of the move's candidate succeeds. *)
Theorem predecessors_filled (ss : list str) (cfg : Config) (m : pyval)
  (counter : list Z) (bp : str) (moves : list str) (move : str) :
  engine_state ss cfg m counter ->
  unfinished ss counter = Ok true ->
  generatebasepairs ss counter = Ok bp ->
  generatemoves bp = Ok moves ->
  In move moves ->
  in_lattice ss (generatecoordinates move counter) /\
  exists v,
    retrievematrixelement m (generatecoordinates move counter) = Ok (PScore v) /\
    candidate cfg m counter move
    = Ok (generatecoordinates move counter, score v + movescore cfg move).
Proof.
  intros He Hu Hbp Hmv Hin.
  destruct (engine_state_cases ss cfg m counter He)
    as [[Hs T]|(Hs & Hne & -> & _)].
  - pose proof (traversal_unfinished _ _ _ T Hu) as Hl.
    destruct (enumerated_moves ss counter bp moves Hl Hbp Hmv move Hin)
      as (_ & H1 & H2).
    split; [exact H1|].
    destruct (tr_filled _ _ _ T _ H1 H2) as (v & Hv).
    exists v. split; [exact Hv|]. unfold candidate. rewrite Hv. reflexivity.
  - rewrite (unstartable_basepairs ss Hne Hs) in Hbp. discriminate.
Qed.

Lemma predecessors_filled_witness :
  in_lattice [lit "AC"; lit "G"] (generatecoordinates (lit "A_") [1; 0]) /\
  exists v,
    retrievematrixelement (NW.matrix example_fresh)
      (generatecoordinates (lit "A_") [1; 0]) = Ok (PScore v) /\
    candidate default_config (NW.matrix example_fresh) [1; 0] (lit "A_")
    = Ok (generatecoordinates (lit "A_") [1; 0],
          score v + movescore default_config (lit "A_")).
Proof.
  apply (predecessors_filled [lit "AC"; lit "G"] default_config
           (NW.matrix example_fresh) [1; 0] (lit "A_") [lit "A_"] (lit "A_")).
  - left. exists example_fresh. split; [|split; reflexivity].
    apply NW_fresh. reflexivity.
  - reflexivity.
  - reflexivity.
  - reflexivity.
  - left. reflexivity.
Defined.

(** ** The origin *)

(** C7, as the code has it: in every state of either engine the slot of
    the all-zero coordinate holds score 0 and, as its coordinate, the
    all-zero coordinate itself. *)
Theorem origin_cell (ss : list str) (cfg : Config) (m : pyval) (counter : list Z) :
  engine_state ss cfg m counter ->
  retrievematrixelement m (zeros ss) = Ok (PScore (mkScore (Some (zeros ss)) 0)).
Proof.
  intros He.
  destruct (engine_state_cases ss cfg m counter He)
    as [[Hs T]|(Hs & Hne & _ & Hm)].
  - exact (tr_origin _ _ _ T).
  - destruct (fresh_matrix ss Hne) as (m' & Hm' & _ & Hor & _).
    rewrite Hm in Hm'. injection Hm' as <-. exact Hor.
Qed.

Lemma origin_cell_witness :
  retrievematrixelement (NW.matrix example_fresh) (zeros [lit "AC"; lit "G"])
  = Ok (PScore (mkScore (Some (zeros [lit "AC"; lit "G"])) 0)).
Proof.
  apply (origin_cell [lit "AC"; lit "G"] default_config
           (NW.matrix example_fresh) (NW.counter example_fresh)).
  left. exists example_fresh. split; [|split; reflexivity].
  apply NW_fresh. reflexivity.
Defined.

(** C7 as stated fails: the constructor enters [Score([0]*N, 0)], so the
    coordinate stored at the origin is not [None]. *)
Lemma origin_cell_not_none :
  exists st,
    NW.init [lit "A"; lit "B"] default_config = Ok st /\
    retrievematrixelement (NW.matrix st) [0; 0]
    = Ok (PScore (mkScore (Some [0; 0]) 0)) /\
    retrievematrixelement (NW.matrix st) [0; 0]
    <> Ok (PScore (mkScore None 0)).
Proof.
  eexists. split; [reflexivity|]. split; [reflexivity|]. discriminate.
Qed.

(** ** States that [solve] returns *)

Lemma NW_solve_loop_reach (ss : list str) (cfg : Config) (fuel : nat) :
  forall st st', NW_reach ss cfg st -> NW.solve_loop fuel st = Ok st' ->
                 NW_reach ss cfg st' /\
                 unfinished (NW.sequences st') (NW.counter st') = Ok false.
Proof.
  induction fuel as [|fuel IH]; intros st st' Hr H; simpl in H; [discriminate|].
  destruct (unfinished (NW.sequences st) (NW.counter st)) as [[|]| |] eqn:Hu;
    try discriminate; cbn [bind] in H.
  - destruct (NW.step st) as [st1| |] eqn:Hs; try discriminate. cbn [bind] in H.
    apply (IH st1); [|assumption]. eapply NW_next; eauto.
  - injection H as <-. auto.
Qed.

Lemma SW_solve_loop_reach (ss : list str) (cfg : Config) (fuel : nat) :
  forall st st', SW_reach ss cfg st -> SW.solve_loop fuel st = Ok st' ->
                 SW_reach ss cfg st' /\
                 unfinished (SW.sequences st') (SW.counter st') = Ok false.
Proof.
  induction fuel as [|fuel IH]; intros st st' Hr H; simpl in H; [discriminate|].
  destruct (unfinished (SW.sequences st) (SW.counter st)) as [[|]| |] eqn:Hu;
    try discriminate; cbn [bind] in H.
  - destruct (SW.step st) as [st1| |] eqn:Hs; try discriminate. cbn [bind] in H.
    apply (IH st1); [|assumption]. eapply SW_next; eauto.
  - injection H as <-. auto.
Qed.

(** ** The local recurrence *)

(** C3: when the traversal can start, [SW.solve] returns on the
    constructed engine, and in the engine it returns every coordinate of
    the lattice holds a score that is not negative; every coordinate other
    than the origin holds the larger of 0 and its best candidate score,
    with score 0 and no predecessor when no candidate exceeds 0 and else
    the predecessor of the first candidate that reaches the maximum; the
    best score is the score stored at the best coordinate, no coordinate
    holds more, and those that come before it in the order of the
    traversal hold less.  Each round of the loop stores such a cell and
    replaces the running best only when the score of the new cell is
    strictly larger. *)
Theorem local_recurrence (ss : list str) (cfg : Config) :
  startable ss ->
  exists st0 st,
    SW.init ss cfg = Ok st0 /\ SW.solve st0 = Ok st /\
    (forall c, in_lattice ss c ->
       exists v, retrievematrixelement (SW.matrix st) c = Ok (PScore v) /\
                 0 <= score v) /\
    (forall c, in_lattice ss c -> c <> zeros ss ->
       exists v cands,
         retrievematrixelement (SW.matrix st) c = Ok (PScore v) /\
         candidates ss cfg (SW.matrix st) c = Ok cands /\
         score v = peak cands 0 /\
         (Forall (fun cand => snd cand <= 0) cands -> v = mkScore None 0) /\
         (~ Forall (fun cand => snd cand <= 0) cands ->
          exists p, coordinate v = Some p /\ first_max cands p (score v))) /\
    in_lattice ss (SW.bestcoordinate st) /\
    (exists v, retrievematrixelement (SW.matrix st) (SW.bestcoordinate st)
               = Ok (PScore v) /\ score v = SW.bestscore st) /\
    (forall c v, in_lattice ss c ->
       retrievematrixelement (SW.matrix st) c = Ok (PScore v) ->
       score v <= SW.bestscore st /\
       (rank ss c < rank ss (SW.bestcoordinate st) ->
        score v < SW.bestscore st)) /\
    (forall st1, SW_reach ss cfg st1 ->
       unfinished ss (SW.counter st1) = Ok true ->
       exists st1' v,
         SW.step st1 = Ok st1' /\
         retrievematrixelement (SW.matrix st1') (SW.counter st1)
         = Ok (PScore v) /\
         SW.bestscore st1' = Z.max (SW.bestscore st1) (score v) /\
         SW.bestcoordinate st1'
         = if score v >? SW.bestscore st1 then SW.counter st1
           else SW.bestcoordinate st1).
Proof.
  intros Hs.
  destruct (SW_solve_total ss cfg Hs) as (st0 & st & Hi & Hsol & Hr & Hu).
  destruct (SW_reach_inv ss cfg st Hs Hr)
    as (Hseq & Hcfg & T & _ & R & Hnn & Hbl & Hbr & Hbv & Hball).
  assert (Hvis : forall c, in_lattice ss c ->
                           rank ss c < rank ss (SW.counter st)).
  { intros c Hc.
    destruct (unfinished_spec ss _ (tr_counter _ _ _ T)) as (b & Hb & _ & Hf).
    rewrite Hu in Hb. injection Hb as <-.
    pose proof (rank_bounds ss c Hc). specialize (Hf eq_refl). lia. }
  exists st0, st. split; [exact Hi|]. split; [exact Hsol|].
  split; [|split; [|split; [exact Hbl|split; [exact Hbv|split]]]].
  - intros c Hc.
    destruct (traversal_finished ss _ _ T Hu c Hc) as (v & Hv).
    exists v. split; [exact Hv|exact (Hnn c v Hc Hv)].
  - intros c Hc Hd.
    assert (Hpos : 0 < rank ss c).
    { pose proof (rank_bounds ss c Hc).
      assert (rank ss c <> 0)
        by (intros E; apply Hd; apply rank_zero_origin; auto).
      lia. }
    destruct (R c Hc (conj Hpos (Hvis c Hc))) as (cands & Hcands & Hget).
    destruct (SW_cell_spec cands) as (H1 & _ & H3 & H4).
    exists (SW_cell cands), cands. auto.
  - intros c v Hc Hv. exact (Hball c v Hc (Hvis c Hc) Hv).
  - intros st1 Hr1 Hu1.
    destruct (SW_inv_next ss cfg st1 (SW_reach_inv ss cfg st1 Hs Hr1) Hu1)
      as (st1' & cands & Hstep & _ & _ & Hget & _ & Hb & Hbc).
    exists st1', (SW_cell cands). auto.
Qed.

Lemma local_recurrence_witness :
  SW.init [lit "AC"; lit "GC"] default_config = Ok example_local /\
  SW.solve example_local = Ok example_local_solved /\
  (forall c, in_lattice [lit "AC"; lit "GC"] c ->
     exists v, retrievematrixelement (SW.matrix example_local_solved) c
               = Ok (PScore v) /\
               0 <= score v) /\
  (forall c, in_lattice [lit "AC"; lit "GC"] c ->
     c <> zeros [lit "AC"; lit "GC"] ->
     exists v cands,
       retrievematrixelement (SW.matrix example_local_solved) c
       = Ok (PScore v) /\
       candidates [lit "AC"; lit "GC"] default_config
         (SW.matrix example_local_solved) c = Ok cands /\
       score v = peak cands 0 /\
       (Forall (fun cand => snd cand <= 0) cands -> v = mkScore None 0) /\
       (~ Forall (fun cand => snd cand <= 0) cands ->
        exists p, coordinate v = Some p /\ first_max cands p (score v))) /\
  in_lattice [lit "AC"; lit "GC"] (SW.bestcoordinate example_local_solved) /\
  (exists v, retrievematrixelement (SW.matrix example_local_solved)
               (SW.bestcoordinate example_local_solved)
             = Ok (PScore v) /\
             score v = SW.bestscore example_local_solved) /\
  (forall c v, in_lattice [lit "AC"; lit "GC"] c ->
     retrievematrixelement (SW.matrix example_local_solved) c
     = Ok (PScore v) ->
     score v <= SW.bestscore example_local_solved /\
     (rank [lit "AC"; lit "GC"] c
      < rank [lit "AC"; lit "GC"] (SW.bestcoordinate example_local_solved) ->
      score v < SW.bestscore example_local_solved)) /\
  (forall st1, SW_reach [lit "AC"; lit "GC"] default_config st1 ->
     unfinished [lit "AC"; lit "GC"] (SW.counter st1) = Ok true ->
     exists st1' v,
       SW.step st1 = Ok st1' /\
       retrievematrixelement (SW.matrix st1') (SW.counter st1)
       = Ok (PScore v) /\
       SW.bestscore st1' = Z.max (SW.bestscore st1) (score v) /\
       SW.bestcoordinate st1'
       = if score v >? SW.bestscore st1 then SW.counter st1
         else SW.bestcoordinate st1).
Proof.
  assert (E0 : SW.init [lit "AC"; lit "GC"] default_config = Ok example_local)
    by (vm_compute; reflexivity).
  assert (E1 : SW.solve example_local = Ok example_local_solved)
    by (vm_compute; reflexivity).
  destruct (local_recurrence [lit "AC"; lit "GC"] default_config)
    as (st0 & st & Hi & Hsol & Hrest).
  - simpl. discriminate.
  - rewrite E0 in Hi. injection Hi as <-.
    rewrite E1 in Hsol. injection Hsol as <-.
    split; [exact E0|]. split; [exact E1|exact Hrest].
Defined.

(** ** The global recurrence *)

Lemma NW_cell_spec (cands : list (list Z * Z)) :
  (Forall (fun cand => snd cand <= NW.sentinel) cands /\
   NW_cell cands = mkScore None NW.sentinel) \/
  (exists p, NW.sentinel < score (NW_cell cands) /\
             coordinate (NW_cell cands) = Some p /\
             first_max cands p (score (NW_cell cands))).
Proof.
  unfold NW_cell.
  destruct (NW_pick_spec cands NW.sentinel None)
    as [[Hall Heq]|(p & s & Hlt & Heq & Hfm)]; rewrite Heq.
  - left. auto.
  - right. exists p. auto.
Qed.

(** In every state of a global engine, a coordinate other than the origin
    that holds a cell holds what the selection makes of its candidates:
    the first candidate that reaches the maximum, as long as one candidate
    exceeds the initial [maxscore]. *)
Lemma global_recurrence (ss : list str) (cfg : Config) (st : NW.t) :
  NW_reach ss cfg st ->
  forall c v, in_lattice ss c -> c <> zeros ss ->
    retrievematrixelement (NW.matrix st) c = Ok (PScore v) ->
    exists cands,
      candidates ss cfg (NW.matrix st) c = Ok cands /\
      v = NW_cell cands /\
      (~ Forall (fun cand => snd cand <= NW.sentinel) cands ->
       exists p, coordinate v = Some p /\ first_max cands p (score v)).
Proof.
  intros Hr c v Hc Hd Hv.
  assert (Hrk : 0 < rank ss c < rank ss (NW.counter st)).
  { apply (engine_visited ss cfg (NW.matrix st) (NW.counter st) c v); auto.
    left. exists st. auto. }
  assert (R : recurrence NW_cell ss cfg (NW.matrix st) (NW.counter st)).
  { destruct (NW_reach_cases ss cfg st Hr) as [[_ (_ & _ & _ & R)]|[Hs Hi]];
      [exact R|].
    destruct (NW_init_spec ss cfg st Hi) as (Hne & m & _ & ->).
    intros c' _ [H1 H2]. simpl in H2. rewrite (start_rank ss Hne) in H2. lia. }
  destruct (R c Hc Hrk) as (cands & Hcands & Hget).
  rewrite Hv in Hget. injection Hget as ->.
  exists cands. split; [assumption|]. split; [reflexivity|].
  intros N. destruct (NW_cell_spec cands) as [[Hall _]|(p & _ & H1 & H2)];
    [contradiction|]. exists p. auto.
Qed.

(** C1 fails on the code: [maxscore] starts at -100000000, which is not
    below every possible score.  With gap weight -200000000, the only move
    into [(1, 0)] of ["A"] and [""] scores -200000000; the cell is stored
    with score -100000000 and no predecessor. *)
Lemma sentinel_caps_score :
  let ss := [lit "A"; lit ""] in
  let cfg := mkConfig 5 (-2) (-200000000) 0 in
  exists st0 st,
    NW.init ss cfg = Ok st0 /\ NW.solve st0 = Ok st /\
    in_lattice ss [1; 0] /\
    candidates ss cfg (NW.matrix st) [1; 0] = Ok [([0; 0], -200000000)] /\
    retrievematrixelement (NW.matrix st) [1; 0]
    = Ok (PScore (mkScore None (-100000000))).
Proof.
  simpl. eexists _, _. split; [reflexivity|]. split; [reflexivity|].
  split; [lattice|]. split; reflexivity.
Qed.

(** ** Reports before [solve] *)

Lemma lengths_in_lattice (ss : list str) : in_lattice ss (lengths ss).
Proof.
  unfold in_lattice, lengths. induction ss as [|s ss IH]; simpl; constructor; auto.
  unfold len. lia.
Qed.

(** On a fresh global engine with a non-empty sequence, [__str__] reads
    [.score] of the unset far corner before it tests for [None]. *)
Lemma NW_report_unsolved (ss : list str) (cfg : Config) (st : NW.t) :
  NW.init ss cfg = Ok st -> lengths ss <> zeros ss ->
  NW.to_str st = Raise AttributeError.
Proof.
  intros Hi Hd. destruct (NW_init_spec ss cfg st Hi) as (Hne & m & Hm & ->).
  destruct (fresh_matrix ss Hne) as (m' & Hm' & _ & _ & Hoth).
  rewrite Hm in Hm'. injection Hm' as <-.
  unfold NW.to_str. cbn [NW.sequences NW.matrix].
  rewrite (Hoth _ (lengths_in_lattice ss) Hd). reflexivity.
Qed.

(** The local engine tests first, and answers with the message. *)
Lemma SW_report_unsolved (ss : list str) (cfg : Config) (st : SW.t) :
  SW.init ss cfg = Ok st -> lengths ss <> zeros ss ->
  SW.to_str st = Ok notsolved_message.
Proof.
  intros Hi Hd. destruct (SW_init_spec ss cfg st Hi) as (Hne & m & Hm & ->).
  destruct (fresh_matrix ss Hne) as (m' & Hm' & _ & _ & Hoth).
  rewrite Hm in Hm'. injection Hm' as <-.
  unfold SW.to_str. cbn [SW.sequences SW.matrix].
  rewrite (Hoth _ (lengths_in_lattice ss) Hd). reflexivity.
Qed.

(** C4 fails on the code: before [solve], the report of a global engine
    on ["A"] and ["B"] raises [AttributeError], where the local engine on
    the same input returns the not-solved message. *)
Lemma report_before_solve :
  (x <- NW.init [lit "A"; lit "B"] default_config ;; NW.to_str x)
  = Raise AttributeError /\
  (x <- SW.init [lit "A"; lit "B"] default_config ;; SW.to_str x)
  = Ok notsolved_message.
Proof. split; reflexivity. Qed.

(** ** Sequences of length zero *)

Lemma unstartable_unfinished (ss : list str) :
  ss <> [] -> ~ startable ss ->
  unfinished ss (1 :: repeat 0 (length ss - 1)) = Ok true.
Proof.
  destruct ss as [|s [|s' ss]]; simpl startable; intros Hne Hs;
    [congruence|tauto|].
  change (length (s :: s' :: ss) - 1)%nat with (S (length ss)).
  destruct (exists_last (l := s' :: ss) ltac:(discriminate)) as (l & z & E).
  assert (Ec : 1 :: repeat 0 (S (length ss)) = (1 :: repeat 0 (length ss)) ++ [0])
    by (simpl; f_equal; apply repeat_cons).
  unfold unfinished. rewrite Ec, getitem_last. cbn [bind]. rewrite E.
  change (s :: l ++ [z]) with ((s :: l) ++ [z]). rewrite getitem_last. cbn [bind].
  f_equal. unfold len. destruct (0 =? Z.of_nat (length z) + 1) eqn:E0;
    [apply Z.eqb_eq in E0; lia|reflexivity].
Qed.

Lemma NW_unstartable_solve (ss : list str) (cfg : Config) :
  ss <> [] -> ~ startable ss ->
  (x <- NW.init ss cfg ;; NW.solve x) = Raise IndexError.
Proof.
  intros Hne Hs. destruct (fresh_matrix ss Hne) as (m & Hm & _).
  assert (Hi : NW.init ss cfg
               = Ok (NW.mk ss cfg m (1 :: repeat 0 (length ss - 1)))).
  { unfold NW.init. destruct (initializeMatrix ss); try discriminate.
    cbn [bind] in *. rewrite Hm. reflexivity. }
  rewrite Hi. cbn [bind]. unfold NW.solve. cbn [NW.sequences].
  pose proof (lattice_size_pos ss). destruct (lattice_size ss) as [|n]; [lia|].
  cbn [NW.solve_loop NW.sequences NW.counter].
  rewrite (unstartable_unfinished ss Hne Hs). cbn [bind].
  rewrite (NW_unstartable_step ss cfg _ Hs Hi). reflexivity.
Qed.

Lemma SW_unstartable_solve (ss : list str) (cfg : Config) :
  ss <> [] -> ~ startable ss ->
  (x <- SW.init ss cfg ;; SW.solve x) = Raise IndexError.
Proof.
  intros Hne Hs. destruct (fresh_matrix ss Hne) as (m & Hm & _).
  assert (Hi : SW.init ss cfg
               = Ok (SW.mk ss cfg m (1 :: repeat 0 (length ss - 1)) 0 (zeros ss))).
  { unfold SW.init. destruct (initializeMatrix ss); try discriminate.
    cbn [bind] in *. rewrite Hm. reflexivity. }
  rewrite Hi. cbn [bind]. unfold SW.solve. cbn [SW.sequences].
  pose proof (lattice_size_pos ss). destruct (lattice_size ss) as [|n]; [lia|].
  cbn [SW.solve_loop SW.sequences SW.counter].
  rewrite (unstartable_unfinished ss Hne Hs). cbn [bind].
  rewrite (SW_unstartable_step ss cfg _ Hs Hi). reflexivity.
Qed.

(** C5 fails on the code when the empty sequence comes first: the
    traversal starts at [(1, 0, ...)] whatever the length of sequence 0,
    and [solve] raises [IndexError] on looking up its first symbol.  With
    the same sequences in the other order both engines succeed, and the
    empty sequence has a gap in every column. *)
Lemma empty_first_sequence :
  (x <- NW.init [lit ""; lit "A"] default_config ;; NW.solve x)
  = Raise IndexError /\
  (x <- SW.init [lit ""; lit "A"] default_config ;; SW.solve x)
  = Raise IndexError /\
  (x <- NW.init [lit "A"; lit ""] default_config ;;
   x' <- NW.solve x ;; NW.alignment x')
  = Ok [lit "A"; lit "."].
Proof. repeat split; reflexivity. Qed.

(** ** Fewer than two sequences *)

(** C6, as the code has it: the check is made by [main], which on fewer
    than two sequences prints its message and returns before any engine is
    constructed; [solve] makes no such check, and on one sequence the
    constructor and [solve] return normally. *)
Theorem main_requires_two_sequences (ss : list str) :
  (length ss < 2)%nat ->
  NW.main ss = Ok usage_message /\
  SW.main ss = Ok usage_message /\
  (forall s cfg, ss = [s] ->
     (exists st0 st, NW.init ss cfg = Ok st0 /\ NW.solve st0 = Ok st) /\
     (exists st0 st, SW.init ss cfg = Ok st0 /\ SW.solve st0 = Ok st)).
Proof.
  intros H.
  assert (E : (len ss <=? 1) = true) by (apply Z.leb_le; unfold len; lia).
  unfold NW.main, SW.main. rewrite E. split; [reflexivity|]. split; [reflexivity|].
  intros s cfg ->. split.
  - destruct (NW_solve_total [s] cfg I) as (st0 & st & H1 & H2 & _). eauto.
  - destruct (SW_solve_total [s] cfg I) as (st0 & st & H1 & H2 & _). eauto.
Qed.

Lemma main_requires_two_sequences_witness :
  NW.main [lit "GATTACA"] = Ok usage_message /\
  SW.main [lit "GATTACA"] = Ok usage_message /\
  (forall s cfg, [lit "GATTACA"] = [s] ->
     (exists st0 st, NW.init [lit "GATTACA"] cfg = Ok st0 /\ NW.solve st0 = Ok st) /\
     (exists st0 st, SW.init [lit "GATTACA"] cfg = Ok st0 /\ SW.solve st0 = Ok st)).
Proof.
  apply (main_requires_two_sequences [lit "GATTACA"]). simpl. lia.
Defined.

(** C6 as stated fails: on the single sequence ["A"], [solve] returns
    with the matrix filled instead of failing. *)
Lemma solve_accepts_one_sequence :
  (x <- NW.init [lit "A"] default_config ;;
   x' <- NW.solve x ;; Ok (NW.matrix x'))
  = Ok (PList [PScore (mkScore (Some [0]) 0); PScore (mkScore (Some [0]) 0)]).
Proof. reflexivity. Qed.

(** ** Walking back along the stored predecessors *)

Lemma candidates_of_in (cfg : Config) (m : pyval) (c : list Z) (moves : list str)
  (cands : list (list Z * Z)) (p : list Z) (s : Z) :
  candidates_of cfg m c moves = Ok cands -> In (p, s) cands ->
  exists move, In move moves /\ candidate cfg m c move = Ok (p, s).
Proof.
  revert cands; induction moves as [|move moves IH]; intros cands H Hin;
    simpl in H.
  - injection H as <-. contradiction.
  - destruct (candidate cfg m c move) as [cand| |] eqn:E; try discriminate.
    cbn [bind] in H.
    destruct (candidates_of cfg m c moves) as [cs| |]; try discriminate.
    cbn [bind] in H. injection H as <-. destruct Hin as [->|Hin].
    + exists move. split; [left; reflexivity|exact E].
    + destruct (IH cs eq_refl Hin) as (mv & H1 & H2).
      exists mv. split; [right; exact H1|exact H2].
Qed.

Lemma candidates_in (ss : list str) (cfg : Config) (m : pyval) (c : list Z)
  (cands : list (list Z * Z)) (p : list Z) (s : Z) :
  in_lattice ss c -> candidates ss cfg m c = Ok cands -> In (p, s) cands ->
  exists bp move vp,
    bases ss c bp /\ masks bp move /\ move <> repeat gapc (length bp) /\
    p = generatecoordinates move c /\
    retrievematrixelement m p = Ok (PScore vp) /\
    s = score vp + movescore cfg move.
Proof.
  intros Hc H Hin. unfold candidates in H.
  destruct (generatebasepairs_spec ss c Hc) as (bp & Hbp & Hb).
  rewrite Hbp in H. cbn [bind] in H.
  destruct (generatemoves bp) as [moves| |] eqn:Hmv; try discriminate.
  cbn [bind] in H.
  destruct (candidates_of_in cfg m c moves cands p s H Hin) as (move & Hm & Hcand).
  assert (Hne : bp <> []) by (intros ->; discriminate Hmv).
  destruct (generatemoves_spec bp Hne) as (moves' & Hmv' & Hiff & _).
  rewrite Hmv in Hmv'. injection Hmv' as <-.
  apply Hiff in Hm. destruct Hm as [Hmask Hd].
  unfold candidate in Hcand.
  destruct (retrievematrixelement m (generatecoordinates move c)) as [cell| |] eqn:Hr;
    try discriminate. cbn [bind] in Hcand.
  destruct cell as [|vp|]; try discriminate. cbn [score_of bind] in Hcand.
  injection Hcand as <- <-.
  exists bp, move, vp. auto 7.
Qed.

Lemma first_max_in (cands : list (list Z * Z)) (p : list Z) (s : Z) :
  first_max cands p s -> In (p, s) cands.
Proof.
  intros (before & after & -> & _). apply in_or_app. right. left. reflexivity.
Qed.

Lemma coord_sum_nonneg (ss : list str) (c : list Z) :
  in_lattice ss c -> 0 <= Py.sum c.
Proof. induction 1; simpl; lia. Qed.

Lemma coord_sum_bound (ss : list str) (c : list Z) :
  in_lattice ss c -> Py.sum c <= Z.of_nat (total_length ss).
Proof.
  induction 1 as [|s x ss c Hx _ IH]; simpl; [lia|].
  unfold len in Hx. lia.
Qed.

Lemma coord_sum_zero (ss : list str) (c : list Z) :
  in_lattice ss c -> Py.sum c = 0 -> c = zeros ss.
Proof.
  unfold zeros. induction 1 as [|s x ss c Hx Hc IH]; simpl; [reflexivity|].
  intros E. pose proof (coord_sum_nonneg ss c Hc).
  assert (x = 0) by lia. subst x. f_equal. apply IH. lia.
Qed.

Lemma predecessor_sum_le (move : str) :
  forall c, length move = length c ->
            Py.sum (generatecoordinates move c) <= Py.sum c.
Proof.
  induction move as [|u move IH]; intros [|v c] H; simpl in H;
    try (discriminate H); cbn [generatecoordinates Py.sum]; [lia|].
  specialize (IH c ltac:(lia)). destruct (Ascii.eqb u gapc); lia.
Qed.

Lemma predecessor_sum (ss : list str) (c : list Z) (bp move : str) :
  bases ss c bp -> masks bp move -> move <> repeat gapc (length bp) ->
  Py.sum (generatecoordinates move c) < Py.sum c.
Proof.
  intros Hb; revert move;
    induction Hb as [ss|s ss c bp Hb IH|s ss u c ch bp Hu Hch Hb IH];
    intros move Hm Hd; inversion Hm as [|? mi ? mv Hmi Hmv]; subst.
  - exfalso. apply Hd. reflexivity.
  - assert (mi = gapc) by (destruct Hmi; assumption). subst mi.
    cbn [generatecoordinates]. rewrite Ascii.eqb_refl. cbn [Py.sum].
    assert (Py.sum (generatecoordinates mv c) < Py.sum c); [|lia].
    apply IH; [assumption|]. intros E. apply Hd. cbn [length repeat]. congruence.
  - cbn [generatecoordinates]. destruct (Ascii.eqb mi gapc) eqn:E; cbn [Py.sum].
    + apply Ascii.eqb_eq in E. subst mi.
      assert (Py.sum (generatecoordinates mv c) < Py.sum c); [|lia].
      apply IH; [assumption|]. intros E. apply Hd. cbn [length repeat]. congruence.
    + assert (Py.sum (generatecoordinates mv c) <= Py.sum c); [|lia].
      apply predecessor_sum_le.
      rewrite (masks_length _ _ Hmv), (bases_length _ _ _ Hb). reflexivity.
Qed.

(** From a solved matrix whose slots all have a predecessor, every
    coordinate has a chain back to the origin, no longer than the sum of
    its entries. *)
Lemma has_backchain (ss : list str) (cfg : Config) (st : NW.t) :
  NW_inv ss cfg st -> unfinished ss (NW.counter st) = Ok false ->
  predecessors_set ss (NW.matrix st) ->
  forall n c, in_lattice ss c -> Py.sum c <= Z.of_nat n ->
    exists path, backchain ss cfg (NW.matrix st) c path /\
                 Z.of_nat (length path) <= Py.sum c.
Proof.
  intros (Hss & Hcfg & T & R) Hu Hp.
  destruct (unfinished_spec ss _ (tr_counter _ _ _ T)) as (b & Hb & _ & Hf).
  rewrite Hu in Hb. injection Hb as <-. specialize (Hf eq_refl).
  induction n as [|n IH]; intros c Hc Hn.
  - pose proof (coord_sum_nonneg ss c Hc).
    rewrite (coord_sum_zero ss c Hc) by lia.
    exists []. split; [constructor|]. rewrite <- (coord_sum_zero ss c Hc) by lia.
    simpl. lia.
  - destruct (list_eq_dec Z.eq_dec c (zeros ss)) as [->|Hd].
    + exists []. split; [constructor|]. simpl.
      apply (coord_sum_nonneg ss). apply zeros_in_lattice.
    + pose proof (rank_bounds ss c Hc) as Hrk.
      assert (Hpos : 0 < rank ss c).
      { assert (rank ss c <> 0) by (intros E; apply Hd; apply rank_zero_origin; auto).
        lia. }
      destruct (R c Hc ltac:(lia)) as (cands & Hcands & Hget).
      destruct (NW_cell_spec cands) as [[_ Heq]|(p & _ & Hco & Hfm)].
      { exfalso. rewrite Heq in Hget. exact (Hp c _ Hc Hd Hget eq_refl). }
      apply first_max_in in Hfm.
      destruct (candidates_in ss cfg _ c cands p _ Hc Hcands Hfm)
        as (bp & move & vp & Hbs & Hmk & Hne & -> & Hvp & Hsc).
      destruct (predecessor_spec ss c bp move Hbs Hc Hmk) as (Hpl & _ & _).
      pose proof (predecessor_sum ss c bp move Hbs Hmk Hne) as Hlt.
      destruct (IH (generatecoordinates move c) Hpl ltac:(lia)) as (path & Hbc & Hlen).
      exists (path ++ [generatecoordinates move c]). split.
      * eapply bc_step; eauto.
        rewrite Hget. f_equal. f_equal.
        destruct (NW_cell cands) as [co sc]. simpl in *. congruence.
      * rewrite length_app. simpl. lia.
Qed.

Lemma trace_backchain (ss : list str) (cfg : Config) (m : pyval) (c : list Z)
  (path : list (list Z)) :
  backchain ss cfg m c path ->
  forall fuel acc, (length path <= fuel)%nat ->
    NW.trace fuel m (zeros ss) (Some c) acc = Ok (map Some path ++ acc).
Proof.
  induction 1 as [|c bp move vp path Hd Hc Hbs Hmk Hne Hvp Hget Hbc IH];
    intros fuel acc Hf.
  - destruct fuel; simpl; rewrite (proj2 (coord_eqb_eq _ _) eq_refl); reflexivity.
  - rewrite length_app in Hf. simpl in Hf.
    destruct fuel as [|fuel]; [lia|]. cbn [NW.trace].
    rewrite (proj2 (coord_eqb_neq _ _) Hd). cbn [negb bind].
    rewrite Hget. cbn [bind coordinate_of coordinate].
    rewrite IH by lia. rewrite map_app, <- app_assoc. reflexivity.
Qed.

(** ** The lines of the report *)

Lemma getitem_nonneg {A : Type} (l : list A) (i : Z) (a : A) :
  0 <= i -> getitem l i = Ok a -> nth_error l (Z.to_nat i) = Some a.
Proof.
  intros Hi. unfold getitem, norm_index.
  destruct ((0 <=? i) && (i <? Z.of_nat (length l))) eqn:E.
  - destruct (nth_error l (Z.to_nat i)); [congruence|discriminate].
  - destruct ((- Z.of_nat (length l) <=? i) && (i <? 0)) eqn:E'; [|discriminate].
    apply andb_true_iff in E'. destruct E' as [_ E']. apply Z.ltb_lt in E'. lia.
Qed.

Lemma firstn_snoc_nth {A : Type} (l : list A) (k : nat) (a : A) :
  nth_error l k = Some a -> firstn (S k) l = firstn k l ++ [a].
Proof.
  revert k; induction l as [|h l IH]; intros [|k] H; simpl in *; try discriminate.
  - injection H as ->. reflexivity.
  - f_equal. apply IH. exact H.
Qed.

Lemma strip_snoc_dot (r : str) : strip (r ++ [dotc]) = strip r.
Proof. unfold strip. rewrite filter_app. simpl. apply app_nil_r. Qed.

Lemma strip_snoc_symbol (r : str) (ch : ascii) :
  ch <> dotc -> strip (r ++ [ch]) = strip r ++ [ch].
Proof.
  intros H. unfold strip. rewrite filter_app. simpl.
  apply Ascii.eqb_neq in H. rewrite H. reflexivity.
Qed.

Lemma aligned_start (ss : list str) :
  aligned ss (zeros ss) (repeat [] (length ss)).
Proof.
  unfold zeros. induction ss as [|s ss IH]; simpl; constructor; auto.
  unfold len. lia.
Qed.

Lemma aligned_length (ss : list str) (c : list Z) (rs : list str) :
  aligned ss c rs -> length rs = length ss.
Proof. induction 1; simpl; congruence. Qed.

Lemma aligned_whole (ss : list str) (rs : list str) :
  aligned ss (lengths ss) rs -> Forall2 (fun s line => strip line = s) ss rs.
Proof.
  unfold lengths. revert rs; induction ss as [|s ss IH]; intros rs H;
    inversion H; subst; constructor; auto.
  match goal with E : strip _ = _ |- _ => rewrite E end.
  unfold len. rewrite Nat2Z.id. apply firstn_all.
Qed.

Lemma extend_strings_aligned (seqs : list str) (p c : list Z)
  (ss' : list str) (c' : list Z) (bp' : str) :
  bases ss' c' bp' ->
  forall move' rs v,
    masks bp' move' -> in_lattice ss' c' -> dotfree ss' ->
    aligned ss' (generatecoordinates move' c') rs ->
    skipn v seqs = ss' ->
    skipn v p = generatecoordinates move' c' ->
    skipn v c = c' ->
    exists rs', extend_strings seqs v (Some p) (Some c) rs = Ok rs' /\
                aligned ss' c' rs'.
Proof.
  induction 1 as [ss|s ss c0 bp Hb IH|s ss u c0 ch bp Hu Hch Hb IH];
    intros move' rs v Hm Hl Hdot Ha Hs Hp Hc;
    inversion Hm as [|? mi ? mv Hmi Hmv]; subst move'.
  - simpl in Ha. inversion Ha; subst. exists []. split; [reflexivity|constructor].
  - subst. assert (mi = gapc) by (destruct Hmi; assumption). subst mi.
    cbn [generatecoordinates] in *. rewrite Ascii.eqb_refl in *.
    inversion Ha as [|? ? ? ? r rs0 Hx Hr Ha0]; subst.
    inversion Hl as [|? ? ? ? _ Hl0]; subst.
    inversion Hdot as [|? ? _ Hdot0]; subst.
    apply skipn_cons_nth in Hs. destruct Hs as [Hs1 Hs2].
    apply skipn_cons_nth in Hp. destruct Hp as [Hp1 Hp2].
    apply skipn_cons_nth in Hc. destruct Hc as [Hc1 Hc2].
    destruct (IH mv rs0 (S v) Hmv Hl0 Hdot0 Ha0 Hs2 Hp2 Hc2) as (rs' & Hrs' & Ha').
    cbn [extend_strings bind].
    rewrite (getitem_nat _ _ _ Hp1), (getitem_nat _ _ _ Hc1). cbn [bind].
    rewrite Z.eqb_refl. cbn [bind]. rewrite Hrs'. cbn [bind].
    eexists. split; [reflexivity|]. constructor; auto.
    rewrite strip_snoc_dot. exact Hr.
  - subst. cbn [generatecoordinates] in *.
    inversion Hl as [|? ? ? ? Hrange Hl0]; subst.
    inversion Hdot as [|? ? Hnodot Hdot0]; subst.
    inversion Ha as [|? ? ? ? r rs0 Hx Hr Ha0]; subst.
    apply skipn_cons_nth in Hs. destruct Hs as [Hs1 Hs2].
    apply skipn_cons_nth in Hp. destruct Hp as [Hp1 Hp2].
    apply skipn_cons_nth in Hc. destruct Hc as [Hc1 Hc2].
    destruct (IH mv rs0 (S v) Hmv Hl0 Hdot0 Ha0 Hs2 Hp2 Hc2) as (rs' & Hrs' & Ha').
    cbn [extend_strings bind].
    rewrite (getitem_nat _ _ _ Hp1), (getitem_nat _ _ _ Hc1). cbn [bind].
    destruct (Ascii.eqb mi gapc) eqn:E.
    + rewrite Z.eqb_refl. cbn [bind]. rewrite Hrs'. cbn [bind].
      eexists. split; [reflexivity|]. constructor; auto.
      rewrite strip_snoc_dot. exact Hr.
    + assert (E' : (u - 1 =? u) = false) by (apply Z.eqb_neq; lia).
      rewrite E'. rewrite (getitem_nat _ _ _ Hs1). cbn [bind].
      rewrite Hch. cbn [bind]. rewrite Hrs'. cbn [bind].
      eexists. split; [reflexivity|]. constructor; auto.
      rewrite strip_snoc_symbol
        by (intros ->; apply Hnodot; eapply getitem_In; eauto).
      rewrite Hr. replace (Z.to_nat u) with (S (Z.to_nat (u - 1))) by lia.
      symmetry. apply firstn_snoc_nth. apply getitem_nonneg; [lia|assumption].
Qed.

Lemma walk_snoc (ss : list str) (o d : option (list Z)) :
  forall l rs last,
    walk ss (l ++ [o; d]) rs last =
    (w <- walk ss (l ++ [o]) rs last ;;
     rs2 <- extend_strings ss 0 o d (fst w) ;;
     Ok (rs2, Some o)).
Proof.
  induction l as [|x l IH]; intros rs last.
  - simpl. destruct (extend_strings ss 0 o d rs); reflexivity.
  - destruct l as [|y l].
    + simpl. destruct (extend_strings ss 0 x o rs) as [r1| |]; cbn [bind];
        try reflexivity;
        try (destruct (extend_strings ss 0 o d r1); reflexivity).
    + change (walk ss ((x :: y :: l) ++ [o; d]) rs last)
        with (r1 <- extend_strings ss 0 x y rs ;;
              walk ss ((y :: l) ++ [o; d]) r1 (Some x)).
      change (walk ss ((x :: y :: l) ++ [o]) rs last)
        with (r1 <- extend_strings ss 0 x y rs ;;
              walk ss ((y :: l) ++ [o]) r1 (Some x)).
      destruct (extend_strings ss 0 x y rs) as [r1| |]; cbn [bind];
        try reflexivity.
      apply IH.
Qed.

Lemma walk_backchain (ss : list str) (cfg : Config) (m : pyval) (c : list Z)
  (path : list (list Z)) :
  backchain ss cfg m c path -> dotfree ss ->
  exists rs w,
    walk ss (map Some (path ++ [c])) (repeat [] (length ss)) None = Ok (rs, w) /\
    aligned ss c rs.
Proof.
  intros Hbc Hdot.
  induction Hbc as [|c bp move vp path Hd Hc Hbs Hmk Hne Hvp Hget Hbc IH].
  - exists (repeat [] (length ss)), None. split; [reflexivity|apply aligned_start].
  - destruct IH as (rs1 & w1 & Hw & Ha).
    destruct (extend_strings_aligned ss (generatecoordinates move c) c ss c bp Hbs
                move rs1 0%nat Hmk Hc Hdot Ha eq_refl eq_refl eq_refl)
      as (rs2 & Hrs2 & Ha2).
    exists rs2, (Some (Some (generatecoordinates move c))). split; [|exact Ha2].
    rewrite <- app_assoc. cbn [app]. rewrite map_app. cbn [map].
    rewrite walk_snoc. rewrite map_app in Hw. cbn [map] in Hw.
    rewrite Hw. cbn [bind fst]. rewrite Hrs2. reflexivity.
Qed.

(** The lines of a solved global engine whose slots all have a
    predecessor spell the sequences once the gap markers are dropped. *)
Lemma alignment_of_solved (ss : list str) (cfg : Config) (st : NW.t) :
  NW_inv ss cfg st -> unfinished ss (NW.counter st) = Ok false ->
  predecessors_set ss (NW.matrix st) -> dotfree ss ->
  exists lines,
    NW.alignment st = Ok lines /\
    Forall2 (fun s line => strip line = s) ss lines.
Proof.
  intros Hinv Hu Hp Hdot. pose proof Hinv as (Hss & _).
  destruct (has_backchain ss cfg st Hinv Hu Hp (total_length ss) (lengths ss)
              (lengths_in_lattice ss) (coord_sum_bound ss _ (lengths_in_lattice ss)))
    as (path & Hbc & Hlen).
  pose proof (coord_sum_bound ss _ (lengths_in_lattice ss)) as Hb.
  destruct (walk_backchain ss cfg _ _ path Hbc Hdot) as (rs & w & Hw & Ha).
  exists rs. split; [|apply aligned_whole; exact Ha].
  unfold NW.alignment, NW.path. rewrite Hss.
  rewrite (trace_backchain ss cfg _ _ path Hbc) by lia.
  cbn [bind]. rewrite app_nil_r.
  change [Some (lengths ss)] with (map Some [lengths ss]). rewrite <- map_app.
  rewrite Hw. reflexivity.
Qed.

(** ** The iteration budget of the report *)

Lemma getitem_fuel {A : Type} (l : list A) (i : Z) : getitem l i <> OutOfFuel.
Proof.
  unfold getitem. destruct (norm_index (length l) i) as [k|]; [|discriminate].
  destruct (nth_error l k); discriminate.
Qed.

Lemma extend_strings_fuel (ss : list str) (o d : option (list Z)) :
  forall rs v, extend_strings ss v o d rs <> OutOfFuel.
Proof.
  induction rs as [|r rs IH]; intros v; cbn [extend_strings]; [discriminate|].
  destruct o as [o|]; cbn [bind]; [|discriminate].
  pose proof (getitem_fuel o (Z.of_nat v)) as H1.
  destruct (getitem o (Z.of_nat v)) as [ov| |]; cbn [bind];
    [|discriminate|contradiction].
  destruct d as [d|]; cbn [bind]; [|discriminate].
  pose proof (getitem_fuel d (Z.of_nat v)) as H2.
  destruct (getitem d (Z.of_nat v)) as [dv| |]; cbn [bind];
    [|discriminate|contradiction].
  assert (H3 : (if ov =? dv then Ok (r ++ [dotc])
                else s <- getitem ss (Z.of_nat v) ;;
                     ch <- getitem s (dv - 1) ;; Ok (r ++ [ch]))
               <> OutOfFuel).
  { destruct (ov =? dv); [discriminate|].
    pose proof (getitem_fuel ss (Z.of_nat v)) as H3.
    destruct (getitem ss (Z.of_nat v)) as [s| |]; cbn [bind];
      [|discriminate|contradiction].
    pose proof (getitem_fuel s (dv - 1)) as H4.
    destruct (getitem s (dv - 1)) as [ch| |]; cbn [bind];
      [discriminate|discriminate|contradiction]. }
  destruct (if ov =? dv then _ else _) as [r'| |]; cbn [bind];
    [|discriminate|contradiction].
  specialize (IH (S v)).
  destruct (extend_strings ss (S v) (Some o) (Some d) rs) as [rs'| |];
    cbn [bind]; [discriminate|discriminate|contradiction].
Qed.

Lemma walk_fuel (ss : list str) :
  forall steps rs last, walk ss steps rs last <> OutOfFuel.
Proof.
  induction steps as [|o steps IH]; intros rs last; [discriminate|].
  destruct steps as [|d rest]; [discriminate|].
  cbn [walk]. pose proof (extend_strings_fuel ss o d rs 0%nat) as H.
  destruct (extend_strings ss 0 o d rs) as [rs'| |]; cbn [bind];
    [apply IH|discriminate|contradiction].
Qed.

(** From a coordinate of a solved matrix the loop of [NW.__str__] ends
    within the budget that [NW.path] gives it: it reaches the origin, or
    it fails on a coordinate that is [None]. *)
Lemma NW_trace_fuel (ss : list str) (cfg : Config) (st : NW.t) :
  NW_inv ss cfg st -> unfinished ss (NW.counter st) = Ok false ->
  forall n c acc, in_lattice ss c -> Py.sum c <= Z.of_nat n ->
    NW.trace (S n) (NW.matrix st) (zeros ss) (Some c) acc <> OutOfFuel.
Proof.
  intros (Hss & Hcfg & T & R) Hu.
  destruct (unfinished_spec ss _ (tr_counter _ _ _ T)) as (b & Hb & _ & Hf).
  rewrite Hu in Hb. injection Hb as <-. specialize (Hf eq_refl).
  induction n as [|n IH]; intros c acc Hc Hn.
  - pose proof (coord_sum_nonneg ss c Hc).
    rewrite (coord_sum_zero ss c Hc) by lia.
    cbn [NW.trace]. rewrite (proj2 (coord_eqb_eq _ _) eq_refl). discriminate.
  - destruct (list_eq_dec Z.eq_dec c (zeros ss)) as [->|Hd].
    + cbn [NW.trace]. rewrite (proj2 (coord_eqb_eq _ _) eq_refl). discriminate.
    + pose proof (rank_bounds ss c Hc) as Hrk.
      assert (Hpos : 0 < rank ss c).
      { assert (rank ss c <> 0)
          by (intros E; apply Hd; apply rank_zero_origin; auto).
        lia. }
      destruct (R c Hc ltac:(lia)) as (cands & Hcands & Hget).
      change (NW.trace (S (S n)) (NW.matrix st) (zeros ss) (Some c) acc)
        with (if negb (coord_eqb c (zeros ss))
              then (c0 <- Ok c ;;
                    cell <- retrievematrixelement (NW.matrix st) c0 ;;
                    p <- coordinate_of cell ;;
                    NW.trace (S n) (NW.matrix st) (zeros ss) p (p :: acc))
              else Ok acc).
      rewrite (proj2 (coord_eqb_neq _ _) Hd). cbn [negb bind].
      rewrite Hget. cbn [bind coordinate_of].
      destruct (NW_cell_spec cands) as [[_ Heq]|(p & _ & Hco & Hfm)].
      * rewrite Heq. cbn [coordinate NW.trace bind]. discriminate.
      * rewrite Hco. apply first_max_in in Hfm.
        destruct (candidates_in ss cfg _ c cands p _ Hc Hcands Hfm)
          as (bp & move & vp & Hbs & Hmk & Hne & -> & _ & _).
        destruct (predecessor_spec ss c bp move Hbs Hc Hmk) as (Hpl & _ & _).
        pose proof (predecessor_sum ss c bp move Hbs Hmk Hne) as Hlt.
        apply IH; [exact Hpl|lia].
Qed.

(** The report of a solved global engine is a text or a Python
    exception: the loops of the model have budget enough. *)
Lemma NW_report_fuel (ss : list str) (cfg : Config) (st : NW.t) :
  NW_inv ss cfg st -> unfinished ss (NW.counter st) = Ok false ->
  NW.to_str st <> OutOfFuel.
Proof.
  intros Hinv Hu. pose proof Hinv as (Hss & _ & T & _).
  destruct (traversal_finished ss _ _ T Hu _ (lengths_in_lattice ss)) as (v & Hv).
  pose proof (NW_trace_fuel ss cfg st Hinv Hu (total_length ss) (lengths ss) []
                (lengths_in_lattice ss)
                (coord_sum_bound ss _ (lengths_in_lattice ss))) as Htr.
  unfold NW.to_str, NW.alignment, NW.path. rewrite Hss, Hv.
  cbn [bind score_of].
  destruct (NW.trace (S (total_length ss)) (NW.matrix st) (zeros ss)
              (Some (lengths ss)) []) as [r| |]; cbn [bind];
    [|discriminate|contradiction].
  pose proof (walk_fuel ss (r ++ [Some (lengths ss)])
                (repeat [] (length ss)) None) as Hw.
  destruct (walk ss (r ++ [Some (lengths ss)]) (repeat [] (length ss)) None)
    as [w| |]; cbn [bind]; [discriminate|discriminate|contradiction].
Qed.

(** ** Scores stay above the initial [maxscore] *)

Lemma sum_app (l1 l2 : list Z) : Py.sum (l1 ++ l2) = Py.sum l1 + Py.sum l2.
Proof. induction l1 as [|x l1 IH]; simpl; [reflexivity|]. rewrite IH. ring. Qed.

Section SoloScore.

Variable cfg : Config.

Lemma gap_against (x : str) :
  Py.sum (map (scorePair cfg) (map (fun a => (gapc, a)) x))
  = Z.of_nat (length x - nongaps x) * twogaps cfg
    + Z.of_nat (nongaps x) * gap cfg.
Proof.
  assert (Hle : forall y, (nongaps y <= length y)%nat).
  { intros y. unfold nongaps. apply filter_length_le. }
  induction x as [|a x IH]; [reflexivity|].
  cbn [map Py.sum]. rewrite IH. unfold nongaps. cbn [filter length].
  fold (nongaps x). specialize (Hle x).
  unfold scorePair. rewrite Ascii.eqb_refl. cbn [orb].
  rewrite Ascii.eqb_sym.
  destruct (Ascii.eqb a gapc) eqn:E; cbn [negb andb length]; fold (nongaps x).
  - replace (S (length x) - nongaps x)%nat with (S (length x - nongaps x)) by lia.
    rewrite Nat2Z.inj_succ. ring.
  - replace (S (length x) - S (nongaps x))%nat with (length x - nongaps x)%nat by lia.
    rewrite Nat2Z.inj_succ. ring.
Qed.

Lemma symbol_against_gaps (ch : ascii) (k : nat) :
  ch <> gapc ->
  Py.sum (map (scorePair cfg) (map (fun a => (ch, a)) (repeat gapc k)))
  = Z.of_nat k * gap cfg.
Proof.
  intros H. apply Ascii.eqb_neq in H.
  induction k as [|k IH]; [reflexivity|].
  cbn [repeat map Py.sum]. rewrite IH. unfold scorePair.
  rewrite H, Ascii.eqb_refl. cbn [andb orb]. rewrite Nat2Z.inj_succ. ring.
Qed.

Lemma nongaps_repeat (k : nat) : nongaps (repeat gapc k) = 0%nat.
Proof. induction k as [|k IH]; [reflexivity|]. exact IH. Qed.

Lemma movescore_gaps (k : nat) :
  movescore cfg (repeat gapc k) = pairs_among k * twogaps cfg.
Proof.
  unfold movescore. induction k as [|k IH]; [reflexivity|].
  cbn [repeat getallpairs]. rewrite map_app, sum_app, IH, gap_against.
  rewrite nongaps_repeat, repeat_length, Nat.sub_0_r. cbn [pairs_among]. ring.
Qed.

Lemma nongaps_solo (bp : str) :
  (0 < nongaps bp)%nat -> nongaps (solo bp) = 1%nat /\ length (solo bp) = length bp.
Proof.
  unfold nongaps. induction bp as [|ch bp IH]; cbn [filter length solo]; [lia|].
  destruct (Ascii.eqb ch gapc) eqn:E; cbn [negb length filter]; intros H.
  - change (Ascii.eqb gapc gapc) with true. cbn [negb].
    destruct (IH H) as [-> ->]. auto.
  - rewrite E. cbn [negb length]. fold (nongaps (repeat gapc (length bp))).
    rewrite nongaps_repeat, repeat_length. auto.
Qed.

Lemma movescore_solo (bp : str) :
  (0 < nongaps bp)%nat -> movescore cfg (solo bp) = solo_score cfg (length bp).
Proof.
  unfold solo_score. induction bp as [|ch bp IH]; [unfold nongaps; simpl; lia|].
  intros H. cbn [solo].
  destruct (Ascii.eqb ch gapc) eqn:E.
  - assert (H' : (0 < nongaps bp)%nat)
      by (unfold nongaps in *; cbn [filter] in H; rewrite E in H; exact H).
    destruct (nongaps_solo bp H') as [Hn Hl].
    unfold movescore in *. cbn [getallpairs]. rewrite map_app, sum_app, IH by exact H'.
    rewrite gap_against, Hn, Hl. cbn [length].
    assert (0 < length bp)%nat
      by (pose proof (filter_length_le (fun ch => negb (Ascii.eqb ch gapc)) bp);
          unfold nongaps in H'; lia).
    destruct (length bp) as [|n]; [lia|].
    replace (S (S n) - 1)%nat with (S n) by lia.
    replace (S n - 1)%nat with n by lia.
    cbn [pairs_among]. rewrite !Nat2Z.inj_succ. ring.
  - apply Ascii.eqb_neq in E.
    unfold movescore. cbn [getallpairs]. rewrite map_app, sum_app.
    rewrite (symbol_against_gaps ch _ E).
    fold (movescore cfg (repeat gapc (length bp))). rewrite movescore_gaps.
    cbn [length]. replace (S (length bp) - 1)%nat with (length bp) by lia. ring.
Qed.

End SoloScore.

Lemma masks_solo (bp : str) : masks bp (solo bp).
Proof.
  induction bp as [|ch bp IH]; cbn [solo]; [constructor|].
  destruct (Ascii.eqb ch gapc) eqn:E.
  - apply Ascii.eqb_eq in E. subst ch. constructor; auto.
  - constructor; [auto|]. apply masks_allgap.
Qed.

Lemma solo_not_allgap (bp : str) :
  (0 < nongaps bp)%nat -> solo bp <> repeat gapc (length bp).
Proof.
  intros H E. destruct (nongaps_solo bp H) as [Hn _].
  rewrite E, nongaps_repeat in Hn. discriminate.
Qed.

Lemma solo_sum (bp : str) :
  forall c, length bp = length c -> (0 < nongaps bp)%nat ->
            Py.sum (generatecoordinates (solo bp) c) = Py.sum c - 1.
Proof.
  unfold nongaps.
  induction bp as [|ch bp IH]; intros [|v c] Hl H; cbn [filter length] in *;
    try discriminate; try lia.
  cbn [solo]. destruct (Ascii.eqb ch gapc) eqn:E; cbn [negb] in H.
  - cbn [generatecoordinates Py.sum]. rewrite Ascii.eqb_refl.
    rewrite IH by (try exact H; lia). ring.
  - cbn [generatecoordinates Py.sum]. rewrite E.
    assert (Hg : forall c0, generatecoordinates (repeat gapc (length c0)) c0 = c0).
    { induction c0 as [|w c0 IHc]; [reflexivity|].
      cbn [length repeat generatecoordinates]. rewrite Ascii.eqb_refl. congruence. }
    replace (length bp) with (length c) by lia. rewrite Hg. ring.
Qed.

Lemma bases_has_symbol (ss : list str) (c : list Z) (bp : str) :
  bases ss c bp -> in_lattice ss c -> gapfree ss -> c <> zeros ss ->
  (0 < nongaps bp)%nat.
Proof.
  intros Hb Hl Hg Hd. rewrite (bases_nongaps ss c bp Hb Hl Hg).
  unfold positives.
  assert (H : 0 < Py.sum c).
  { pose proof (coord_sum_nonneg ss c Hl).
    assert (Py.sum c <> 0) by (intros E; apply Hd; apply coord_sum_zero; auto).
    lia. }
  clear - H Hl. induction Hl as [|s x ss c Hx _ IH]; cbn [Py.sum filter] in *; [lia|].
  destruct (0 <? x) eqn:E; cbn [length]; [lia|].
  apply Z.ltb_ge in E. apply IH. lia.
Qed.

Lemma candidates_of_member (cfg : Config) (m : pyval) (c : list Z)
  (moves : list str) (cands : list (list Z * Z)) (move : str) :
  candidates_of cfg m c moves = Ok cands -> In move moves ->
  exists cand, In cand cands /\ candidate cfg m c move = Ok cand.
Proof.
  revert cands; induction moves as [|mv moves IH]; intros cands H Hin;
    [contradiction|]. simpl in H.
  destruct (candidate cfg m c mv) as [cand| |] eqn:E; try discriminate.
  cbn [bind] in H.
  destruct (candidates_of cfg m c moves) as [cs| |]; try discriminate.
  cbn [bind] in H. injection H as <-. destruct Hin as [->|Hin].
  - exists cand. split; [left; reflexivity|exact E].
  - destruct (IH cs eq_refl Hin) as (cand' & H1 & H2).
    exists cand'. split; [right; exact H1|exact H2].
Qed.

Lemma above_sentinel_bound (ss : list str) (cfg : Config) (c : list Z) :
  above_sentinel ss cfg -> in_lattice ss c ->
  NW.sentinel < Py.sum c * solo_score cfg (length ss).
Proof.
  unfold above_sentinel. intros H Hc.
  pose proof (coord_sum_nonneg ss c Hc). pose proof (coord_sum_bound ss c Hc).
  set (g := solo_score cfg (length ss)) in *.
  set (t := Z.of_nat (total_length ss)) in *.
  destruct (Z.le_gt_cases 0 g).
  - rewrite Z.min_l in H by assumption. unfold NW.sentinel in *. nia.
  - rewrite Z.min_r in H by lia. nia.
Qed.

Lemma sum_zeros (ss : list str) : Py.sum (zeros ss) = 0.
Proof. unfold zeros. induction (length ss); simpl; lia. Qed.

(** With sequences free of ['_'] and weights that keep the scores above
    the initial [maxscore], every visited slot has a predecessor. *)
Lemma scores_above_sentinel (ss : list str) (cfg : Config) (st : NW.t) :
  NW_inv ss cfg st -> gapfree ss -> above_sentinel ss cfg ->
  forall n c, in_lattice ss c -> Py.sum c <= Z.of_nat n ->
    rank ss c < rank ss (NW.counter st) ->
    exists v, retrievematrixelement (NW.matrix st) c = Ok (PScore v) /\
              Py.sum c * solo_score cfg (length ss) <= score v /\
              (c <> zeros ss -> coordinate v <> None).
Proof.
  intros (Hss & Hcfg & T & R) Hg Ha.
  induction n as [|n IH]; intros c Hc Hn Hrk.
  - pose proof (coord_sum_nonneg ss c Hc).
    assert (E : c = zeros ss) by (apply coord_sum_zero; [assumption|lia]).
    subst c. eexists. split; [exact (tr_origin _ _ _ T)|].
    split; [rewrite sum_zeros; simpl; lia|congruence].
  - destruct (list_eq_dec Z.eq_dec c (zeros ss)) as [->|Hd].
    + eexists. split; [exact (tr_origin _ _ _ T)|].
      split; [rewrite sum_zeros; simpl; lia|congruence].
    + pose proof (rank_bounds ss c Hc) as Hb.
      assert (Hpos : 0 < rank ss c).
      { assert (rank ss c <> 0) by (intros E; apply Hd; apply rank_zero_origin; auto).
        lia. }
      destruct (R c Hc ltac:(lia)) as (cands & Hcands & Hget).
      exists (NW_cell cands). split; [exact Hget|].
      (* the candidate of the solo move *)
      pose proof Hcands as Hcs. unfold candidates in Hcs.
      destruct (generatebasepairs_spec ss c Hc) as (bp & Hbp & Hbs).
      rewrite Hbp in Hcs. cbn [bind] in Hcs.
      destruct (generatemoves bp) as [moves| |] eqn:Hmv; try discriminate.
      cbn [bind] in Hcs.
      pose proof (bases_has_symbol ss c bp Hbs Hc Hg Hd) as Hsym.
      assert (Hne : bp <> []) by (intros ->; discriminate Hmv).
      destruct (generatemoves_spec bp Hne) as (moves' & Hmv' & Hiff & _).
      rewrite Hmv in Hmv'. injection Hmv' as <-.
      assert (Hin : In (solo bp) moves)
        by (apply Hiff; split; [apply masks_solo|apply solo_not_allgap; exact Hsym]).
      destruct (candidates_of_member cfg _ c moves cands (solo bp) Hcs Hin)
        as (cand & Hcin & Hcand).
      destruct (predecessor_before ss c bp (solo bp) Hbs Hc (masks_solo bp)
                  (solo_not_allgap bp Hsym)) as (Hpl & Hprk).
      pose proof (solo_sum bp c (bases_length _ _ _ Hbs) Hsym) as Hsum.
      destruct (IH (generatecoordinates (solo bp) c) Hpl ltac:(lia) ltac:(lia))
        as (vp & Hvp & Hlow & _).
      unfold candidate in Hcand. rewrite Hvp in Hcand. cbn [bind score_of] in Hcand.
      injection Hcand as <-.
      rewrite (movescore_solo cfg bp Hsym) in Hcin.
      rewrite (bases_length _ _ _ Hbs), (in_lattice_length _ _ Hc) in Hcin.
      pose proof (above_sentinel_bound ss cfg c Ha Hc) as Habove.
      set (g := solo_score cfg (length ss)) in *.
      assert (Hcs' : Py.sum c * g <= score vp + g) by (rewrite Hsum in Hlow; lia).
      destruct (NW_cell_spec cands) as [[Hall _]|(p & _ & Hco & Hfm)].
      * exfalso. rewrite Forall_forall in Hall. specialize (Hall _ Hcin).
        simpl in Hall. lia.
      * split; [|intros _; congruence].
        destruct Hfm as (before & after & E & Hbf & Haf). rewrite E in Hcin.
        apply in_app_or in Hcin. destruct Hcin as [Hi|[Hi|Hi]].
        -- rewrite Forall_forall in Hbf. specialize (Hbf _ Hi). simpl in Hbf. lia.
        -- injection Hi as _ Hi. lia.
        -- rewrite Forall_forall in Haf. specialize (Haf _ Hi). simpl in Haf. lia.
Qed.

Lemma solved_predecessors (ss : list str) (cfg : Config) (st : NW.t) :
  NW_inv ss cfg st -> unfinished ss (NW.counter st) = Ok false ->
  gapfree ss -> above_sentinel ss cfg ->
  predecessors_set ss (NW.matrix st).
Proof.
  intros Hinv Hu Hg Ha c v Hc Hd Hv.
  pose proof Hinv as (_ & _ & T & _).
  destruct (unfinished_spec ss _ (tr_counter _ _ _ T)) as (b & Hb & _ & Hf).
  rewrite Hu in Hb. injection Hb as <-. specialize (Hf eq_refl).
  pose proof (rank_bounds ss c Hc). pose proof (coord_sum_nonneg ss c Hc).
  destruct (scores_above_sentinel ss cfg st Hinv Hg Ha (Z.to_nat (Py.sum c)) c Hc
              ltac:(lia) ltac:(lia)) as (v' & Hv' & _ & Hco).
  rewrite Hv in Hv'. injection Hv' as <-. auto.
Qed.

(** With sequences free of ['_'] and weights that keep the scores above
    the initial [maxscore], the global recurrence holds as intended: a
    cell other than the origin holds the maximum of its candidate scores
    and the predecessor of the first candidate that reaches it. *)
Lemma global_recurrence_above_sentinel (ss : list str) (cfg : Config) (st : NW.t) :
  startable ss -> NW_reach ss cfg st -> gapfree ss -> above_sentinel ss cfg ->
  forall c v, in_lattice ss c -> c <> zeros ss ->
    retrievematrixelement (NW.matrix st) c = Ok (PScore v) ->
    exists cands p,
      candidates ss cfg (NW.matrix st) c = Ok cands /\
      coordinate v = Some p /\ first_max cands p (score v).
Proof.
  intros Hs Hr Hg Ha c v Hc Hd Hv.
  pose proof (NW_reach_inv ss cfg st Hs Hr) as Hinv.
  destruct (global_recurrence ss cfg st Hr c v Hc Hd Hv) as (cands & Hcands & -> & Hfm).
  assert (Hrk : 0 < rank ss c < rank ss (NW.counter st)).
  { apply (engine_visited ss cfg (NW.matrix st) (NW.counter st) c (NW_cell cands));
      auto. left. exists st. auto. }
  pose proof (coord_sum_nonneg ss c Hc).
  destruct (scores_above_sentinel ss cfg st Hinv Hg Ha (Z.to_nat (Py.sum c)) c Hc
              ltac:(lia) ltac:(lia)) as (v' & Hv' & _ & Hco).
  rewrite Hv in Hv'. injection Hv' as <-.
  destruct (NW_cell_spec cands) as [[_ Heq]|(p & _ & H1 & H2)].
  - rewrite Heq in Hco. contradiction (Hco Hd). reflexivity.
  - exists cands, p. auto.
Qed.

(** ** The reconstructed alignment *)

Lemma above_maxscore_cell (m : pyval) :
  forall c v, above_maxscore m = true ->
    retrievematrixelement m c = Ok (PScore v) -> NW.sentinel < score v.
Proof.
  intros c; revert m; induction c as [|u c IH]; intros m v Ha Hv.
  - cbn [retrievematrixelement] in Hv. injection Hv as ->.
    cbn [above_maxscore] in Ha. apply Z.ltb_lt. exact Ha.
  - destruct m as [| |l]; cbn [retrievematrixelement] in Hv; try discriminate Hv.
    destruct (getitem l u) as [next| |] eqn:Hg; cbn [bind] in Hv;
      try discriminate Hv.
    cbn [above_maxscore] in Ha. rewrite forallb_forall in Ha.
    exact (IH next v (Ha next (getitem_In l u next Hg)) Hv).
Qed.

Lemma above_maxscore_shaped (ss : list str) :
  forall m, shaped ss m ->
    (forall c v, in_lattice ss c ->
                 retrievematrixelement m c = Ok (PScore v) ->
                 NW.sentinel < score v) ->
    above_maxscore m = true.
Proof.
  induction ss as [|s ss IH]; intros m Hm H.
  - destruct m as [|v|l]; [reflexivity| |contradiction Hm].
    cbn [above_maxscore]. apply Z.ltb_lt.
    apply (H [] v); [constructor|reflexivity].
  - destruct m as [| |l]; simpl in Hm; try contradiction.
    destruct Hm as [Hlen Hall].
    cbn [above_maxscore]. apply forallb_forall. intros x Hx.
    rewrite Forall_forall in Hall.
    apply (IH x (Hall x Hx)). intros c v Hc Hv.
    destruct (In_nth_error l x Hx) as (k & Hk).
    assert (Hkl : (k < length l)%nat)
      by (apply nth_error_Some; rewrite Hk; discriminate).
    apply (H (Z.of_nat k :: c) v).
    + constructor; [unfold len; lia|exact Hc].
    + cbn [retrievematrixelement]. rewrite (getitem_nat l k x Hk).
      cbn [bind]. exact Hv.
Qed.

(** A solved matrix whose scores are all above the initial [maxscore] has
    a predecessor in every slot but the origin. *)
Lemma above_maxscore_predecessors (ss : list str) (cfg : Config) (st : NW.t) :
  NW_inv ss cfg st -> unfinished ss (NW.counter st) = Ok false ->
  above_maxscore (NW.matrix st) = true ->
  predecessors_set ss (NW.matrix st).
Proof.
  intros Hinv Hu Ha c v Hc Hd Hv. pose proof Hinv as (_ & _ & T & R).
  destruct (unfinished_spec ss _ (tr_counter _ _ _ T)) as (b & Hb & _ & Hf).
  rewrite Hu in Hb. injection Hb as <-. specialize (Hf eq_refl).
  pose proof (rank_bounds ss c Hc) as Hrk.
  assert (Hpos : 0 < rank ss c).
  { assert (rank ss c <> 0) by (intros E; apply Hd; apply rank_zero_origin; auto).
    lia. }
  destruct (R c Hc ltac:(lia)) as (cands & Hcands & Hget).
  rewrite Hv in Hget. injection Hget as ->.
  pose proof (above_maxscore_cell _ c _ Ha Hv) as Hab.
  destruct (NW_cell_spec cands) as [[_ Heq]|(p & _ & Hco & _)].
  - rewrite Heq in Hab. cbn [score] in Hab. lia.
  - rewrite Hco. discriminate.
Qed.

(** The bound on the weights is enough for the scores to stay above the
    initial [maxscore]. *)
Lemma bound_above_maxscore (ss : list str) (cfg : Config) (st : NW.t) :
  NW_inv ss cfg st -> unfinished ss (NW.counter st) = Ok false ->
  gapfree ss -> above_sentinel ss cfg ->
  above_maxscore (NW.matrix st) = true.
Proof.
  intros Hinv Hu Hg Ha. pose proof Hinv as (_ & _ & T & _).
  apply (above_maxscore_shaped ss); [exact (tr_shape _ _ _ T)|].
  intros c v Hc Hv.
  destruct (unfinished_spec ss _ (tr_counter _ _ _ T)) as (b & Hb & _ & Hf).
  rewrite Hu in Hb. injection Hb as <-. specialize (Hf eq_refl).
  pose proof (rank_bounds ss c Hc). pose proof (coord_sum_nonneg ss c Hc).
  destruct (scores_above_sentinel ss cfg st Hinv Hg Ha (Z.to_nat (Py.sum c)) c Hc
              ltac:(lia) ltac:(lia)) as (v' & Hv' & Hfloor & _).
  rewrite Hv in Hv'. injection Hv' as <-.
  pose proof (above_sentinel_bound ss cfg c Ha Hc). lia.
Qed.

(** C9, as the code has it: when the traversal can start and no sequence
    contains the characters ['.'] or ['_'], [solve] returns; if every score
    of the solved matrix is above the initial [maxscore], which the bound
    on the weights is enough for, then the report has one line per
    sequence, and dropping the gap markers ['.'] from the line of sequence
    [i] gives back sequence [i]. *)
Theorem stripped_alignment (ss : list str) (cfg : Config) :
  startable ss -> gapfree ss -> dotfree ss ->
  exists st0 st,
    NW.init ss cfg = Ok st0 /\ NW.solve st0 = Ok st /\
    (above_sentinel ss cfg -> above_maxscore (NW.matrix st) = true) /\
    (above_maxscore (NW.matrix st) = true ->
     exists lines,
       NW.alignment st = Ok lines /\
       Forall2 (fun s line => strip line = s) ss lines).
Proof.
  intros Hs Hg Hdot.
  destruct (NW_solve_total ss cfg Hs) as (st0 & st & Hi & Hsolve & Hr & Hu).
  pose proof (NW_reach_inv ss cfg st Hs Hr) as Hinv.
  exists st0, st. split; [exact Hi|]. split; [exact Hsolve|]. split.
  - exact (bound_above_maxscore ss cfg st Hinv Hu Hg).
  - intros Ha.
    exact (alignment_of_solved ss cfg st Hinv Hu
             (above_maxscore_predecessors ss cfg st Hinv Hu Ha) Hdot).
Qed.

Lemma stripped_alignment_witness :
  NW.init [lit "AA"; lit "CC"] steep_config = Ok example_steep /\
  NW.solve example_steep = Ok example_steep_solved /\
  ~ above_sentinel [lit "AA"; lit "CC"] steep_config /\
  above_maxscore (NW.matrix example_steep_solved) = true /\
  exists lines,
    NW.alignment example_steep_solved = Ok lines /\
    Forall2 (fun s line => strip line = s) [lit "AA"; lit "CC"] lines.
Proof.
  assert (E0 : NW.init [lit "AA"; lit "CC"] steep_config = Ok example_steep)
    by (vm_compute; reflexivity).
  assert (E1 : NW.solve example_steep = Ok example_steep_solved)
    by (vm_compute; reflexivity).
  destruct (stripped_alignment [lit "AA"; lit "CC"] steep_config)
    as (st0 & st & Hi & Hsolve & _ & Himp).
  - discriminate.
  - repeat constructor; simpl; intuition discriminate.
  - repeat constructor; simpl; intuition discriminate.
  - rewrite E0 in Hi. injection Hi as <-.
    rewrite E1 in Hsolve. injection Hsolve as <-.
    split; [exact E0|]. split; [exact E1|].
    split; [intros H; vm_compute in H; discriminate H|].
    split; [vm_compute; reflexivity|].
    apply Himp. vm_compute. reflexivity.
Defined.

(** C9 as stated fails when a sequence holds the character ['.'], which
    the report also uses as its gap marker: for ["A."] and ["A"] both
    lines read ["A."], and the first one stripped is ["A"]. *)
Lemma strip_loses_dot_symbol :
  (x <- NW.init [lit "A."; lit "A"] default_config ;;
   x' <- NW.solve x ;; NW.alignment x')
  = Ok [lit "A."; lit "A."] /\
  strip (lit "A.") <> lit "A.".
Proof. split; [reflexivity|discriminate]. Qed.

(** ** The classical recurrence *)

Section Reference.

Variable cfg : Config.

Lemma nw_prefix_nil_r (ra : str) : nw_prefix cfg ra [] = len ra * gap cfg.
Proof. destruct ra; reflexivity. Qed.

Lemma nw_prefix_cons (x y : ascii) (ra rb : str) :
  nw_prefix cfg (x :: ra) (y :: rb)
  = Z.max (nw_prefix cfg ra rb + substitution cfg x y)
          (Z.max (nw_prefix cfg ra (y :: rb) + gap cfg)
                 (nw_prefix cfg (x :: ra) rb + gap cfg)).
Proof. reflexivity. Qed.

Lemma nw_prefix_gap_left (x : ascii) (ra rb : str) :
  nw_prefix cfg ra rb + gap cfg <= nw_prefix cfg (x :: ra) rb.
Proof.
  destruct rb as [|y rb].
  - rewrite !nw_prefix_nil_r. unfold len. cbn [length].
    rewrite Nat2Z.inj_succ. lia.
  - rewrite nw_prefix_cons. lia.
Qed.

Lemma nw_prefix_gap_right (y : ascii) (ra rb : str) :
  nw_prefix cfg ra rb + gap cfg <= nw_prefix cfg ra (y :: rb).
Proof.
  destruct ra as [|x ra].
  - cbn [nw_prefix]. unfold len. cbn [length]. rewrite Nat2Z.inj_succ. lia.
  - rewrite nw_prefix_cons. lia.
Qed.

Lemma lines_score_snoc (l0 l1 : str) (x y : ascii) :
  length l0 = length l1 ->
  lines_score cfg (l0 ++ [x]) (l1 ++ [y])
  = lines_score cfg l0 l1 + column_score cfg x y.
Proof.
  revert l1; induction l0 as [|a l0 IH]; intros [|b l1] H; simpl in H;
    try discriminate; cbn [app lines_score]; [lia|].
  rewrite IH by lia. ring.
Qed.

(** No alignment of two sequences scores more than the recurrence. *)
Lemma reference_is_upper_bound (l0 l1 : str) :
  Forall2 (fun x y => x <> dotc \/ y <> dotc) l0 l1 ->
  lines_score cfg l0 l1 <= nw_prefix cfg (rev (strip l0)) (rev (strip l1)).
Proof.
  revert l1; induction l0 as [|x l0 IH] using rev_ind; intros l1 H.
  - inversion H; subst. simpl. lia.
  - apply Forall2_app_inv_l in H.
    destruct H as (l1' & t & H1 & H2 & ->).
    inversion H2 as [|? y ? ? Hxy Ht]; subst. inversion Ht; subst.
    rewrite lines_score_snoc by (exact (Forall2_length H1)).
    specialize (IH l1' H1). unfold column_score.
    destruct (Ascii.eqb x dotc) eqn:Ex; destruct (Ascii.eqb y dotc) eqn:Ey;
      cbn [orb].
    + apply Ascii.eqb_eq in Ex, Ey. tauto.
    + apply Ascii.eqb_eq in Ex. apply Ascii.eqb_neq in Ey. subst x.
      rewrite strip_snoc_dot, strip_snoc_symbol by assumption.
      rewrite rev_app_distr. cbn [rev app].
      pose proof (nw_prefix_gap_right y (rev (strip l0)) (rev (strip l1'))). lia.
    + apply Ascii.eqb_eq in Ey. apply Ascii.eqb_neq in Ex. subst y.
      rewrite strip_snoc_dot, strip_snoc_symbol by assumption.
      rewrite rev_app_distr. cbn [rev app].
      pose proof (nw_prefix_gap_left x (rev (strip l0)) (rev (strip l1'))). lia.
    + apply Ascii.eqb_neq in Ex, Ey.
      rewrite !strip_snoc_symbol by assumption.
      rewrite !rev_app_distr. cbn [rev app]. rewrite nw_prefix_cons. lia.
Qed.

End Reference.

(** ** Two sequences: the engine against the classical recurrence *)

Lemma generatemoves_left (x : ascii) :
  x <> gapc -> generatemoves [x; gapc] = Ok [[x; gapc]].
Proof.
  intros H. apply Ascii.eqb_neq in H. unfold generatemoves.
  rewrite H. simpl. rewrite H. reflexivity.
Qed.

Lemma generatemoves_right (y : ascii) :
  y <> gapc -> generatemoves [gapc; y] = Ok [[gapc; y]].
Proof.
  intros H. apply Ascii.eqb_neq in H. unfold generatemoves. simpl.
  unfold extend_moves. rewrite H. simpl. rewrite H. reflexivity.
Qed.

Lemma generatemoves_both (x y : ascii) :
  x <> gapc -> y <> gapc ->
  generatemoves [x; y] = Ok [[x; y]; [gapc; y]; [x; gapc]].
Proof.
  intros Hx Hy. apply Ascii.eqb_neq in Hx, Hy. unfold generatemoves.
  rewrite Hx. simpl. unfold extend_moves. rewrite Hy. simpl.
  rewrite Hx, Hy. reflexivity.
Qed.

Lemma movescore_pair (cfg : Config) (m0 m1 : ascii) :
  movescore cfg [m0; m1] = scorePair cfg (m0, m1).
Proof. unfold movescore. simpl. ring. Qed.

Lemma scorePair_gap_left (cfg : Config) (y : ascii) :
  y <> gapc -> scorePair cfg (gapc, y) = gap cfg.
Proof.
  intros H. apply Ascii.eqb_neq in H. unfold scorePair.
  rewrite H, Ascii.eqb_refl, andb_false_r. reflexivity.
Qed.

Lemma scorePair_gap_right (cfg : Config) (x : ascii) :
  x <> gapc -> scorePair cfg (x, gapc) = gap cfg.
Proof.
  intros H. apply Ascii.eqb_neq in H. unfold scorePair.
  rewrite H, Ascii.eqb_refl. reflexivity.
Qed.

Lemma scorePair_symbols (cfg : Config) (x y : ascii) :
  x <> gapc -> y <> gapc -> scorePair cfg (x, y) = substitution cfg x y.
Proof.
  intros Hx Hy. apply Ascii.eqb_neq in Hx, Hy. unfold scorePair, substitution.
  rewrite Hx, Hy, andb_false_r. reflexivity.
Qed.

Lemma candidate_of_filled (cfg : Config) (m : pyval) (c : list Z) (move : str)
  (v : Score) :
  retrievematrixelement m (generatecoordinates move c) = Ok (PScore v) ->
  candidate cfg m c move
  = Ok (generatecoordinates move c, score v + movescore cfg move).
Proof. intros H. unfold candidate. rewrite H. reflexivity. Qed.

Lemma first_max_bounds (cands : list (list Z * Z)) (p : list Z) (s : Z) :
  first_max cands p s ->
  In (p, s) cands /\ Forall (fun cand => snd cand <= s) cands.
Proof.
  intros H. split; [apply first_max_in; exact H|].
  destruct H as (before & after & -> & Hb & Ha).
  apply Forall_app. split.
  - eapply Forall_impl; [|exact Hb]. simpl. intros; lia.
  - constructor; [simpl; lia|exact Ha].
Qed.

Lemma rev_firstn_step (s : str) (u : Z) (ch : ascii) :
  0 < u -> getitem s (u - 1) = Ok ch ->
  rev (firstn (Z.to_nat u) s) = ch :: rev (firstn (Z.to_nat (u - 1)) s).
Proof.
  intros Hu H. apply getitem_nonneg in H; [|lia].
  replace (Z.to_nat u) with (S (Z.to_nat (u - 1))) by lia.
  rewrite (firstn_snoc_nth _ _ _ H), rev_app_distr. reflexivity.
Qed.

Lemma gapfree_symbol (s : str) (i : Z) (ch : ascii) :
  ~ In gapc s -> getitem s i = Ok ch -> ch <> gapc.
Proof. intros H Hg ->. apply H. eapply getitem_In; eauto. Qed.

Section TwoSequences.

Variables (a b : str) (cfg : Config) (st : NW.t).

Hypothesis Hinv : NW_inv [a; b] cfg st.
Hypothesis Hdone : unfinished [a; b] (NW.counter st) = Ok false.
Hypothesis Hgap : gapfree [a; b].
Hypothesis Hpred : predecessors_set [a; b] (NW.matrix st).

Lemma pair_visited (c : list Z) :
  in_lattice [a; b] c -> rank [a; b] c < rank [a; b] (NW.counter st).
Proof.
  intros Hc. destruct Hinv as (_ & _ & T & _).
  destruct (unfinished_spec _ _ (tr_counter _ _ _ T)) as (b0 & Hb & _ & Hf).
  rewrite Hdone in Hb. injection Hb as <-. specialize (Hf eq_refl).
  pose proof (rank_bounds _ c Hc). lia.
Qed.

Lemma pair_cell (c : list Z) :
  in_lattice [a; b] c -> c <> [0; 0] ->
  exists cands p,
    candidates [a; b] cfg (NW.matrix st) c = Ok cands /\
    retrievematrixelement (NW.matrix st) c = Ok (PScore (NW_cell cands)) /\
    first_max cands p (score (NW_cell cands)).
Proof.
  intros Hc Hd. destruct Hinv as (_ & _ & T & R).
  pose proof (pair_visited c Hc) as Hv. pose proof (rank_bounds _ c Hc) as Hb.
  assert (Hpos : 0 < rank [a; b] c).
  { assert (rank [a; b] c <> 0)
      by (intros E; apply Hd; exact (rank_zero_origin [a; b] c Hc E)).
    lia. }
  destruct (R c Hc ltac:(lia)) as (cands & Hcands & Hget).
  pose proof (Hpred c _ Hc Hd Hget) as Hco.
  destruct (NW_cell_spec cands) as [[_ Heq]|(p & _ & _ & Hfm)].
  - rewrite Heq in Hco. contradiction Hco. reflexivity.
  - exists cands, p. auto.
Qed.

(** Every slot of the solved matrix holds the value of the classical
    recurrence on the two prefixes. *)
Lemma engine_matches_reference (n : nat) :
  forall i j, in_lattice [a; b] [i; j] -> i + j <= Z.of_nat n ->
    exists v,
      retrievematrixelement (NW.matrix st) [i; j] = Ok (PScore v) /\
      score v = nw_prefix cfg (rev (firstn (Z.to_nat i) a))
                              (rev (firstn (Z.to_nat j) b)).
Proof.
  pose proof Hinv as (_ & _ & T & _).
  inversion Hgap as [|? ? Hga Hgap']; subst.
  inversion Hgap' as [|? ? Hgb _]; subst.
  assert (Horigin : exists v,
             retrievematrixelement (NW.matrix st) [0; 0] = Ok (PScore v) /\
             score v = nw_prefix cfg (rev (firstn (Z.to_nat 0) a))
                                     (rev (firstn (Z.to_nat 0) b))).
  { eexists. split; [exact (tr_origin _ _ _ T)|reflexivity]. }
  induction n as [|n IH]; intros i j Hc Hn;
    inversion Hc as [|? ? ? ? Hi Hc']; subst;
    inversion Hc' as [|? ? ? ? Hj Hc'']; subst; inversion Hc''; subst.
  - assert (i = 0) by lia. assert (j = 0) by lia. subst. exact Horigin.
  - destruct (list_eq_dec Z.eq_dec [i; j] [0; 0]) as [E|Hd].
    { injection E as -> ->. exact Horigin. }
    destruct (pair_cell [i; j] Hc Hd) as (cands & p & Hcands & Hget & Hfm).
    exists (NW_cell cands). split; [exact Hget|].
    apply first_max_bounds in Hfm. destruct Hfm as [Hin Hall].
    unfold candidates in Hcands.
    destruct (generatebasepairs_spec [a; b] [i; j] Hc) as (bp & Hbp & Hbs).
    rewrite Hbp in Hcands. cbn [bind] in Hcands.
    inversion Hbs as [|? ? ? ? Hb1|? ? ? ? x ? Hi0 Hx Hb1]; subst;
      inversion Hb1 as [|? ? ? ? Hb2|? ? ? ? y ? Hj0 Hy Hb2]; subst;
      inversion Hb2; subst.
    + contradiction Hd. reflexivity.
    + (* only the second sequence has a symbol to consume *)
      pose proof (gapfree_symbol _ _ _ Hgb Hy) as Hyg.
      rewrite (generatemoves_right y Hyg) in Hcands. cbn [bind candidates_of] in Hcands.
      destruct (IH 0 (j - 1)) as (v1 & Hv1 & Hs1);
        [constructor; [lia|constructor; [lia|constructor]]|lia|].
      assert (Eg : generatecoordinates [gapc; y] [0; j] = [0; j - 1]).
      { cbn [generatecoordinates]. rewrite Ascii.eqb_refl.
        apply Ascii.eqb_neq in Hyg. rewrite Hyg. reflexivity. }
      rewrite (candidate_of_filled cfg _ _ _ v1) in Hcands by (rewrite Eg; exact Hv1).
      cbn [bind] in Hcands. injection Hcands as <-.
      destruct Hin as [Hin|[]]. injection Hin as _ <-.
      rewrite movescore_pair, scorePair_gap_left, Hs1 by assumption.
      rewrite (rev_firstn_step b j y) by (assumption || lia).
      cbn [Z.to_nat firstn rev nw_prefix]. unfold len. cbn [length].
      rewrite Nat2Z.inj_succ. ring.
    + (* only the first sequence has a symbol to consume *)
      pose proof (gapfree_symbol _ _ _ Hga Hx) as Hxg.
      rewrite (generatemoves_left x Hxg) in Hcands. cbn [bind candidates_of] in Hcands.
      destruct (IH (i - 1) 0) as (v1 & Hv1 & Hs1);
        [constructor; [lia|constructor; [lia|constructor]]|lia|].
      assert (Eg : generatecoordinates [x; gapc] [i; 0] = [i - 1; 0]).
      { cbn [generatecoordinates]. rewrite Ascii.eqb_refl.
        apply Ascii.eqb_neq in Hxg. rewrite Hxg. reflexivity. }
      rewrite (candidate_of_filled cfg _ _ _ v1) in Hcands by (rewrite Eg; exact Hv1).
      cbn [bind] in Hcands. injection Hcands as <-.
      destruct Hin as [Hin|[]]. injection Hin as _ <-.
      rewrite movescore_pair, scorePair_gap_right, Hs1 by assumption.
      rewrite (rev_firstn_step a i x) by (assumption || lia).
      cbn [Z.to_nat firstn rev]. rewrite !nw_prefix_nil_r. unfold len. cbn [length].
      rewrite Nat2Z.inj_succ. ring.
    + (* both sequences have a symbol to consume *)
      pose proof (gapfree_symbol _ _ _ Hga Hx) as Hxg.
      pose proof (gapfree_symbol _ _ _ Hgb Hy) as Hyg.
      rewrite (generatemoves_both x y Hxg Hyg) in Hcands.
      cbn [bind candidates_of] in Hcands.
      destruct (IH (i - 1) (j - 1)) as (v11 & Hv11 & Hs11);
        [constructor; [lia|constructor; [lia|constructor]]|lia|].
      destruct (IH i (j - 1)) as (v10 & Hv10 & Hs10);
        [constructor; [lia|constructor; [lia|constructor]]|lia|].
      destruct (IH (i - 1) j) as (v01 & Hv01 & Hs01);
        [constructor; [lia|constructor; [lia|constructor]]|lia|].
      pose proof Hxg as Ex. pose proof Hyg as Ey.
      apply Ascii.eqb_neq in Ex, Ey.
      assert (E1 : generatecoordinates [x; y] [i; j] = [i - 1; j - 1])
        by (cbn [generatecoordinates]; rewrite Ex, Ey; reflexivity).
      assert (E2 : generatecoordinates [gapc; y] [i; j] = [i; j - 1])
        by (cbn [generatecoordinates]; rewrite Ascii.eqb_refl, Ey; reflexivity).
      assert (E3 : generatecoordinates [x; gapc] [i; j] = [i - 1; j])
        by (cbn [generatecoordinates]; rewrite Ascii.eqb_refl, Ex; reflexivity).
      rewrite (candidate_of_filled cfg _ _ _ v11) in Hcands by (rewrite E1; exact Hv11).
      rewrite (candidate_of_filled cfg _ _ _ v10) in Hcands by (rewrite E2; exact Hv10).
      rewrite (candidate_of_filled cfg _ _ _ v01) in Hcands by (rewrite E3; exact Hv01).
      cbn [bind] in Hcands. injection Hcands as <-.
      rewrite !movescore_pair in *.
      rewrite scorePair_symbols, scorePair_gap_left, scorePair_gap_right in *
        by assumption.
      rewrite (rev_firstn_step a i x), (rev_firstn_step b j y)
        by (assumption || lia).
      rewrite nw_prefix_cons.
      rewrite <- (rev_firstn_step a i x), <- (rev_firstn_step b j y)
        by (assumption || lia).
      rewrite <- Hs11, <- Hs10, <- Hs01.
      inversion Hall as [|? ? H1 Hall1]; subst.
      inversion Hall1 as [|? ? H2 Hall2]; subst.
      inversion Hall2 as [|? ? H3 _]; subst. simpl in H1, H2, H3.
      destruct Hin as [Hin|[Hin|[Hin|[]]]]; injection Hin as _ Hin; lia.
Qed.

End TwoSequences.

(** ** Two sequences: the alignment read off the report *)

Lemma extend_strings_emit (seqs : list str) (p c : list Z)
  (ss' : list str) (c' : list Z) (bp' : str) :
  bases ss' c' bp' ->
  forall move' rs v,
    masks bp' move' -> in_lattice ss' c' -> length rs = length ss' ->
    skipn v seqs = ss' ->
    skipn v p = generatecoordinates move' c' ->
    skipn v c = c' ->
    extend_strings seqs v (Some p) (Some c) rs
    = Ok (snoc_all rs (map emit move')).
Proof.
  induction 1 as [ss|s ss c0 bp Hb IH|s ss u c0 ch bp Hu Hch Hb IH];
    intros move' rs v Hm Hl Hlen Hs Hp Hc;
    inversion Hm as [|? mi ? mv Hmi Hmv]; subst move'.
  - inversion Hl as [E|]; subst. rewrite <- E in Hlen.
    destruct rs; [reflexivity|simpl in Hlen; discriminate Hlen].
  - subst. assert (mi = gapc) by (destruct Hmi; assumption). subst mi.
    cbn [generatecoordinates] in *. rewrite Ascii.eqb_refl in *.
    inversion Hl as [|? ? ? ? _ Hl0]; subst.
    destruct rs as [|r rs]; simpl in Hlen; [discriminate Hlen|].
    apply skipn_cons_nth in Hs. destruct Hs as [Hs1 Hs2].
    apply skipn_cons_nth in Hp. destruct Hp as [Hp1 Hp2].
    apply skipn_cons_nth in Hc. destruct Hc as [Hc1 Hc2].
    cbn [extend_strings bind].
    rewrite (getitem_nat _ _ _ Hp1), (getitem_nat _ _ _ Hc1). cbn [bind].
    rewrite Z.eqb_refl. cbn [bind].
    rewrite (IH mv rs (S v) Hmv Hl0 ltac:(lia) Hs2 Hp2 Hc2). reflexivity.
  - subst. cbn [generatecoordinates] in *.
    inversion Hl as [|? ? ? ? Hrange Hl0]; subst.
    destruct rs as [|r rs]; simpl in Hlen; [discriminate Hlen|].
    apply skipn_cons_nth in Hs. destruct Hs as [Hs1 Hs2].
    apply skipn_cons_nth in Hp. destruct Hp as [Hp1 Hp2].
    apply skipn_cons_nth in Hc. destruct Hc as [Hc1 Hc2].
    cbn [extend_strings bind].
    rewrite (getitem_nat _ _ _ Hp1), (getitem_nat _ _ _ Hc1). cbn [bind].
    rewrite (IH mv rs (S v) Hmv Hl0 ltac:(lia) Hs2 Hp2 Hc2).
    cbn [map snoc_all].
    destruct (Ascii.eqb mi gapc) eqn:E.
    + assert (Ee : emit mi = dotc) by (unfold emit; rewrite E; reflexivity).
      rewrite Z.eqb_refl, Ee. reflexivity.
    + assert (Ee : emit mi = mi) by (unfold emit; rewrite E; reflexivity).
      assert (E' : (u - 1 =? u) = false) by (apply Z.eqb_neq; lia).
      rewrite E', Ee. rewrite (getitem_nat _ _ _ Hs1). cbn [bind].
      rewrite Hch. cbn [bind].
      destruct Hmi as [->| ->]; [reflexivity|].
      rewrite Ascii.eqb_refl in E. discriminate.
Qed.

Lemma moves_without_dot (ss : list str) (c : list Z) (bp move : str) :
  bases ss c bp -> masks bp move -> dotfree ss ->
  Forall (fun mv => mv <> dotc) move.
Proof.
  intros Hb; revert move; induction Hb as [ss|s ss c bp Hb IH|s ss u c ch bp Hu Hch Hb IH];
    intros move Hm Hd; inversion Hm as [|? mi ? mv Hmi Hmv]; subst;
    [constructor| |]; inversion Hd as [|? ? Hs Hd']; subst; constructor; auto.
  - destruct Hmi as [->| ->]; discriminate.
  - destruct Hmi as [->| ->]; [|discriminate].
    intros ->. apply Hs. eapply getitem_In; eauto.
Qed.

Lemma column_of_move (cfg : Config) (m0 m1 : ascii) :
  m0 <> dotc -> m1 <> dotc -> [m0; m1] <> [gapc; gapc] ->
  column_score cfg (emit m0) (emit m1) = scorePair cfg (m0, m1) /\
  (emit m0 <> dotc \/ emit m1 <> dotc).
Proof.
  intros H0 H1 Hne. unfold column_score, emit.
  destruct (Ascii.eqb m0 gapc) eqn:E0; destruct (Ascii.eqb m1 gapc) eqn:E1.
  - apply Ascii.eqb_eq in E0, E1. subst. contradiction Hne. reflexivity.
  - apply Ascii.eqb_eq in E0. apply Ascii.eqb_neq in E1. subst m0.
    rewrite scorePair_gap_left by assumption. rewrite Ascii.eqb_refl. auto.
  - apply Ascii.eqb_eq in E1. apply Ascii.eqb_neq in E0. subst m1.
    rewrite scorePair_gap_right by assumption.
    rewrite Ascii.eqb_refl, orb_true_r. auto.
  - apply Ascii.eqb_neq in E0, E1. rewrite scorePair_symbols by assumption.
    apply Ascii.eqb_neq in H0, H1. rewrite H0, H1.
    apply Ascii.eqb_neq in H0. auto.
Qed.

Lemma walk_backchain_pair (a b : str) (cfg : Config) (m : pyval) (c : list Z)
  (path : list (list Z)) :
  backchain [a; b] cfg m c path -> dotfree [a; b] ->
  retrievematrixelement m [0; 0] = Ok (PScore (mkScore (Some [0; 0]) 0)) ->
  exists l0 l1 w v,
    walk [a; b] (map Some (path ++ [c])) [[]; []] None = Ok ([l0; l1], w) /\
    Forall2 (fun x y => x <> dotc \/ y <> dotc) l0 l1 /\
    retrievematrixelement m c = Ok (PScore v) /\
    lines_score cfg l0 l1 = score v.
Proof.
  intros Hbc Hdot Hor.
  induction Hbc as [|c bp move vp path Hd Hc Hbs Hmk Hne Hvp Hget Hbc IH].
  - exists [], [], None. eexists. split; [reflexivity|].
    split; [constructor|]. split; [exact Hor|reflexivity].
  - destruct IH as (l0 & l1 & w & v & Hw & Hnd & Hv & Hsc).
    rewrite Hvp in Hv. injection Hv as <-.
    pose proof (moves_without_dot _ _ _ _ Hbs Hmk Hdot) as Hnodot.
    assert (Lb : length bp = 2%nat)
      by (rewrite (bases_length _ _ _ Hbs), (in_lattice_length _ _ Hc); reflexivity).
    assert (Lm : length move = 2%nat) by (rewrite (masks_length _ _ Hmk); exact Lb).
    rewrite Lb in Hne.
    destruct move as [|m0 [|m1 [|? ?]]]; try discriminate Lm.
    pose proof (extend_strings_emit [a; b] (generatecoordinates [m0; m1] c) c
                  [a; b] c bp Hbs [m0; m1] [l0; l1] 0%nat Hmk Hc eq_refl
                  eq_refl eq_refl eq_refl) as Hext.
    cbn [map snoc_all] in Hext.
    inversion Hnodot as [|? ? H0 Hnodot']; subst.
    inversion Hnodot' as [|? ? H1 _]; subst.
    assert (Hne' : [m0; m1] <> [gapc; gapc]) by exact Hne.
    destruct (column_of_move cfg m0 m1 H0 H1 Hne') as [Hcol Hnd'].
    exists (l0 ++ [emit m0]), (l1 ++ [emit m1]),
      (Some (Some (generatecoordinates [m0; m1] c))).
    eexists. split; [|split; [|split; [exact Hget|]]].
    + rewrite <- app_assoc. cbn [app]. rewrite map_app. cbn [map].
      rewrite walk_snoc. rewrite map_app in Hw. cbn [map] in Hw.
      rewrite Hw. cbn [bind fst]. rewrite Hext. reflexivity.
    + apply Forall2_app; [exact Hnd|]. constructor; [exact Hnd'|constructor].
    + rewrite lines_score_snoc by (exact (Forall2_length Hnd)).
      rewrite Hsc, Hcol. cbn [score]. rewrite movescore_pair. reflexivity.
Qed.

(** C2, as the code has it: for two sequences of which the first is not
    empty and none contains ['_'] or ['.'], [solve] returns; if every score
    of the solved matrix is above the initial [maxscore], which the bound
    on the weights is enough for, then the score at the far corner is the
    value of the classical recurrence, and the two lines of the report are
    an alignment of the two sequences whose score is that value, which no
    alignment exceeds. *)
Theorem two_sequence_refinement (a b : str) (cfg : Config) :
  a <> [] -> gapfree [a; b] -> dotfree [a; b] ->
  exists st0 st,
    NW.init [a; b] cfg = Ok st0 /\ NW.solve st0 = Ok st /\
    (above_sentinel [a; b] cfg -> above_maxscore (NW.matrix st) = true) /\
    (above_maxscore (NW.matrix st) = true ->
     exists v l0 l1,
       retrievematrixelement (NW.matrix st) [len a; len b] = Ok (PScore v) /\
       score v = nw_reference cfg a b /\
       NW.alignment st = Ok [l0; l1] /\
       valid_alignment a b l0 l1 /\
       lines_score cfg l0 l1 = nw_reference cfg a b /\
       (forall l0' l1', valid_alignment a b l0' l1' ->
                        lines_score cfg l0' l1' <= nw_reference cfg a b)).
Proof.
  intros Ha Hg Hdot.
  assert (Hs : startable [a; b]) by exact Ha.
  destruct (NW_solve_total [a; b] cfg Hs) as (st0 & st & Hi & Hsolve & Hr & Hu).
  pose proof (NW_reach_inv _ cfg st Hs Hr) as Hinv.
  exists st0, st. split; [exact Hi|]. split; [exact Hsolve|].
  split; [exact (bound_above_maxscore _ cfg st Hinv Hu Hg)|].
  intros Habove.
  pose proof (above_maxscore_predecessors _ cfg st Hinv Hu Habove) as Hp.
  pose proof Hinv as (Hss & _ & T & _).
  pose proof (lengths_in_lattice [a; b]) as Hfar.
  change (lengths [a; b]) with [len a; len b] in Hfar.
  destruct (engine_matches_reference a b cfg st Hinv Hu Hg Hp
              (Z.to_nat (len a + len b)) (len a) (len b) Hfar
              ltac:(unfold len; lia)) as (v & Hv & Hsc).
  unfold len in Hsc. rewrite !Nat2Z.id, !firstn_all in Hsc.
  destruct (has_backchain _ cfg st Hinv Hu Hp (total_length [a; b]) [len a; len b]
              Hfar (coord_sum_bound _ _ Hfar)) as (path & Hbc & Hlen).
  pose proof (coord_sum_bound _ _ Hfar) as Hb.
  destruct (walk_backchain_pair a b cfg _ _ path Hbc Hdot (tr_origin _ _ _ T))
    as (l0 & l1 & w & v' & Hw & Hnd & Hv' & Hls).
  rewrite Hv in Hv'. injection Hv' as <-.
  destruct (walk_backchain _ cfg _ _ path Hbc Hdot) as (rs & w' & Hw' & Hal).
  change (repeat [] (length [a; b])) with ([[]; []] : list str) in Hw'.
  rewrite Hw in Hw'. injection Hw' as <- <-.
  apply (aligned_whole [a; b]) in Hal.
  apply Forall2_cons_iff in Hal. destruct Hal as [Hl0 Hal].
  apply Forall2_cons_iff in Hal. destruct Hal as [Hl1 _].
  exists v, l0, l1.
  split; [exact Hv|].
  split; [exact Hsc|]. split; [|split; [|split]].
  - unfold NW.alignment, NW.path. rewrite Hss.
    change (lengths [a; b]) with [len a; len b].
    rewrite (trace_backchain _ cfg _ _ path Hbc) by lia.
    cbn [bind]. rewrite app_nil_r.
    change [Some [len a; len b]] with (map Some [[len a; len b]]).
    rewrite <- map_app.
    change (repeat [] (length [a; b])) with ([[]; []] : list str).
    rewrite Hw. reflexivity.
  - split; [exact Hl0|]. split; [exact Hl1|exact Hnd].
  - rewrite Hls. exact Hsc.
  - intros l0' l1' (H0 & H1 & Hnd').
    pose proof (reference_is_upper_bound cfg l0' l1' Hnd') as Hub.
    rewrite H0, H1 in Hub. exact Hub.
Qed.

Lemma two_sequence_refinement_witness :
  NW.init [lit "AA"; lit "CC"] steep_config = Ok example_steep /\
  NW.solve example_steep = Ok example_steep_solved /\
  ~ above_sentinel [lit "AA"; lit "CC"] steep_config /\
  above_maxscore (NW.matrix example_steep_solved) = true /\
  exists v l0 l1,
    retrievematrixelement (NW.matrix example_steep_solved)
      [len (lit "AA"); len (lit "CC")] = Ok (PScore v) /\
    score v = nw_reference steep_config (lit "AA") (lit "CC") /\
    NW.alignment example_steep_solved = Ok [l0; l1] /\
    valid_alignment (lit "AA") (lit "CC") l0 l1 /\
    lines_score steep_config l0 l1
    = nw_reference steep_config (lit "AA") (lit "CC") /\
    (forall l0' l1',
       valid_alignment (lit "AA") (lit "CC") l0' l1' ->
       lines_score steep_config l0' l1'
       <= nw_reference steep_config (lit "AA") (lit "CC")).
Proof.
  assert (E0 : NW.init [lit "AA"; lit "CC"] steep_config = Ok example_steep)
    by (vm_compute; reflexivity).
  assert (E1 : NW.solve example_steep = Ok example_steep_solved)
    by (vm_compute; reflexivity).
  destruct (two_sequence_refinement (lit "AA") (lit "CC") steep_config)
    as (st0 & st & Hi & Hsolve & _ & Himp).
  - discriminate.
  - repeat constructor; simpl; intuition discriminate.
  - repeat constructor; simpl; intuition discriminate.
  - rewrite E0 in Hi. injection Hi as <-.
    rewrite E1 in Hsolve. injection Hsolve as <-.
    split; [exact E0|]. split; [exact E1|].
    split; [intros H; vm_compute in H; discriminate H|].
    split; [vm_compute; reflexivity|].
    apply Himp. vm_compute. reflexivity.
Defined.

(** C2 as stated fails when a sequence holds the character ['_'], which
    the engine takes for a gap: for ["_"] and ["_"] no move is enumerated,
    the far corner keeps the initial [maxscore], and the classical
    recurrence gives one match. *)
Lemma gap_symbol_breaks_refinement :
  (x <- NW.init [lit "_"; lit "_"] default_config ;;
   x' <- NW.solve x ;; retrievematrixelement (NW.matrix x') [1; 1])
  = Ok (PScore (mkScore None (-100000000))) /\
  nw_reference default_config (lit "_") (lit "_") = 5 /\
  (x <- NW.init [lit "_"; lit "_"] default_config ;;
   x' <- NW.solve x ;; NW.alignment x')
  = Raise TypeError.
Proof. repeat split; reflexivity. Qed.

(** * Further properties of the code *)

(** ** Pairs and their scores *)

(** X1: [scorePair] gives a pair and the swapped pair the same score. *)
Theorem scorePair_symmetric (cfg : Config) (x0 x1 : ascii) :
  scorePair cfg (x0, x1) = scorePair cfg (x1, x0).
Proof.
  destruct (ascii_dec x0 x1) as [->|Hne]; [reflexivity|].
  unfold scorePair. rewrite (Ascii.eqb_sym x1 x0).
  apply Ascii.eqb_neq in Hne. rewrite Hne. cbn [andb].
  rewrite orb_comm. reflexivity.
Qed.

Lemma getallpairs_in (x : str) (a b : ascii) :
  In (a, b) (getallpairs x) <->
  exists i j, (i < j)%nat /\ nth_error x i = Some a /\ nth_error x j = Some b.
Proof.
  induction x as [|xu rest IH]; cbn [getallpairs].
  - split; [contradiction|]. intros (i & j & _ & H & _). destruct i; discriminate.
  - rewrite in_app_iff, in_map_iff, IH. split.
    + intros [(b' & E & Hb)|(i & j & Hij & Hi & Hj)].
      * injection E as <- <-. apply In_nth_error in Hb. destruct Hb as (j & Hj).
        exists 0%nat, (S j). split; [lia|]. auto.
      * exists (S i), (S j). split; [lia|]. auto.
    + intros (i & j & Hij & Hi & Hj). destruct j as [|j]; [lia|].
      destruct i as [|i]; simpl in Hi, Hj.
      * injection Hi as ->. left. exists b. split; [reflexivity|].
        eapply nth_error_In; eauto.
      * right. exists i, j. split; [lia|]. auto.
Qed.

Lemma flat_map_shift {A : Type} (f : nat -> list A) (l : list nat) :
  flat_map f (map S l) = flat_map (fun i => f (S i)) l.
Proof. induction l as [|i l IH]; simpl; [reflexivity|]. rewrite IH. reflexivity. Qed.

Lemma map_shift {A : Type} (f : nat -> A) (l : list nat) :
  map f (map S l) = map (fun i => f (S i)) l.
Proof. apply map_map. Qed.

Lemma map_nth_positions (l : str) :
  map (fun j => nth j l gapc) (seq 0 (length l)) = l.
Proof.
  induction l as [|h t IH]; [reflexivity|].
  cbn [length seq map nth]. f_equal.
  rewrite <- seq_shift, map_shift. exact IH.
Qed.

Lemma getallpairs_positions (x : str) :
  getallpairs x
  = flat_map (fun i => map (fun j => (nth i x gapc, nth j x gapc))
                           (seq (S i) (length x - S i)))
             (seq 0 (length x)).
Proof.
  induction x as [|a rest IH]; [reflexivity|].
  cbn [getallpairs length seq flat_map]. f_equal.
  - cbn [Nat.sub nth]. rewrite Nat.sub_0_r.
    rewrite <- seq_shift, map_shift. cbn [nth].
    rewrite <- (map_nth_positions rest) at 1. rewrite map_map. reflexivity.
  - rewrite IH, <- seq_shift, flat_map_shift.
    apply flat_map_ext. intros i. cbn [Nat.sub nth].
    rewrite <- (seq_shift (length rest - S i) (S i)), map_shift. reflexivity.
Qed.

(** X2: [getallpairs] returns the pairs of entries at positions [i < j],
    each once, ordered by [i] and then by [j], and nothing else; for a
    move of [n] entries that is [n (n - 1) / 2] pairs, the number of terms
    of the move's score. *)
Theorem getallpairs_pairs (x : str) :
  getallpairs x
  = flat_map (fun i => map (fun j => (nth i x gapc, nth j x gapc))
                           (seq (S i) (length x - S i)))
             (seq 0 (length x)) /\
  Z.of_nat (length (getallpairs x)) = pairs_among (length x) /\
  (forall a b, In (a, b) (getallpairs x) <->
     exists i j, (i < j)%nat /\ nth_error x i = Some a /\ nth_error x j = Some b).
Proof.
  split; [apply getallpairs_positions|].
  split; [|intros a b; apply getallpairs_in].
  induction x as [|xu rest IH]; [reflexivity|].
  cbn [getallpairs length pairs_among].
  rewrite length_app, length_map, Nat2Z.inj_add, IH. reflexivity.
Qed.

(** ** Predecessor coordinates *)

(** X3: for a move and a coordinate of the same length,
    [generatecoordinates] keeps the length, leaves an entry as it is where
    the move has the gap marker and lowers it by one elsewhere, so the
    entries of the result sum to those of the coordinate less the number
    of symbols of the move. *)
Theorem predecessor_entries (move : str) (c : list Z) :
  length move = length c ->
  length (generatecoordinates move c) = length c /\
  (forall i ch d, nth_error move i = Some ch -> nth_error c i = Some d ->
     nth_error (generatecoordinates move c) i
     = Some (if Ascii.eqb ch gapc then d else d - 1)) /\
  Py.sum (generatecoordinates move c) = Py.sum c - Z.of_nat (nongaps move).
Proof.
  revert c; induction move as [|u move IH]; intros [|v c] H; simpl in H;
    try discriminate H.
  - split; [reflexivity|]. split; [|reflexivity].
    intros [|i] ch d Hm; discriminate Hm.
  - destruct (IH c ltac:(lia)) as (H1 & H2 & H3).
    cbn [generatecoordinates length Py.sum]. split; [congruence|]. split.
    + intros [|i] ch d Hm Hc; simpl in Hm, Hc.
      * injection Hm as ->. injection Hc as ->. reflexivity.
      * simpl. apply H2; assumption.
    + rewrite H3. unfold nongaps. cbn [filter].
      destruct (Ascii.eqb u gapc); cbn [negb length]; lia.
Qed.

Lemma predecessor_entries_witness :
  length (generatecoordinates (lit "A_C") [1; 1; 1]) = length [1; 1; 1] /\
  (forall i ch d, nth_error (lit "A_C") i = Some ch ->
     nth_error [1; 1; 1] i = Some d ->
     nth_error (generatecoordinates (lit "A_C") [1; 1; 1]) i
     = Some (if Ascii.eqb ch gapc then d else d - 1)) /\
  Py.sum (generatecoordinates (lit "A_C") [1; 1; 1])
  = Py.sum [1; 1; 1] - Z.of_nat (nongaps (lit "A_C")).
Proof.
  apply (predecessor_entries (lit "A_C") [1; 1; 1]). reflexivity.
Defined.

(** ** The traversal counter *)

Lemma rank_lengths (ss : list str) :
  rank ss (lengths ss) = Z.of_nat (lattice_size ss) - 1.
Proof.
  induction ss as [|s ss IH]; [reflexivity|].
  change (lattice_size (s :: ss)) with (S (length s) * lattice_size ss)%nat.
  rewrite Nat2Z.inj_mul, Nat2Z.inj_succ. simpl. rewrite IH.
  unfold len. lia.
Qed.

(** X4: from a coordinate of the lattice, [increase] gives the coordinate
    that comes next in the order with dimension 0 varying fastest, and the
    test of the loop of [solve] fails on the result exactly when the
    coordinate was the far corner, the lengths of the sequences. *)
Theorem increase_next (ss : list str) (c : list Z) :
  ss <> [] -> in_lattice ss c ->
  rank ss (Engine.increase ss c) = rank ss c + 1 /\
  (c <> lengths ss -> in_lattice ss (Engine.increase ss c) /\
                      Engine.unfinished ss (Engine.increase ss c) = Ok true) /\
  (c = lengths ss -> Engine.unfinished ss (Engine.increase ss c) = Ok false).
Proof.
  intros Hne Hc. destruct (increase_spec ss c Hc Hne) as [Hok Hrk].
  destruct (unfinished_spec ss _ Hok) as (b & Hb & Ht & Hf).
  pose proof (rank_bounds ss c Hc) as Hbound.
  split; [exact Hrk|]. split.
  - intros Hfar. destruct b.
    + split; [apply Ht; reflexivity|exact Hb].
    + exfalso. apply Hfar. apply (rank_injective ss);
        [assumption|apply lengths_in_lattice|].
      specialize (Hf eq_refl). rewrite rank_lengths. lia.
  - intros ->. destruct b; [|exact Hb]. exfalso.
    pose proof (rank_bounds ss _ (Ht eq_refl)) as Hb'.
    rewrite Hrk, rank_lengths in Hb'. lia.
Qed.

Lemma increase_next_witness :
  rank [lit "AC"; lit "G"] (Engine.increase [lit "AC"; lit "G"] [2; 0])
  = rank [lit "AC"; lit "G"] [2; 0] + 1 /\
  ([2; 0] <> lengths [lit "AC"; lit "G"] ->
     in_lattice [lit "AC"; lit "G"]
       (Engine.increase [lit "AC"; lit "G"] [2; 0]) /\
     Engine.unfinished [lit "AC"; lit "G"]
       (Engine.increase [lit "AC"; lit "G"] [2; 0]) = Ok true) /\
  ([2; 0] = lengths [lit "AC"; lit "G"] ->
     Engine.unfinished [lit "AC"; lit "G"]
       (Engine.increase [lit "AC"; lit "G"] [2; 0]) = Ok false).
Proof.
  apply (increase_next [lit "AC"; lit "G"] [2; 0]).
  - discriminate.
  - lattice.
Defined.

(** ** The matrix *)

(** X5: for at least one sequence, [initializeMatrix] returns nested lists
    of the shape of the lattice, [len(s) + 1] entries in the dimension of
    sequence [s], and every slot holds [None]. *)
Theorem initializeMatrix_slots (ss : list str) :
  ss <> [] ->
  exists m, initializeMatrix ss = Ok m /\ shaped ss m /\
            forall c, in_lattice ss c -> retrievematrixelement m c = Ok PNone.
Proof. exact (initializeMatrix_spec ss). Qed.

Lemma initializeMatrix_slots_witness :
  exists m, initializeMatrix [lit "AC"; lit "G"] = Ok m /\
            shaped [lit "AC"; lit "G"] m /\
            forall c, in_lattice [lit "AC"; lit "G"] c ->
                      retrievematrixelement m c = Ok PNone.
Proof.
  apply (initializeMatrix_slots [lit "AC"; lit "G"]). discriminate.
Defined.

(** X6: on a matrix of the shape of the lattice, [enterelement] at a
    coordinate of the lattice succeeds; afterwards
    [retrievematrixelement] gives the entered value at that coordinate and
    what it gave before at every other one, and the shape is kept. *)
Theorem enter_then_retrieve (ss : list str) (m : pyval) (c : list Z)
  (v : pyval) :
  ss <> [] -> shaped ss m -> in_lattice ss c -> is_slot v ->
  exists m', enterelement m c v = Ok m' /\
             shaped ss m' /\
             retrievematrixelement m' c = Ok v /\
             (forall c', in_lattice ss c' -> c' <> c ->
                         retrievematrixelement m' c' = retrievematrixelement m c').
Proof. intros Hne Hm Hc Hv. exact (enterelement_shaped ss m c v Hne Hm Hc Hv). Qed.

Lemma enter_then_retrieve_witness :
  exists m',
    enterelement (PList [PList [PNone; PNone]; PList [PNone; PNone]]) [1; 0]
      (PScore (mkScore None 3)) = Ok m' /\
    shaped [lit "A"; lit "C"] m' /\
    retrievematrixelement m' [1; 0] = Ok (PScore (mkScore None 3)) /\
    (forall c', in_lattice [lit "A"; lit "C"] c' -> c' <> [1; 0] ->
       retrievematrixelement m' c'
       = retrievematrixelement
           (PList [PList [PNone; PNone]; PList [PNone; PNone]]) c').
Proof.
  apply (enter_then_retrieve [lit "A"; lit "C"]
           (PList [PList [PNone; PNone]; PList [PNone; PNone]]) [1; 0]
           (PScore (mkScore None 3))).
  - discriminate.
  - simpl. repeat constructor.
  - lattice.
  - exact I.
Defined.

Lemma norm_index_outside (n : nat) (i : Z) :
  Z.of_nat n <= i \/ i < - Z.of_nat n -> norm_index n i = None.
Proof.
  intros H. unfold norm_index.
  destruct (0 <=? i) eqn:E1, (i <? Z.of_nat n) eqn:E2,
           (- Z.of_nat n <=? i) eqn:E3, (i <? 0) eqn:E4; cbn [andb];
    try reflexivity; exfalso; lia.
Qed.

Lemma norm_index_wrap (n : nat) (i : Z) :
  - Z.of_nat n <= i < 0 -> norm_index n i = norm_index n (i + Z.of_nat n).
Proof.
  intros H. unfold norm_index.
  replace (0 <=? i) with false by (symmetry; apply Z.leb_gt; lia).
  replace (- Z.of_nat n <=? i) with true by (symmetry; apply Z.leb_le; lia).
  replace (i <? 0) with true by (symmetry; apply Z.ltb_lt; lia).
  replace (0 <=? i + Z.of_nat n) with true by (symmetry; apply Z.leb_le; lia).
  replace (i + Z.of_nat n <? Z.of_nat n) with true
    by (symmetry; apply Z.ltb_lt; lia).
  cbn [andb]. f_equal. f_equal. lia.
Qed.

Lemma shaped_entry (s : str) (ss : list str) (l : list pyval) (x : Z) :
  shaped (s :: ss) (PList l) -> 0 <= x <= len s ->
  exists sub, getitem l x = Ok sub /\ shaped ss sub.
Proof.
  intros [Hlen Hall] Hx.
  destruct (getitem_in_range l x) as (sub & Hsub & Hnth);
    [unfold len in *; lia|].
  exists sub. split; [exact Hsub|].
  rewrite Forall_forall in Hall. apply Hall. eapply nth_error_In; eauto.
Qed.

(** X7: neither [retrievematrixelement] nor [enterelement] checks a
    coordinate against the lattice; an entry that is greater than the
    length of its sequence, or less than minus the length minus one,
    after entries that are in range, makes both raise [IndexError]. *)
Theorem coordinate_out_of_range (ss1 : list str) (s : str) (ss2 : list str)
  (m : pyval) (pre : list Z) (x : Z) (rest : list Z) (v : pyval) :
  shaped (ss1 ++ s :: ss2) m -> in_lattice ss1 pre ->
  len s < x \/ x < - len s - 1 ->
  retrievematrixelement m (pre ++ x :: rest) = Raise IndexError /\
  enterelement m (pre ++ x :: rest) v = Raise IndexError.
Proof.
  intros Hm Hpre Hx. revert m Hm.
  induction Hpre as [|s1 x1 ss1 pre Hx1 Hpre IH]; intros m Hm.
  - destruct m as [| |l]; simpl in Hm; try contradiction.
    destruct Hm as [Hlen _].
    assert (Hn : norm_index (length l) x = None).
    { apply norm_index_outside. rewrite Hlen. unfold len in Hx. lia. }
    cbn [app retrievematrixelement enterelement].
    unfold getitem, setitem. rewrite Hn. cbn [bind].
    split; [reflexivity|]. destruct rest; reflexivity.
  - destruct m as [| |l]; simpl in Hm; try contradiction.
    destruct (shaped_entry s1 (ss1 ++ s :: ss2) l x1 Hm Hx1) as (sub & Hsub & Hs).
    destruct (IH sub Hs) as [IH1 IH2].
    cbn [app retrievematrixelement enterelement].
    rewrite Hsub. cbn [bind]. split; [exact IH1|].
    destruct (pre ++ x :: rest) eqn:E; [destruct pre; discriminate E|].
    rewrite IH2. reflexivity.
Qed.

Lemma coordinate_out_of_range_witness :
  retrievematrixelement (PList [PList [PNone; PNone]; PList [PNone; PNone]])
    ([0] ++ 2 :: []) = Raise IndexError /\
  enterelement (PList [PList [PNone; PNone]; PList [PNone; PNone]])
    ([0] ++ 2 :: []) PNone = Raise IndexError.
Proof.
  apply (coordinate_out_of_range [lit "A"] (lit "C") []
           (PList [PList [PNone; PNone]; PList [PNone; PNone]]) [0] 2 [] PNone).
  - simpl. repeat constructor.
  - lattice.
  - left. reflexivity.
Defined.

(** X8: a negative entry from minus one down to minus the length of its
    sequence minus one is accepted by both functions and counts from the
    end of the dimension: it designates the slot of the entry increased by
    the length plus one. *)
Theorem negative_coordinate_wraps (ss1 : list str) (s : str) (ss2 : list str)
  (m : pyval) (pre : list Z) (x : Z) (rest : list Z) (v : pyval) :
  shaped (ss1 ++ s :: ss2) m -> in_lattice ss1 pre ->
  - len s - 1 <= x < 0 ->
  retrievematrixelement m (pre ++ x :: rest)
  = retrievematrixelement m (pre ++ (x + len s + 1) :: rest) /\
  enterelement m (pre ++ x :: rest) v
  = enterelement m (pre ++ (x + len s + 1) :: rest) v.
Proof.
  intros Hm Hpre Hx. revert m Hm.
  induction Hpre as [|s1 x1 ss1 pre Hx1 Hpre IH]; intros m Hm.
  - destruct m as [| |l]; simpl in Hm; try contradiction.
    destruct Hm as [Hlen _].
    assert (Hn : norm_index (length l) x = norm_index (length l) (x + len s + 1)).
    { rewrite norm_index_wrap by (rewrite Hlen; unfold len in Hx; lia).
      f_equal. rewrite Hlen. unfold len. lia. }
    cbn [app retrievematrixelement enterelement].
    unfold getitem, setitem. rewrite Hn.
    split; [reflexivity|]. destruct rest; reflexivity.
  - destruct m as [| |l]; simpl in Hm; try contradiction.
    destruct (shaped_entry s1 (ss1 ++ s :: ss2) l x1 Hm Hx1) as (sub & Hsub & Hs).
    destruct (IH sub Hs) as [IH1 IH2].
    cbn [app retrievematrixelement enterelement].
    rewrite Hsub. cbn [bind]. split; [exact IH1|].
    destruct (pre ++ x :: rest) eqn:E; [destruct pre; discriminate E|].
    destruct (pre ++ (x + len s + 1) :: rest) eqn:E';
      [destruct pre; discriminate E'|].
    rewrite IH2. reflexivity.
Qed.

Lemma negative_coordinate_wraps_witness :
  retrievematrixelement
    (PList [PList [PNone; PNone]; PList [PNone; PScore (mkScore None 3)]])
    ([1] ++ (-1) :: [])
  = retrievematrixelement
    (PList [PList [PNone; PNone]; PList [PNone; PScore (mkScore None 3)]])
    ([1] ++ (-1 + len (lit "C") + 1) :: []) /\
  enterelement
    (PList [PList [PNone; PNone]; PList [PNone; PScore (mkScore None 3)]])
    ([1] ++ (-1) :: []) PNone
  = enterelement
    (PList [PList [PNone; PNone]; PList [PNone; PScore (mkScore None 3)]])
    ([1] ++ (-1 + len (lit "C") + 1) :: []) PNone.
Proof.
  apply (negative_coordinate_wraps [lit "A"] (lit "C") []
           (PList [PList [PNone; PNone]; PList [PNone; PScore (mkScore None 3)]])
           [1] (-1) [] PNone).
  - simpl. repeat constructor.
  - lattice.
  - unfold len. simpl. lia.
Defined.

(** ** The moves of a coordinate *)

(** X9: on a non-empty base-pair string [generatemoves] returns, without
    repetition, exactly the strings that keep or replace by the gap marker
    each entry of the string, the all-gap string excepted; on the empty
    string it raises [IndexError]. *)
Theorem generatemoves_complete (x : str) :
  x <> [] ->
  generatemoves [] = Raise IndexError /\
  exists moves,
    generatemoves x = Ok moves /\ NoDup moves /\
    forall m, In m moves <-> masks x m /\ m <> repeat gapc (length x).
Proof.
  intros Hne. split; [reflexivity|].
  destruct (generatemoves_spec x Hne) as (moves & Hm & Hin & Hnd & _).
  exists moves. auto.
Qed.

Lemma generatemoves_complete_witness :
  generatemoves [] = Raise IndexError /\
  exists moves,
    generatemoves (lit "A_C") = Ok moves /\ NoDup moves /\
    forall m, In m moves <->
              masks (lit "A_C") m /\ m <> repeat gapc (length (lit "A_C")).
Proof.
  apply (generatemoves_complete (lit "A_C")). discriminate.
Defined.

Lemma fold_extend_head (xs : str) :
  forall q rv, exists tl,
    fold_left extend_moves xs (q :: rv) = (q ++ xs) :: tl.
Proof.
  induction xs as [|a xs IH]; intros q rv; cbn [fold_left].
  - exists rv. rewrite app_nil_r. reflexivity.
  - assert (H : exists rv', extend_moves (q :: rv) a = (q ++ [a]) :: rv').
    { unfold extend_moves. destruct (Ascii.eqb_spec a gapc) as [->|_];
        cbn [map app]; eexists; reflexivity. }
    destruct H as (rv' & H). destruct (IH (q ++ [a]) rv') as (tl & Htl).
    exists tl. rewrite H. etransitivity; [exact Htl|].
    rewrite <- app_assoc. reflexivity.
Qed.

(** X10: when the base-pair string holds a symbol, the first move
    [generatemoves] returns is the string itself, the move that consumes
    a symbol of every sequence that has one left; it is the move [solve]
    tries first, and so the one a tie with a later move is settled for. *)
Theorem generatemoves_first (x : str) :
  (0 < nongaps x)%nat ->
  exists rest, generatemoves x = Ok (x :: rest).
Proof.
  intros Hpos. destruct x as [|x0 xs]; [cbv in Hpos; lia|].
  destruct (generatemoves_spec (x0 :: xs) ltac:(discriminate))
    as (moves & Hm & _).
  unfold generatemoves in *.
  match type of Hm with
  | Py.remove _ ?l = _ =>
      assert (Hl : exists tl, l = (x0 :: xs) :: tl)
        by (destruct (negb (Ascii.eqb x0 gapc));
            apply (fold_extend_head xs [x0]))
  end.
  destruct Hl as (tl & Hl). rewrite Hl in *. cbn [Py.remove] in *.
  assert (E : str_eqb (x0 :: xs) (repeat gapc (length (x0 :: xs))) = false).
  { apply str_eqb_neq. intros E. rewrite E, nongaps_repeat in Hpos. lia. }
  rewrite E in *.
  destruct (Py.remove (repeat gapc (length (x0 :: xs))) tl) as [t'| |];
    cbn [bind] in *; try discriminate Hm.
  exists t'. reflexivity.
Qed.

Lemma generatemoves_first_witness :
  exists rest, generatemoves (lit "A_C") = Ok (lit "A_C" :: rest).
Proof.
  apply (generatemoves_first (lit "A_C")). cbv. lia.
Defined.

(** ** The constructors *)

(** X11: without sequences both constructors raise [IndexError]; with at
    least one, both return an engine whose matrix has the shape of the
    lattice, holds score 0 with the origin as its own predecessor at the
    origin and [None] everywhere else, and whose counter is one step along
    dimension 0 whatever the length of the first sequence; the local
    engine starts with best score 0 at the origin. *)
Theorem constructor_state (ss : list str) (cfg : Config) :
  ss <> [] ->
  NW.init [] cfg = Raise IndexError /\
  SW.init [] cfg = Raise IndexError /\
  exists m,
    NW.init ss cfg = Ok (NW.mk ss cfg m (1 :: repeat 0 (length ss - 1))) /\
    SW.init ss cfg
    = Ok (SW.mk ss cfg m (1 :: repeat 0 (length ss - 1)) 0 (zeros ss)) /\
    shaped ss m /\
    retrievematrixelement m (zeros ss)
    = Ok (PScore (mkScore (Some (zeros ss)) 0)) /\
    (forall c, in_lattice ss c -> c <> zeros ss ->
               retrievematrixelement m c = Ok PNone).
Proof.
  intros Hne. split; [reflexivity|]. split; [reflexivity|].
  destruct (fresh_matrix ss Hne) as (m & Hm & Hs & Ho & Hoth).
  exists m. unfold NW.init, SW.init.
  destruct (initializeMatrix ss) as [m0| |]; cbn [bind] in *;
    try discriminate Hm.
  rewrite Hm. cbn [bind]. auto.
Qed.

Lemma constructor_state_witness :
  NW.init [] default_config = Raise IndexError /\
  SW.init [] default_config = Raise IndexError /\
  exists m,
    NW.init [lit "AC"; lit "G"] default_config
    = Ok (NW.mk [lit "AC"; lit "G"] default_config m
            (1 :: repeat 0 (length [lit "AC"; lit "G"] - 1))) /\
    SW.init [lit "AC"; lit "G"] default_config
    = Ok (SW.mk [lit "AC"; lit "G"] default_config m
            (1 :: repeat 0 (length [lit "AC"; lit "G"] - 1)) 0
            (zeros [lit "AC"; lit "G"])) /\
    shaped [lit "AC"; lit "G"] m /\
    retrievematrixelement m (zeros [lit "AC"; lit "G"])
    = Ok (PScore (mkScore (Some (zeros [lit "AC"; lit "G"])) 0)) /\
    (forall c, in_lattice [lit "AC"; lit "G"] c ->
               c <> zeros [lit "AC"; lit "G"] ->
               retrievematrixelement m c = Ok PNone).
Proof.
  apply (constructor_state [lit "AC"; lit "G"] default_config). discriminate.
Defined.

(** ** Solving *)

Lemma finished_rank (ss : list str) (m : pyval) (counter c : list Z) :
  traversal ss m counter -> unfinished ss counter = Ok false ->
  in_lattice ss c -> rank ss c < rank ss counter.
Proof.
  intros T Hu Hc.
  destruct (unfinished_spec ss counter (tr_counter _ _ _ T)) as (b & Hb & _ & Hf).
  rewrite Hu in Hb. injection Hb as <-.
  pose proof (rank_bounds ss c Hc). specialize (Hf eq_refl). lia.
Qed.

Lemma rank_pos (ss : list str) (c : list Z) :
  in_lattice ss c -> c <> zeros ss -> 0 < rank ss c.
Proof.
  intros Hc Hz. pose proof (rank_bounds ss c Hc).
  destruct (Z.eq_dec (rank ss c) 0) as [E|E]; [|lia].
  exfalso. apply Hz. apply rank_zero_origin; assumption.
Qed.

(** X12: when there is one sequence, or the first of several is not
    empty, [NW.solve] returns on the constructed engine; it leaves the
    sequences and the weights as they were, and every coordinate of the
    lattice other than the origin then holds the cell made of its
    candidates, whose score is the largest of -100000000 and the
    candidates' scores. *)
Theorem NW_solve_fills (ss : list str) (cfg : Config) :
  startable ss ->
  exists st0 st,
    NW.init ss cfg = Ok st0 /\ NW.solve st0 = Ok st /\
    NW.sequences st = ss /\ NW.config st = cfg /\
    shaped ss (NW.matrix st) /\
    forall c, in_lattice ss c -> c <> zeros ss ->
      exists cands,
        candidates ss cfg (NW.matrix st) c = Ok cands /\
        retrievematrixelement (NW.matrix st) c = Ok (PScore (NW_cell cands)) /\
        score (NW_cell cands) = peak cands NW.sentinel.
Proof.
  intros Hs. destruct (NW_solve_total ss cfg Hs) as (st0 & st & Hi & Hsol & Hr & Hu).
  destruct (NW_reach_inv ss cfg st Hs Hr) as (Hseq & Hcfg & T & Hrec).
  exists st0, st. split; [exact Hi|]. split; [exact Hsol|].
  split; [exact Hseq|]. split; [exact Hcfg|].
  split; [exact (tr_shape _ _ _ T)|].
  intros c Hc Hz.
  destruct (Hrec c Hc) as (cands & Hcands & Hcell).
  { split; [apply rank_pos; assumption|].
    exact (finished_rank ss _ _ c T Hu Hc). }
  exists cands. split; [exact Hcands|]. split; [exact Hcell|].
  unfold NW_cell. rewrite <- (NW_pick_peak cands NW.sentinel None).
  destruct (NW_pick cands NW.sentinel None). reflexivity.
Qed.

Lemma NW_solve_fills_witness :
  exists st0 st,
    NW.init [lit "AC"; lit "G"] default_config = Ok st0 /\
    NW.solve st0 = Ok st /\
    NW.sequences st = [lit "AC"; lit "G"] /\ NW.config st = default_config /\
    shaped [lit "AC"; lit "G"] (NW.matrix st) /\
    forall c, in_lattice [lit "AC"; lit "G"] c ->
              c <> zeros [lit "AC"; lit "G"] ->
      exists cands,
        candidates [lit "AC"; lit "G"] default_config (NW.matrix st) c
        = Ok cands /\
        retrievematrixelement (NW.matrix st) c = Ok (PScore (NW_cell cands)) /\
        score (NW_cell cands) = peak cands NW.sentinel.
Proof.
  apply (NW_solve_fills [lit "AC"; lit "G"] default_config).
  simpl. discriminate.
Defined.

(** X13: under the same condition [SW.solve] returns on the constructed
    engine; every coordinate of the lattice then holds a score between 0
    and the recorded best score, the recorded best coordinate holds the
    best score, and every coordinate that comes before it in the order of
    the traversal holds less. *)
Theorem SW_solve_best (ss : list str) (cfg : Config) :
  startable ss ->
  exists st0 st,
    SW.init ss cfg = Ok st0 /\ SW.solve st0 = Ok st /\
    SW.sequences st = ss /\ SW.config st = cfg /\
    in_lattice ss (SW.bestcoordinate st) /\
    (exists v, retrievematrixelement (SW.matrix st) (SW.bestcoordinate st)
               = Ok (PScore v) /\ score v = SW.bestscore st) /\
    forall c, in_lattice ss c ->
      exists v,
        retrievematrixelement (SW.matrix st) c = Ok (PScore v) /\
        0 <= score v <= SW.bestscore st /\
        (rank ss c < rank ss (SW.bestcoordinate st) ->
         score v < SW.bestscore st).
Proof.
  intros Hs. destruct (SW_solve_total ss cfg Hs) as (st0 & st & Hi & Hsol & Hr & Hu).
  destruct (SW_reach_inv ss cfg st Hs Hr)
    as (Hseq & Hcfg & T & _ & _ & Hnn & Hbl & Hbr & Hbv & Hball).
  exists st0, st. split; [exact Hi|]. split; [exact Hsol|].
  split; [exact Hseq|]. split; [exact Hcfg|].
  split; [exact Hbl|]. split; [exact Hbv|].
  intros c Hc.
  destruct (traversal_finished ss _ _ T Hu c Hc) as (v & Hv).
  exists v. split; [exact Hv|].
  destruct (Hball c v Hc (finished_rank ss _ _ c T Hu Hc) Hv) as [Hle Hlt].
  pose proof (Hnn c v Hc Hv). split; [lia|exact Hlt].
Qed.

Lemma SW_solve_best_witness :
  exists st0 st,
    SW.init [lit "AC"; lit "GC"] default_config = Ok st0 /\
    SW.solve st0 = Ok st /\
    SW.sequences st = [lit "AC"; lit "GC"] /\ SW.config st = default_config /\
    in_lattice [lit "AC"; lit "GC"] (SW.bestcoordinate st) /\
    (exists v, retrievematrixelement (SW.matrix st) (SW.bestcoordinate st)
               = Ok (PScore v) /\ score v = SW.bestscore st) /\
    forall c, in_lattice [lit "AC"; lit "GC"] c ->
      exists v,
        retrievematrixelement (SW.matrix st) c = Ok (PScore v) /\
        0 <= score v <= SW.bestscore st /\
        (rank [lit "AC"; lit "GC"] c
         < rank [lit "AC"; lit "GC"] (SW.bestcoordinate st) ->
         score v < SW.bestscore st).
Proof.
  apply (SW_solve_best [lit "AC"; lit "GC"] default_config).
  simpl. discriminate.
Defined.

Lemma NW_solve_loop_end (fuel : nat) :
  forall st st', NW.solve_loop fuel st = Ok st' ->
    NW.sequences st' = NW.sequences st /\
    unfinished (NW.sequences st') (NW.counter st') = Ok false.
Proof.
  induction fuel as [|fuel IH]; intros st st' H; simpl in H; [discriminate H|].
  destruct (unfinished (NW.sequences st) (NW.counter st)) as [[|]| |] eqn:Hu;
    try discriminate H; cbn [bind] in H.
  - destruct (NW.step st) as [st1| |] eqn:Hs; try discriminate H.
    cbn [bind] in H. destruct (IH st1 st' H) as [E1 E2].
    split; [|exact E2]. rewrite E1. unfold NW.step in Hs.
    destruct (generatebasepairs _ _); try discriminate Hs; cbn [bind] in Hs.
    destruct (generatemoves _); try discriminate Hs; cbn [bind] in Hs.
    destruct (NW.best _ _ _ _ _ _) as [[ms bm]| |]; try discriminate Hs;
      cbn [bind] in Hs.
    destruct (enterelement _ _ _); try discriminate Hs; cbn [bind] in Hs.
    injection Hs as <-. reflexivity.
  - injection H as <-. auto.
Qed.

Lemma SW_solve_loop_end (fuel : nat) :
  forall st st', SW.solve_loop fuel st = Ok st' ->
    SW.sequences st' = SW.sequences st /\
    unfinished (SW.sequences st') (SW.counter st') = Ok false.
Proof.
  induction fuel as [|fuel IH]; intros st st' H; simpl in H; [discriminate H|].
  destruct (unfinished (SW.sequences st) (SW.counter st)) as [[|]| |] eqn:Hu;
    try discriminate H; cbn [bind] in H.
  - destruct (SW.step st) as [st1| |] eqn:Hs; try discriminate H.
    cbn [bind] in H. destruct (IH st1 st' H) as [E1 E2].
    split; [|exact E2]. rewrite E1. unfold SW.step in Hs.
    destruct (generatebasepairs _ _); try discriminate Hs; cbn [bind] in Hs.
    destruct (generatemoves _); try discriminate Hs; cbn [bind] in Hs.
    destruct (SW.best _ _ _ _ _) as [acc1| |]; try discriminate Hs;
      cbn [bind] in Hs.
    destruct (enterelement _ _ _); try discriminate Hs; cbn [bind] in Hs.
    injection Hs as <-. reflexivity.
  - injection H as <-. auto.
Qed.

(** X14: [NW.solve] on an engine that [NW.solve] has returned changes
    nothing: the loop ends at its first test, whatever the engine the
    first call started from. *)
Theorem NW_solve_twice (st0 st : NW.t) :
  NW.solve st0 = Ok st -> NW.solve st = Ok st.
Proof.
  unfold NW.solve. intros H.
  destruct (NW_solve_loop_end _ _ _ H) as [_ Hu].
  pose proof (lattice_size_pos (NW.sequences st)) as Hpos.
  destruct (lattice_size (NW.sequences st)) as [|n]; [lia|].
  cbn [NW.solve_loop]. rewrite Hu. reflexivity.
Qed.

Lemma NW_solve_twice_witness : NW.solve example_solved = Ok example_solved.
Proof.
  apply (NW_solve_twice example_fresh example_solved). reflexivity.
Defined.

(** X15: [SW.solve] on an engine that [SW.solve] has returned changes
    nothing either; the best score and coordinate stay as they were. *)
Theorem SW_solve_twice (st0 st : SW.t) :
  SW.solve st0 = Ok st -> SW.solve st = Ok st.
Proof.
  unfold SW.solve. intros H.
  destruct (SW_solve_loop_end _ _ _ H) as [_ Hu].
  pose proof (lattice_size_pos (SW.sequences st)) as Hpos.
  destruct (lattice_size (SW.sequences st)) as [|n]; [lia|].
  cbn [SW.solve_loop]. rewrite Hu. reflexivity.
Qed.

Lemma SW_solve_twice_witness :
  SW.solve example_local_solved = Ok example_local_solved.
Proof.
  apply (SW_solve_twice example_local example_local_solved). reflexivity.
Defined.

(** X16: with two sequences or more of which the first is empty, [solve]
    raises [IndexError] in both engines, whatever the other sequences and
    the weights. *)
Theorem solve_empty_first (s : str) (rest : list str) (cfg : Config) :
  (x <- NW.init ([] :: s :: rest) cfg ;; NW.solve x) = Raise IndexError /\
  (x <- SW.init ([] :: s :: rest) cfg ;; SW.solve x) = Raise IndexError.
Proof.
  split.
  - apply NW_unstartable_solve; [discriminate|].
    simpl. intros H. apply H. reflexivity.
  - apply SW_unstartable_solve; [discriminate|].
    simpl. intros H. apply H. reflexivity.
Qed.

(** ** Reports *)

Lemma NW_init_ok (ss : list str) (cfg : Config) :
  ss <> [] -> exists st, NW.init ss cfg = Ok st.
Proof.
  intros Hne. destruct (fresh_matrix ss Hne) as (m & Hm & _).
  unfold NW.init. destruct (initializeMatrix ss) as [m0| |]; cbn [bind] in *;
    try discriminate Hm.
  rewrite Hm. cbn [bind]. eexists; reflexivity.
Qed.

Lemma SW_init_ok (ss : list str) (cfg : Config) :
  ss <> [] -> exists st, SW.init ss cfg = Ok st.
Proof.
  intros Hne. destruct (fresh_matrix ss Hne) as (m & Hm & _).
  unfold SW.init. destruct (initializeMatrix ss) as [m0| |]; cbn [bind] in *;
    try discriminate Hm.
  rewrite Hm. cbn [bind]. eexists; reflexivity.
Qed.

(** X17: asked for its report before [solve], an engine on sequences that
    are not all empty answers by the engine's kind and not by the input:
    the global one raises [AttributeError], from reading the score of the
    far corner before testing it for [None]; the local one returns the
    message that the matrix has not been solved. *)
Theorem report_of_fresh_engine (ss : list str) (cfg : Config) :
  ss <> [] -> lengths ss <> zeros ss ->
  (x <- NW.init ss cfg ;; NW.to_str x) = Raise AttributeError /\
  (x <- SW.init ss cfg ;; SW.to_str x) = Ok notsolved_message.
Proof.
  intros Hne Hd. split.
  - destruct (NW_init_ok ss cfg Hne) as (st & Hi). rewrite Hi. cbn [bind].
    exact (NW_report_unsolved ss cfg st Hi Hd).
  - destruct (SW_init_ok ss cfg Hne) as (st & Hi). rewrite Hi. cbn [bind].
    exact (SW_report_unsolved ss cfg st Hi Hd).
Qed.

Lemma report_of_fresh_engine_witness :
  (x <- NW.init [lit "GATTACA"; lit "GCATGCU"] default_config ;; NW.to_str x)
  = Raise AttributeError /\
  (x <- SW.init [lit "GATTACA"; lit "GCATGCU"] default_config ;; SW.to_str x)
  = Ok notsolved_message.
Proof.
  apply (report_of_fresh_engine [lit "GATTACA"; lit "GCATGCU"] default_config);
    discriminate.
Defined.

Lemma coord_eqb_refl (c : list Z) : coord_eqb c c = true.
Proof. apply coord_eqb_eq. reflexivity. Qed.

Lemma NW_trace_origin (fuel : nat) (m : pyval) (z : list Z)
  (acc : list (option (list Z))) :
  NW.trace fuel m z (Some z) acc = Ok acc.
Proof. destruct fuel; simpl; rewrite coord_eqb_refl; reflexivity. Qed.

Lemma SW_trace_origin (fuel : nat) (m : pyval) (z : list Z)
  (acc : list (list Z)) :
  SW.trace fuel m z z acc = Ok (z, acc).
Proof. destruct fuel; simpl; rewrite coord_eqb_refl; reflexivity. Qed.

Lemma concat_empty_lines (n : nat) :
  concat (map (fun value : str => value ++ [newline]) (repeat [] n))
  = repeat newline n.
Proof. induction n as [|n IH]; [reflexivity|]. simpl. rewrite IH. reflexivity. Qed.

(** X18: when every sequence is empty the far corner is the origin, which
    the constructor fills, so the reports take the engine for solved
    before any call of [solve]: the global one returns score 0 followed by
    one empty line per sequence, and the local one raises
    [UnboundLocalError], from reading the variable of a loop that has not
    run. *)
Theorem report_of_empty_sequences (ss : list str) (cfg : Config) :
  ss <> [] -> lengths ss = zeros ss ->
  (x <- NW.init ss cfg ;; NW.to_str x)
  = Ok ((NW.header ++ str_of_int 0 ++ [newline; newline])
        ++ repeat newline (length ss)) /\
  (x <- SW.init ss cfg ;; SW.to_str x) = Raise UnboundLocalError.
Proof.
  intros Hne Hz.
  destruct (fresh_matrix ss Hne) as (m & Hm & _ & Ho & _).
  split.
  - destruct (NW_init_ok ss cfg Hne) as (st & Hi). rewrite Hi. cbn [bind].
    destruct (NW_init_spec ss cfg st Hi) as (_ & m' & Hm' & ->).
    rewrite Hm in Hm'. injection Hm' as <-.
    unfold NW.to_str, NW.alignment, NW.path.
    cbn [NW.sequences NW.matrix]. rewrite Hz, Ho. cbn [bind score_of score].
    rewrite NW_trace_origin. cbn [bind app walk fst].
    rewrite concat_empty_lines. reflexivity.
  - destruct (SW_init_ok ss cfg Hne) as (st & Hi). rewrite Hi. cbn [bind].
    destruct (SW_init_spec ss cfg st Hi) as (_ & m' & Hm' & ->).
    rewrite Hm in Hm'. injection Hm' as <-.
    unfold SW.to_str.
    cbn [SW.sequences SW.matrix SW.bestcoordinate SW.bestscore].
    rewrite Hz, Ho. cbn [bind].
    rewrite SW_trace_origin. cbn [bind map walk]. reflexivity.
Qed.

Lemma report_of_empty_sequences_witness :
  (x <- NW.init [lit ""; lit ""] default_config ;; NW.to_str x)
  = Ok ((NW.header ++ str_of_int 0 ++ [newline; newline])
        ++ repeat newline (length [lit ""; lit ""])) /\
  (x <- SW.init [lit ""; lit ""] default_config ;; SW.to_str x)
  = Raise UnboundLocalError.
Proof.
  apply (report_of_empty_sequences [lit ""; lit ""] default_config).
  - discriminate.
  - reflexivity.
Defined.

Lemma SW_solved_report_unbound (ss : list str) (cfg : Config) (st : SW.t) :
  SW_inv ss cfg st -> unfinished ss (SW.counter st) = Ok false ->
  SW.bestscore st = 0 ->
  SW.to_str st = Raise UnboundLocalError.
Proof.
  intros (Hseq & Hcfg & T & Ho & _ & _ & Hbl & Hbr & Hbv & Hball) Hu Hb.
  assert (Hbc : SW.bestcoordinate st = zeros ss).
  { apply rank_zero_origin; [exact Hbl|].
    pose proof (rank_bounds ss _ Hbl) as Hb0.
    destruct (Z.eq_dec (rank ss (SW.bestcoordinate st)) 0) as [E|E];
      [exact E|exfalso].
    destruct (Hball (zeros ss) _ (zeros_in_lattice ss)
                (finished_rank ss _ _ _ T Hu (zeros_in_lattice ss)) Ho)
      as [_ Hlt].
    rewrite rank_zeros in Hlt. specialize (Hlt ltac:(lia)).
    cbn [score] in Hlt. lia. }
  destruct (traversal_finished ss _ _ T Hu _ (lengths_in_lattice ss)) as (v & Hv).
  unfold SW.to_str. rewrite Hseq, Hv, Hbc. cbn [bind].
  rewrite SW_trace_origin. cbn [bind map walk]. reflexivity.
Qed.

(** X19: once [SW.solve] has returned with best score 0, no cell having a
    positive score, the report raises [UnboundLocalError]: the best
    coordinate is still the origin, the loop over the steps of the path
    does not run, and the last comprehension reads its variable. *)
Theorem SW_report_without_match (ss : list str) (cfg : Config) (st0 st : SW.t) :
  startable ss -> SW.init ss cfg = Ok st0 -> SW.solve st0 = Ok st ->
  SW.bestscore st = 0 ->
  SW.to_str st = Raise UnboundLocalError.
Proof.
  intros Hs Hi Hsol Hb.
  destruct (SW_solve_total ss cfg Hs) as (st0' & st' & Hi' & Hsol' & Hr & Hu).
  rewrite Hi in Hi'. injection Hi' as <-.
  rewrite Hsol in Hsol'. injection Hsol' as <-.
  exact (SW_solved_report_unbound ss cfg st (SW_reach_inv ss cfg st Hs Hr) Hu Hb).
Qed.

Lemma SW_report_without_match_witness :
  SW.to_str example_apart_solved = Raise UnboundLocalError.
Proof.
  apply (SW_report_without_match [lit "A"; lit "C"] default_config
           example_apart example_apart_solved).
  - simpl. discriminate.
  - reflexivity.
  - reflexivity.
  - reflexivity.
Defined.

Lemma snoc_all_lengths (k : nat) :
  forall (rs : list str) (chars : str),
    length rs = length chars ->
    Forall (fun r => length r = k) rs ->
    length (snoc_all rs chars) = length rs /\
    Forall (fun r => length r = S k) (snoc_all rs chars).
Proof.
  induction rs as [|r rs IH]; intros [|ch chars] Hl Hk; simpl in Hl;
    try discriminate Hl; cbn [snoc_all length].
  - split; [reflexivity|constructor].
  - inversion Hk as [|? ? Hr Hrs]; subst.
    destruct (IH chars ltac:(lia) Hrs) as [H1 H2].
    split; [congruence|]. constructor; [|exact H2].
    rewrite length_app. simpl. lia.
Qed.

Lemma move_length (ss : list str) (c : list Z) (bp move : str) :
  bases ss c bp -> masks bp move -> in_lattice ss c ->
  length (map emit move) = length ss.
Proof.
  intros Hb Hm Hc.
  rewrite length_map, (masks_length _ _ Hm), (bases_length _ _ _ Hb).
  apply in_lattice_length. exact Hc.
Qed.

Lemma walk_backchain_lines (ss : list str) (cfg : Config) (m : pyval)
  (c : list Z) (path : list (list Z)) :
  backchain ss cfg m c path ->
  exists rs w,
    walk ss (map Some (path ++ [c])) (repeat [] (length ss)) None = Ok (rs, w) /\
    length rs = length ss /\
    Forall (fun r => length r = length path) rs.
Proof.
  intros Hbc.
  induction Hbc as [|c bp move vp path Hd Hc Hbs Hmk Hne Hvp Hget Hbc IH].
  - exists (repeat [] (length ss)), None. split; [reflexivity|].
    split; [apply repeat_length|]. apply Forall_forall.
    intros r Hr. apply repeat_spec in Hr. subst r. reflexivity.
  - destruct IH as (rs1 & w1 & Hw & Hl & Hk).
    pose proof (extend_strings_emit ss (generatecoordinates move c) c ss c bp Hbs
                  move rs1 0%nat Hmk Hc Hl eq_refl eq_refl eq_refl) as Hext.
    pose proof (move_length ss c bp move Hbs Hmk Hc) as Hml.
    destruct (snoc_all_lengths (length path) rs1 (map emit move)
                ltac:(congruence) Hk) as [H1 H2].
    exists (snoc_all rs1 (map emit move)),
      (Some (Some (generatecoordinates move c))).
    split; [|split; [congruence|]].
    + rewrite <- app_assoc. cbn [app]. rewrite map_app. cbn [map].
      rewrite walk_snoc. rewrite map_app in Hw. cbn [map] in Hw.
      rewrite Hw. cbn [bind fst]. rewrite Hext. reflexivity.
    + rewrite length_app. cbn [length]. rewrite Nat.add_1_r. exact H2.
Qed.

(** X20: when the traversal can start and every score of the solved
    matrix is above the initial [maxscore], the report of the solved
    global engine is the header, the score stored at the far corner, an
    empty line, and one line per sequence; the lines all have the same
    length, the number of steps of the path, which is at most the sum of
    the lengths of the sequences. *)
Theorem NW_report_lines (ss : list str) (cfg : Config) (st0 st : NW.t) :
  startable ss ->
  NW.init ss cfg = Ok st0 -> NW.solve st0 = Ok st ->
  above_maxscore (NW.matrix st) = true ->
  exists v lines k,
    retrievematrixelement (NW.matrix st) (lengths ss) = Ok (PScore v) /\
    NW.to_str st
    = Ok ((NW.header ++ str_of_int (score v) ++ [newline; newline])
          ++ concat (map (fun line => line ++ [newline]) lines)) /\
    length lines = length ss /\
    Forall (fun line => length line = k) lines /\
    (k <= total_length ss)%nat.
Proof.
  intros Hs Hi Hsol Ha.
  destruct (NW_solve_total ss cfg Hs) as (st0' & st' & Hi' & Hsol' & Hr & Hu).
  rewrite Hi in Hi'. injection Hi' as <-.
  rewrite Hsol in Hsol'. injection Hsol' as <-.
  pose proof (NW_reach_inv ss cfg st Hs Hr) as Hinv.
  pose proof Hinv as (Hss & _ & T & _).
  pose proof (above_maxscore_predecessors ss cfg st Hinv Hu Ha) as Hp.
  pose proof (coord_sum_bound ss _ (lengths_in_lattice ss)) as Hb.
  destruct (has_backchain ss cfg st Hinv Hu Hp (total_length ss) (lengths ss)
              (lengths_in_lattice ss) Hb) as (path & Hbc & Hlen).
  destruct (walk_backchain_lines ss cfg _ _ path Hbc) as (rs & w & Hw & Hl & Hk).
  destruct (traversal_finished ss _ _ T Hu _ (lengths_in_lattice ss)) as (v & Hv).
  exists v, rs, (length path).
  split; [exact Hv|]. split; [|split; [exact Hl|split; [exact Hk|lia]]].
  unfold NW.to_str, NW.alignment, NW.path. rewrite Hss, Hv.
  cbn [bind score_of].
  rewrite (trace_backchain ss cfg _ _ path Hbc) by lia.
  cbn [bind]. rewrite app_nil_r.
  change [Some (lengths ss)] with (map Some [lengths ss]). rewrite <- map_app.
  rewrite Hw. reflexivity.
Qed.

Lemma NW_report_lines_witness :
  exists v lines k,
    retrievematrixelement (NW.matrix example_steep_solved)
      (lengths [lit "AA"; lit "CC"]) = Ok (PScore v) /\
    NW.to_str example_steep_solved
    = Ok ((NW.header ++ str_of_int (score v) ++ [newline; newline])
          ++ concat (map (fun line => line ++ [newline]) lines)) /\
    length lines = length [lit "AA"; lit "CC"] /\
    Forall (fun line => length line = k) lines /\
    (k <= total_length [lit "AA"; lit "CC"])%nat.
Proof.
  apply (NW_report_lines [lit "AA"; lit "CC"] steep_config
           example_steep example_steep_solved).
  - simpl. discriminate.
  - vm_compute. reflexivity.
  - vm_compute. reflexivity.
  - vm_compute. reflexivity.
Defined.

Lemma solo_floor (ss : list str) (cfg : Config) (st : NW.t) :
  NW_inv ss cfg st -> unfinished ss (NW.counter st) = Ok false ->
  gapfree ss ->
  forall n c, in_lattice ss c -> Py.sum c <= Z.of_nat n ->
    exists v, retrievematrixelement (NW.matrix st) c = Ok (PScore v) /\
              Py.sum c * solo_score cfg (length ss) <= score v.
Proof.
  intros Hinv Hu Hg. pose proof Hinv as (Hss & Hcfg & T & R).
  induction n as [|n IH]; intros c Hc Hn.
  - pose proof (coord_sum_nonneg ss c Hc).
    assert (E : c = zeros ss) by (apply coord_sum_zero; [assumption|lia]).
    subst c. eexists. split; [exact (tr_origin _ _ _ T)|].
    rewrite sum_zeros. simpl. lia.
  - destruct (list_eq_dec Z.eq_dec c (zeros ss)) as [->|Hd].
    + eexists. split; [exact (tr_origin _ _ _ T)|].
      rewrite sum_zeros. simpl. lia.
    + destruct (R c Hc) as (cands & Hcands & Hget).
      { split; [apply rank_pos; assumption|].
        exact (finished_rank ss _ _ c T Hu Hc). }
      exists (NW_cell cands). split; [exact Hget|].
      pose proof Hcands as Hcs. unfold candidates in Hcs.
      destruct (generatebasepairs_spec ss c Hc) as (bp & Hbp & Hbs).
      rewrite Hbp in Hcs. cbn [bind] in Hcs.
      destruct (generatemoves bp) as [moves| |] eqn:Hmv; try discriminate.
      cbn [bind] in Hcs.
      pose proof (bases_has_symbol ss c bp Hbs Hc Hg Hd) as Hsym.
      assert (Hne : bp <> []) by (intros ->; discriminate Hmv).
      destruct (generatemoves_spec bp Hne) as (moves' & Hmv' & Hiff & _).
      rewrite Hmv in Hmv'. injection Hmv' as <-.
      assert (Hin : In (solo bp) moves)
        by (apply Hiff; split; [apply masks_solo|apply solo_not_allgap; exact Hsym]).
      destruct (candidates_of_member cfg _ c moves cands (solo bp) Hcs Hin)
        as (cand & Hcin & Hcand).
      destruct (predecessor_before ss c bp (solo bp) Hbs Hc (masks_solo bp)
                  (solo_not_allgap bp Hsym)) as (Hpl & Hprk).
      pose proof (solo_sum bp c (bases_length _ _ _ Hbs) Hsym) as Hsum.
      destruct (IH (generatecoordinates (solo bp) c) Hpl ltac:(lia))
        as (vp & Hvp & Hlow).
      unfold candidate in Hcand. rewrite Hvp in Hcand. cbn [bind score_of] in Hcand.
      injection Hcand as <-.
      rewrite (movescore_solo cfg bp Hsym) in Hcin.
      rewrite (bases_length _ _ _ Hbs), (in_lattice_length _ _ Hc) in Hcin.
      pose proof (peak_bound cands NW.sentinel) as Hpk.
      rewrite Forall_forall in Hpk. specialize (Hpk _ Hcin). cbn [snd] in Hpk.
      rewrite <- (NW_pick_peak cands NW.sentinel None) in Hpk.
      unfold NW_cell. destruct (NW_pick cands NW.sentinel None) as [ms bm].
      cbn [fst score] in *. rewrite Hsum in Hlow. lia.
Qed.

(** X21: when the traversal can start and no sequence contains ['_'],
    every score the solved global engine stores is at least what
    consuming the symbols of the coordinate one at a time, each against
    gaps in all other sequences, would give: the sum of the entries of the
    coordinate times the score of such a move. *)
Theorem NW_score_floor (ss : list str) (cfg : Config) (st0 st : NW.t)
  (c : list Z) :
  startable ss -> gapfree ss ->
  NW.init ss cfg = Ok st0 -> NW.solve st0 = Ok st ->
  in_lattice ss c ->
  exists v, retrievematrixelement (NW.matrix st) c = Ok (PScore v) /\
            Py.sum c * solo_score cfg (length ss) <= score v.
Proof.
  intros Hs Hg Hi Hsol Hc.
  destruct (NW_solve_total ss cfg Hs) as (st0' & st' & Hi' & Hsol' & Hr & Hu).
  rewrite Hi in Hi'. injection Hi' as <-.
  rewrite Hsol in Hsol'. injection Hsol' as <-.
  pose proof (NW_reach_inv ss cfg st Hs Hr) as Hinv.
  exact (solo_floor ss cfg st Hinv Hu Hg (total_length ss) c Hc
           (coord_sum_bound ss c Hc)).
Qed.

Lemma NW_score_floor_witness :
  exists v, retrievematrixelement (NW.matrix example_steep_solved) [2; 1]
            = Ok (PScore v) /\
            Py.sum [2; 1] * solo_score steep_config (length [lit "AA"; lit "CC"])
            <= score v.
Proof.
  apply (NW_score_floor [lit "AA"; lit "CC"] steep_config
           example_steep example_steep_solved [2; 1]).
  - simpl. discriminate.
  - repeat constructor; simpl; intuition discriminate.
  - vm_compute. reflexivity.
  - vm_compute. reflexivity.
  - lattice.
Defined.

(** ** The symbols of a coordinate *)

Lemma bases_entries (ss : list str) (c : list Z) (bp : str) :
  bases ss c bp -> in_lattice ss c ->
  forall i s x, nth_error ss i = Some s -> nth_error c i = Some x ->
    nth_error bp i
    = Some (if x =? 0 then gapc else nth (Z.to_nat (x - 1)) s gapc).
Proof.
  induction 1 as [ss|s ss c bp Hb IH|s ss u c ch bp Hu Hch Hb IH];
    intros Hl i s0 x Hs Hx.
  - destruct i; discriminate Hx.
  - inversion Hl; subst. destruct i as [|i]; simpl in Hs, Hx.
    + injection Hx as <-. reflexivity.
    + simpl. apply (IH ltac:(assumption) i s0 x Hs Hx).
  - inversion Hl as [|? ? ? ? Hr Hl']; subst.
    destruct i as [|i]; simpl in Hs, Hx.
    + injection Hx as <-. injection Hs as <-.
      apply Z.eqb_neq in Hu. rewrite Hu. simpl. f_equal.
      apply getitem_nonneg in Hch; [|lia].
      symmetry. apply nth_error_nth. exact Hch.
    + simpl. apply (IH Hl' i s0 x Hs Hx).
Qed.

(** X22: at a coordinate of the lattice [generatebasepairs] returns one
    character per sequence: the gap marker where the entry is 0, else the
    symbol of the sequence at the entry minus one; when no sequence
    contains ['_'], the characters other than the gap marker are as many
    as the positive entries. *)
Theorem generatebasepairs_entries (ss : list str) (c : list Z) :
  in_lattice ss c ->
  exists bp,
    generatebasepairs ss c = Ok bp /\
    length bp = length ss /\
    (forall i s x, nth_error ss i = Some s -> nth_error c i = Some x ->
       nth_error bp i
       = Some (if x =? 0 then gapc else nth (Z.to_nat (x - 1)) s gapc)) /\
    (gapfree ss -> nongaps bp = positives c).
Proof.
  intros Hc. destruct (generatebasepairs_spec ss c Hc) as (bp & Hbp & Hb).
  exists bp. split; [exact Hbp|]. split; [|split].
  - rewrite (bases_length _ _ _ Hb). apply in_lattice_length. exact Hc.
  - exact (bases_entries ss c bp Hb Hc).
  - intros Hg. exact (bases_nongaps ss c bp Hb Hc Hg).
Qed.

Lemma generatebasepairs_entries_witness :
  exists bp,
    generatebasepairs [lit "ABC"; lit "DEF"] [1; 2] = Ok bp /\
    length bp = length [lit "ABC"; lit "DEF"] /\
    (forall i s x, nth_error [lit "ABC"; lit "DEF"] i = Some s ->
       nth_error [1; 2] i = Some x ->
       nth_error bp i
       = Some (if x =? 0 then gapc else nth (Z.to_nat (x - 1)) s gapc)) /\
    (gapfree [lit "ABC"; lit "DEF"] -> nongaps bp = positives [1; 2]).
Proof.
  apply (generatebasepairs_entries [lit "ABC"; lit "DEF"] [1; 2]). lattice.
Defined.

(** ** The report of the local engine *)

Lemma SW_has_chain (ss : list str) (cfg : Config) (st : SW.t) :
  SW_inv ss cfg st -> unfinished ss (SW.counter st) = Ok false ->
  forall n c, in_lattice ss c -> Py.sum c <= Z.of_nat n ->
    exists start path, local_chain ss cfg (SW.matrix st) start c path.
Proof.
  intros (Hss & Hcfg & T & Ho & R & _) Hu.
  induction n as [|n IH]; intros c Hc Hn.
  - pose proof (coord_sum_nonneg ss c Hc).
    rewrite (coord_sum_zero ss c Hc) by lia.
    exists (zeros ss), []. constructor.
  - destruct (list_eq_dec Z.eq_dec c (zeros ss)) as [->|Hd].
    + exists (zeros ss), []. constructor.
    + destruct (R c Hc) as (cands & Hcands & Hget).
      { split; [apply rank_pos; assumption|].
        exact (finished_rank ss _ _ c T Hu Hc). }
      destruct (SW_cell_spec cands) as (_ & _ & Hnone & Hsome).
      destruct (Forall_Exists_dec (fun cand : list Z * Z => snd cand <= 0)
                  (fun cand => Z_le_dec (snd cand) 0) cands) as [Hall|Hex].
      * exists c, []. apply lc_start; [assumption|assumption|].
        rewrite Hget, (Hnone Hall). reflexivity.
      * destruct (Hsome ltac:(intros Hall; apply Exists_Forall_neg in Hex;
                                [exact (Hex Hall)|intros x; lia]))
          as (p & Hco & Hfm).
        apply first_max_in in Hfm.
        destruct (candidates_in ss cfg _ c cands p _ Hc Hcands Hfm)
          as (bp & move & vp & Hbs & Hmk & Hne & -> & Hvp & Hsc).
        destruct (predecessor_spec ss c bp move Hbs Hc Hmk) as (Hpl & _ & _).
        pose proof (predecessor_sum ss c bp move Hbs Hmk Hne) as Hlt.
        destruct (IH (generatecoordinates move c) Hpl ltac:(lia))
          as (start & path & Hch).
        exists start, (path ++ [generatecoordinates move c]).
        eapply lc_step; eauto.
        rewrite Hget. f_equal. f_equal.
        destruct (SW_cell cands) as [co sc]. simpl in *. congruence.
Qed.

Lemma coord_sum_pos (ss : list str) (c : list Z) :
  in_lattice ss c -> c <> zeros ss -> 0 < Py.sum c.
Proof.
  intros Hc Hd. pose proof (coord_sum_nonneg ss c Hc).
  destruct (Z.eq_dec (Py.sum c) 0) as [E|E]; [|lia].
  exfalso. apply Hd. apply coord_sum_zero; assumption.
Qed.

Lemma SW_trace_chain (ss : list str) (cfg : Config) (m : pyval)
  (start c : list Z) (path : list (list Z)) :
  local_chain ss cfg m start c path ->
  forall fuel acc, Py.sum c <= Z.of_nat fuel ->
    SW.trace fuel m (zeros ss) c acc = Ok (start, path ++ acc).
Proof.
  induction 1 as [|c Hc Hd Hget|start c bp move vp path Hd Hc Hbs Hmk Hne Hvp Hget Hch IH];
    intros fuel acc Hf.
  - apply SW_trace_origin.
  - pose proof (coord_sum_pos ss c Hc Hd).
    destruct fuel as [|fuel]; [lia|]. cbn [SW.trace].
    rewrite (proj2 (coord_eqb_neq _ _) Hd). cbn [negb].
    rewrite Hget. reflexivity.
  - pose proof (coord_sum_pos ss c Hc Hd).
    pose proof (predecessor_sum ss c bp move Hbs Hmk Hne) as Hlt.
    destruct fuel as [|fuel]; [lia|]. cbn [SW.trace].
    rewrite (proj2 (coord_eqb_neq _ _) Hd). cbn [negb].
    rewrite Hget. cbn [bind coordinate_of coordinate].
    rewrite IH by lia. rewrite <- app_assoc. reflexivity.
Qed.

Lemma window_start (ss : list str) (c : list Z) :
  in_lattice ss c -> window ss c c (repeat [] (length ss)).
Proof.
  induction 1 as [|s x ss c Hx Hc IH]; [constructor|].
  cbn [length repeat]. constructor; [lia|lia| |exact IH].
  rewrite skipn_all2; [reflexivity|]. rewrite length_firstn. lia.
Qed.

Lemma window_lattice (ss : list str) (start c : list Z) (rs : list str) :
  window ss start c rs ->
  in_lattice ss start /\ length rs = length ss /\ Forall2 Z.le start c.
Proof.
  induction 1 as [|s ss a start x c r rs Ha Hx Hr Hw IH].
  - repeat split; constructor.
  - destruct IH as (IH1 & IH2 & IH3). split; [constructor; [lia|exact IH1]|].
    split; [simpl; congruence|]. constructor; [lia|exact IH3].
Qed.

Lemma window_step (ss : list str) (c : list Z) (bp : str) :
  bases ss c bp ->
  forall move start rs,
    masks bp move -> in_lattice ss c -> dotfree ss ->
    window ss start (generatecoordinates move c) rs ->
    window ss start c (snoc_all rs (map emit move)).
Proof.
  induction 1 as [ss|s ss c0 bp Hb IH|s ss u c0 ch bp Hu Hch Hb IH];
    intros move start rs Hm Hl Hdot Hw;
    inversion Hm as [|? mi ? mv Hmi Hmv]; subst move.
  - inversion Hl; subst. simpl in Hw. inversion Hw; subst. constructor.
  - subst. assert (mi = gapc) by (destruct Hmi; assumption). subst mi.
    cbn [generatecoordinates] in Hw. rewrite Ascii.eqb_refl in Hw.
    inversion Hw as [|? ? a start0 ? ? r rs0 Ha Hx Hr Hw0]; subst.
    inversion Hl as [|? ? ? ? _ Hl0]; subst.
    inversion Hdot as [|? ? _ Hdot0]; subst.
    cbn [map snoc_all]. constructor; [exact Ha|exact Hx| |].
    + unfold emit. rewrite Ascii.eqb_refl. rewrite strip_snoc_dot. exact Hr.
    + exact (IH mv start0 rs0 Hmv Hl0 Hdot0 Hw0).
  - subst. cbn [generatecoordinates] in Hw.
    inversion Hl as [|? ? ? ? Hrange Hl0]; subst.
    inversion Hdot as [|? ? Hnodot Hdot0]; subst.
    inversion Hw as [|? ? a start0 ? ? r rs0 Ha Hx Hr Hw0]; subst.
    cbn [map snoc_all].
    pose proof (IH mv start0 rs0 Hmv Hl0 Hdot0 Hw0) as Hrest.
    unfold emit. destruct (Ascii.eqb mi gapc) eqn:E.
    + constructor; [exact Ha|exact Hx| |exact Hrest].
      rewrite strip_snoc_dot. exact Hr.
    + assert (mi = ch).
      { destruct Hmi as [E0 | ->]; [exact E0|]. rewrite Ascii.eqb_refl in E.
        discriminate E. }
      subst mi.
      assert (Hnth : nth_error s (Z.to_nat (u - 1)) = Some ch)
        by (apply getitem_nonneg; [lia|exact Hch]).
      assert (Hdotc : ch <> dotc).
      { intros ->. apply Hnodot. eapply nth_error_In; eauto. }
      constructor; [lia|lia| |exact Hrest].
      rewrite (strip_snoc_symbol r ch Hdotc), Hr.
      replace (Z.to_nat u) with (S (Z.to_nat (u - 1))) by lia.
      rewrite (firstn_snoc_nth s _ ch Hnth).
      rewrite skipn_app.
      assert (Hlen : length (firstn (Z.to_nat (u - 1)) s) = Z.to_nat (u - 1)).
      { apply firstn_length_le. apply Nat.lt_le_incl.
        apply nth_error_Some. rewrite Hnth. discriminate. }
      rewrite Hlen.
      replace (Z.to_nat a - Z.to_nat (u - 1))%nat with 0%nat by lia.
      reflexivity.
Qed.

Lemma last_origin_snoc (path : list (list Z)) (p : list Z) :
  last_origin (path ++ [p]) = Some (Some p).
Proof. unfold last_origin. rewrite rev_unit. reflexivity. Qed.

Lemma walk_chain (ss : list str) (cfg : Config) (m : pyval)
  (start c : list Z) (path : list (list Z)) :
  local_chain ss cfg m start c path -> dotfree ss ->
  exists rs,
    walk ss (map Some (path ++ [c])) (repeat [] (length ss)) None
    = Ok (rs, last_origin path) /\
    window ss start c rs.
Proof.
  intros Hch Hdot.
  induction Hch as [|c Hc Hd Hget|start c bp move vp path Hd Hc Hbs Hmk Hne Hvp Hget Hch IH].
  - exists (repeat [] (length ss)). split; [reflexivity|].
    apply window_start. apply zeros_in_lattice.
  - exists (repeat [] (length ss)). split; [reflexivity|].
    apply window_start. exact Hc.
  - destruct IH as (rs1 & Hw & Hwin).
    destruct (window_lattice _ _ _ _ Hwin) as (_ & Hl & _).
    pose proof (extend_strings_emit ss (generatecoordinates move c) c ss c bp Hbs
                  move rs1 0%nat Hmk Hc Hl eq_refl eq_refl eq_refl) as Hext.
    exists (snoc_all rs1 (map emit move)).
    split; [|exact (window_step ss c bp Hbs move start rs1 Hmk Hc Hdot Hwin)].
    rewrite last_origin_snoc.
    rewrite <- app_assoc. cbn [app]. rewrite map_app. cbn [map].
    rewrite walk_snoc. rewrite map_app in Hw. cbn [map] in Hw.
    rewrite Hw. cbn [bind fst]. rewrite Hext. reflexivity.
Qed.

Lemma flank_lines (whole : list Z) (big : Z) :
  Py.max whole = Ok big ->
  forall seqs origin resultstrings currentorigin,
    length origin = length seqs ->
    length resultstrings = length seqs ->
    length currentorigin = length seqs ->
    exists lines,
      SW.flank whole seqs origin resultstrings currentorigin = Ok lines /\
      length lines = length seqs /\
      forall i u v w x,
        nth_error seqs i = Some u -> nth_error origin i = Some v ->
        nth_error resultstrings i = Some w ->
        nth_error currentorigin i = Some x ->
        nth_error lines i
        = Some (Py.times " "%char (big - x) ++ slice_to u x ++ ["|"%char] ++ w
                ++ ["|"%char] ++ slice_from u (v + 1)).
Proof.
  intros Hmax.
  induction seqs as [|u seqs IH]; intros [|v origin] [|w rs] [|x cur] H1 H2 H3;
    simpl in H1, H2, H3; try discriminate.
  - exists []. split; [reflexivity|]. split; [reflexivity|].
    intros [|i] ? ? ? ? E; discriminate E.
  - destruct (IH origin rs cur ltac:(lia) ltac:(lia) ltac:(lia))
      as (lines & Hl & Hlen & Hnth).
    cbn [SW.flank]. rewrite Hmax, Hl. cbn [bind].
    eexists. split; [reflexivity|]. split; [simpl; congruence|].
    intros [|i] u0 v0 w0 x0 E1 E2 E3 E4; simpl in E1, E2, E3, E4.
    + injection E1 as <-. injection E2 as <-. injection E3 as <-.
      injection E4 as <-. reflexivity.
    + simpl. apply Hnth; assumption.
Qed.

Lemma chain_start (ss : list str) (cfg : Config) (m : pyval)
  (start c : list Z) (path : list (list Z)) :
  local_chain ss cfg m start c path ->
  retrievematrixelement m (zeros ss) = Ok (PScore (mkScore (Some (zeros ss)) 0)) ->
  exists v, retrievematrixelement m start = Ok (PScore v) /\ score v = 0.
Proof.
  induction 1 as [|c Hc Hd Hget|start c bp move vp path Hd Hc Hbs Hmk Hne Hvp Hget Hch IH];
    intros Ho.
  - eexists. split; [exact Ho|reflexivity].
  - eexists. split; [exact Hget|reflexivity].
  - exact (IH Ho).
Qed.

Lemma chain_last_step (ss : list str) (cfg : Config) (m : pyval)
  (start c : list Z) (path : list (list Z)) (v : Score) :
  local_chain ss cfg m start c path ->
  retrievematrixelement m (zeros ss) = Ok (PScore (mkScore (Some (zeros ss)) 0)) ->
  retrievematrixelement m c = Ok (PScore v) -> 0 < score v ->
  exists path' bp move,
    path = path' ++ [generatecoordinates move c] /\
    bases ss c bp /\ masks bp move /\
    coordinate v = Some (generatecoordinates move c).
Proof.
  intros Hch Ho Hv Hpos.
  destruct Hch as [|c Hc Hd Hget|start c bp move vp path Hd Hc Hbs Hmk Hne Hvp Hget Hch].
  - rewrite Ho in Hv. injection Hv as <-. simpl in Hpos. lia.
  - rewrite Hget in Hv. injection Hv as <-. simpl in Hpos. lia.
  - rewrite Hget in Hv. injection Hv as <-.
    exists path, bp, move. auto.
Qed.

Lemma predecessor_steps (move : str) :
  forall c, length move = length c ->
    Forall2 (fun p b => b = p \/ b = p + 1) (generatecoordinates move c) c.
Proof.
  induction move as [|u move IH]; intros [|v c] H; simpl in H;
    try discriminate H; cbn [generatecoordinates]; constructor.
  - destruct (Ascii.eqb u gapc); lia.
  - apply IH. lia.
Qed.

Lemma lattice_entry (ss : list str) (c : list Z) (i : nat) (x : Z) :
  in_lattice ss c -> nth_error c i = Some x -> 0 <= x.
Proof.
  intros H; revert i; induction H as [|s y ss c Hy Hc IH]; intros [|i] E;
    simpl in E; try discriminate E.
  - injection E as <-. lia.
  - exact (IH i E).
Qed.

Lemma map_empty_lines (ss : list str) :
  map (fun _ : str => @nil ascii) ss = repeat [] (length ss).
Proof. induction ss as [|s ss IH]; simpl; [reflexivity|]. rewrite IH. reflexivity. Qed.

(** X23: when the traversal can start and no sequence contains ['.'],
    the report of a local engine solved with a positive best score is the
    header, the best score, an empty line and one line per sequence.  The
    path goes from the best coordinate down the stored predecessors to a
    start, the origin or a cell of score 0.  The line of a sequence is
    padding to the largest entry of the start, the sequence up to its
    entry of the start, a bar, the window, a bar, and the sequence from
    one past its entry of the predecessor of the best coordinate; the
    window spells, gap markers apart, the sequence between its entries of
    the start and of the best coordinate. *)
Theorem SW_report_with_match (ss : list str) (cfg : Config) (st0 st : SW.t) :
  startable ss -> dotfree ss ->
  SW.init ss cfg = Ok st0 -> SW.solve st0 = Ok st ->
  0 < SW.bestscore st ->
  exists start pred windows lines big,
    SW.to_str st
    = Ok ((SW.header ++ str_of_int (SW.bestscore st) ++ [newline; newline])
          ++ concat (map (fun line => line ++ [newline]) lines)) /\
    retrievematrixelement (SW.matrix st) (SW.bestcoordinate st)
    = Ok (PScore (mkScore (Some pred) (SW.bestscore st))) /\
    Forall2 (fun p b => b = p \/ b = p + 1) pred (SW.bestcoordinate st) /\
    (exists v, retrievematrixelement (SW.matrix st) start = Ok (PScore v) /\
               score v = 0) /\
    window ss start (SW.bestcoordinate st) windows /\
    Py.max start = Ok big /\
    length lines = length ss /\
    forall i u a p w,
      nth_error ss i = Some u -> nth_error start i = Some a ->
      nth_error pred i = Some p -> nth_error windows i = Some w ->
      nth_error lines i
      = Some (Py.times " "%char (big - a) ++ firstn (Z.to_nat a) u
              ++ ["|"%char] ++ w ++ ["|"%char] ++ skipn (Z.to_nat (p + 1)) u).
Proof.
  intros Hs Hdot Hi Hsol Hpos.
  destruct (SW_solve_total ss cfg Hs) as (st0' & st' & Hi' & Hsol' & Hr & Hu).
  rewrite Hi in Hi'. injection Hi' as <-.
  rewrite Hsol in Hsol'. injection Hsol' as <-.
  pose proof (SW_reach_inv ss cfg st Hs Hr) as Hinv.
  pose proof Hinv as (Hseq & Hcfg & T & Ho & _ & _ & Hbl & Hbr & (vb & Hvb & Hsb) & _).
  pose proof (coord_sum_bound ss _ Hbl) as Hsum.
  destruct (SW_has_chain ss cfg st Hinv Hu (total_length ss) _ Hbl Hsum)
    as (start & path & Hch).
  rewrite <- Hsb in Hpos.
  destruct (chain_last_step ss cfg _ start _ path vb Hch Ho Hvb Hpos)
    as (path' & bp & move & -> & Hbs & Hmk & Hco).
  set (pred := generatecoordinates move (SW.bestcoordinate st)) in *.
  destruct (walk_chain ss cfg _ start _ _ Hch Hdot) as (rs & Hw & Hwin).
  destruct (window_lattice _ _ _ _ Hwin) as (Hsl & Hrl & _).
  destruct (predecessor_spec ss _ bp move Hbs Hbl Hmk) as (Hpl & _ & _).
  fold pred in Hpl.
  assert (Hmax : exists big, Py.max start = Ok big).
  { destruct start as [|x t]; [|eexists; reflexivity].
    apply in_lattice_length in Hsl. apply startable_nonempty in Hs.
    destruct ss; [contradiction Hs; reflexivity|discriminate Hsl]. }
  destruct Hmax as (big & Hmax).
  destruct (flank_lines start big Hmax ss pred rs start
              (in_lattice_length _ _ Hpl) Hrl (in_lattice_length _ _ Hsl))
    as (lines & Hfl & Hll & Hnth).
  destruct (traversal_finished ss _ _ T Hu _ (lengths_in_lattice ss)) as (v & Hv).
  exists start, pred, rs, lines, big.
  split; [|split; [|split; [|split; [|split; [|split; [|split]]]]]].
  - unfold SW.to_str. rewrite Hseq, Hv. cbn [bind].
    rewrite (SW_trace_chain ss cfg _ start _ _ Hch) by exact Hsum.
    cbn [bind]. rewrite map_empty_lines, Hw. cbn [bind].
    rewrite last_origin_snoc. cbn [bind]. rewrite Hfl. reflexivity.
  - rewrite Hvb. destruct vb as [co sc]. simpl in Hco, Hsb. subst. reflexivity.
  - apply predecessor_steps.
    rewrite (masks_length _ _ Hmk), (bases_length _ _ _ Hbs). reflexivity.
  - exact (chain_start ss cfg _ start _ _ Hch Ho).
  - exact Hwin.
  - exact Hmax.
  - exact Hll.
  - intros i u a p w E1 E2 E3 E4.
    etransitivity; [exact (Hnth i u p w a E1 E3 E4 E2)|].
    pose proof (lattice_entry ss start i a Hsl E2).
    pose proof (lattice_entry ss pred i p Hpl E3).
    unfold slice_to, slice_from.
    replace (a <? 0) with false by (symmetry; apply Z.ltb_ge; lia).
    replace (p + 1 <? 0) with false by (symmetry; apply Z.ltb_ge; lia).
    reflexivity.
Qed.

Lemma SW_report_with_match_witness :
  exists start pred windows lines big,
    SW.to_str example_local_solved
    = Ok ((SW.header ++ str_of_int (SW.bestscore example_local_solved)
           ++ [newline; newline])
          ++ concat (map (fun line => line ++ [newline]) lines)) /\
    retrievematrixelement (SW.matrix example_local_solved)
      (SW.bestcoordinate example_local_solved)
    = Ok (PScore (mkScore (Some pred) (SW.bestscore example_local_solved))) /\
    Forall2 (fun p b => b = p \/ b = p + 1) pred
      (SW.bestcoordinate example_local_solved) /\
    (exists v, retrievematrixelement (SW.matrix example_local_solved) start
               = Ok (PScore v) /\ score v = 0) /\
    window [lit "AC"; lit "GC"] start
      (SW.bestcoordinate example_local_solved) windows /\
    Py.max start = Ok big /\
    length lines = length [lit "AC"; lit "GC"] /\
    forall i u a p w,
      nth_error [lit "AC"; lit "GC"] i = Some u -> nth_error start i = Some a ->
      nth_error pred i = Some p -> nth_error windows i = Some w ->
      nth_error lines i
      = Some (Py.times " "%char (big - a) ++ firstn (Z.to_nat a) u
              ++ ["|"%char] ++ w ++ ["|"%char] ++ skipn (Z.to_nat (p + 1)) u).
Proof.
  apply (SW_report_with_match [lit "AC"; lit "GC"] default_config
           example_local example_local_solved).
  - simpl. discriminate.
  - repeat constructor; simpl; intuition discriminate.
  - reflexivity.
  - reflexivity.
  - reflexivity.
Defined.

(** ** Two sequences and the score of a pair of gaps *)

Lemma scorePair_twogaps (cfg : Config) (t : Z) (x0 x1 : ascii) :
  x0 <> gapc \/ x1 <> gapc ->
  scorePair (with_twogaps cfg t) (x0, x1) = scorePair cfg (x0, x1).
Proof.
  intros H. unfold scorePair.
  destruct (Ascii.eqb x0 x1 && Ascii.eqb x1 gapc) eqn:E; [|reflexivity].
  exfalso. apply andb_true_iff in E. destruct E as [E1 E2].
  apply Ascii.eqb_eq in E1, E2. subst. destruct H as [H|H]; apply H; reflexivity.
Qed.

Lemma movescore_twogaps (cfg : Config) (t : Z) (move : str) :
  length move = 2%nat -> move <> [gapc; gapc] ->
  movescore (with_twogaps cfg t) move = movescore cfg move.
Proof.
  intros Hl Hne. destruct move as [|m0 [|m1 [|? ?]]]; try discriminate Hl.
  unfold movescore. cbn [getallpairs map app Py.sum].
  rewrite scorePair_twogaps; [reflexivity|].
  destruct (ascii_dec m0 gapc) as [->|H0]; [|left; exact H0].
  destruct (ascii_dec m1 gapc) as [->|H1]; [|right; exact H1].
  exfalso. apply Hne. reflexivity.
Qed.

Lemma candidate_twogaps (cfg : Config) (t : Z) (m : pyval) (c : list Z)
  (move : str) :
  length move = 2%nat -> move <> [gapc; gapc] ->
  candidate (with_twogaps cfg t) m c move = candidate cfg m c move.
Proof.
  intros Hl Hne. unfold candidate. rewrite movescore_twogaps by assumption.
  reflexivity.
Qed.

Lemma NW_best_twogaps (cfg : Config) (t : Z) (m : pyval) (c : list Z)
  (moves : list str) :
  (forall move, In move moves -> length move = 2%nat /\ move <> [gapc; gapc]) ->
  forall ms bm,
    NW.best (with_twogaps cfg t) m c moves ms bm = NW.best cfg m c moves ms bm.
Proof.
  induction moves as [|move moves IH]; intros H ms bm; [reflexivity|].
  cbn [NW.best].
  destruct (H move (or_introl eq_refl)) as [Hl Hne].
  rewrite (candidate_twogaps cfg t m c move Hl Hne).
  destruct (candidate cfg m c move) as [[co ns]| |]; cbn [bind]; try reflexivity.
  destruct (ns >? ms); apply IH; intros mv Hin; apply H; right; exact Hin.
Qed.

Lemma SW_best_twogaps (cfg : Config) (t : Z) (m : pyval) (c : list Z)
  (moves : list str) :
  (forall move, In move moves -> length move = 2%nat /\ move <> [gapc; gapc]) ->
  forall acc0,
    SW.best (with_twogaps cfg t) m c moves acc0 = SW.best cfg m c moves acc0.
Proof.
  induction moves as [|move moves IH]; intros H acc0; [reflexivity|].
  cbn [SW.best].
  destruct (H move (or_introl eq_refl)) as [Hl Hne].
  rewrite (candidate_twogaps cfg t m c move Hl Hne).
  destruct (candidate cfg m c move) as [[co ns]| |]; cbn [bind]; try reflexivity.
  apply IH; intros mv Hin; apply H; right; exact Hin.
Qed.

Lemma generatebasepairs_from_length (ss : list str) (x : list Z) :
  forall v bp, generatebasepairs_from ss v x = Ok bp -> length bp = length x.
Proof.
  induction x as [|u x IH]; intros v bp H; cbn [generatebasepairs_from] in H.
  - injection H as <-. reflexivity.
  - destruct (u =? 0).
    + destruct (generatebasepairs_from ss (S v) x) as [rest| |] eqn:E;
        cbn [bind] in H; try discriminate H.
      injection H as <-. simpl. f_equal. exact (IH _ _ E).
    + destruct (getitem ss (Z.of_nat v)) as [s| |]; cbn [bind] in H;
        try discriminate H.
      destruct (getitem s (u - 1)) as [ch| |]; cbn [bind] in H;
        try discriminate H.
      destruct (generatebasepairs_from ss (S v) x) as [rest| |] eqn:E;
        cbn [bind] in H; try discriminate H.
      injection H as <-. simpl. f_equal. exact (IH _ _ E).
Qed.

Lemma pair_moves (bp : str) (moves : list str) :
  length bp = 2%nat -> generatemoves bp = Ok moves ->
  forall move, In move moves -> length move = 2%nat /\ move <> [gapc; gapc].
Proof.
  intros Hl Hm move Hin.
  destruct (generatemoves_spec bp) as (moves' & Hm' & Hspec & _);
    [destruct bp; [discriminate Hl|discriminate]|].
  rewrite Hm in Hm'. injection Hm' as <-.
  apply Hspec in Hin. destruct Hin as [Hmk Hne]. rewrite Hl in Hne.
  split; [|exact Hne]. rewrite (masks_length _ _ Hmk). exact Hl.
Qed.

Lemma carry_length (ss : list str) :
  forall c, length (carry ss c) = length c.
Proof.
  induction ss as [|s ss IH]; intros c; [destruct c; reflexivity|].
  destruct ss as [|s' ss]; [destruct c; reflexivity|].
  destruct c as [|x [|y c]]; try reflexivity.
  change (carry (s :: s' :: ss) (x :: y :: c))
    with (if x =? len s + 1 then 0 :: carry (s' :: ss) ((y + 1) :: c)
          else x :: carry (s' :: ss) (y :: c)).
  destruct (x =? len s + 1); cbn [length]; rewrite IH; reflexivity.
Qed.

Lemma increase_length (ss : list str) (c : list Z) :
  length (increase ss c) = length c.
Proof.
  destruct c as [|x c]; [reflexivity|]. unfold increase.
  rewrite carry_length. reflexivity.
Qed.

Lemma NW_step_twogaps (t : Z) (st : NW.t) :
  length (NW.counter st) = 2%nat ->
  NW.step (NW_retarget t st) = (s <- NW.step st ;; Ok (NW_retarget t s)) /\
  (forall s, NW.step st = Ok s -> length (NW.counter s) = 2%nat).
Proof.
  intros Hl. unfold NW.step. cbn [NW_retarget NW.sequences NW.config NW.matrix NW.counter].
  destruct (generatebasepairs (NW.sequences st) (NW.counter st)) as [bp| |] eqn:Hbp;
    cbn [bind]; try (split; [reflexivity|discriminate]).
  pose proof (generatebasepairs_from_length _ _ _ _ Hbp) as Hbl. rewrite Hl in Hbl.
  destruct (generatemoves bp) as [moves| |] eqn:Hm; cbn [bind];
    try (split; [reflexivity|discriminate]).
  rewrite (NW_best_twogaps (NW.config st) t _ _ moves (pair_moves bp moves Hbl Hm)).
  destruct (NW.best (NW.config st) (NW.matrix st) (NW.counter st) moves
              NW.sentinel None) as [[ms bm]| |]; cbn [bind];
    try (split; [reflexivity|discriminate]).
  destruct (enterelement (NW.matrix st) (NW.counter st) (PScore (mkScore bm ms)))
    as [m'| |]; cbn [bind]; try (split; [reflexivity|discriminate]).
  split; [reflexivity|]. intros s E. injection E as <-.
  cbn [NW.counter]. rewrite increase_length. exact Hl.
Qed.

Lemma SW_step_twogaps (t : Z) (st : SW.t) :
  length (SW.counter st) = 2%nat ->
  SW.step (SW_retarget t st) = (s <- SW.step st ;; Ok (SW_retarget t s)) /\
  (forall s, SW.step st = Ok s -> length (SW.counter s) = 2%nat).
Proof.
  intros Hl. unfold SW.step.
  cbn [SW_retarget SW.sequences SW.config SW.matrix SW.counter SW.bestscore
       SW.bestcoordinate].
  destruct (generatebasepairs (SW.sequences st) (SW.counter st)) as [bp| |] eqn:Hbp;
    cbn [bind]; try (split; [reflexivity|discriminate]).
  pose proof (generatebasepairs_from_length _ _ _ _ Hbp) as Hbl. rewrite Hl in Hbl.
  destruct (generatemoves bp) as [moves| |] eqn:Hm; cbn [bind];
    try (split; [reflexivity|discriminate]).
  rewrite (SW_best_twogaps (SW.config st) t _ _ moves (pair_moves bp moves Hbl Hm)).
  destruct (SW.best (SW.config st) (SW.matrix st) (SW.counter st) moves
              (SW.mkAcc 0 None (SW.bestscore st) (SW.bestcoordinate st)))
    as [acc1| |]; cbn [bind]; try (split; [reflexivity|discriminate]).
  destruct (enterelement (SW.matrix st) (SW.counter st)
              (PScore (mkScore (SW.bestmove acc1) (SW.maxscore acc1))))
    as [m'| |]; cbn [bind]; try (split; [reflexivity|discriminate]).
  split; [reflexivity|]. intros s E. injection E as <-.
  cbn [SW.counter]. rewrite increase_length. exact Hl.
Qed.

Lemma NW_solve_loop_twogaps (t : Z) (fuel : nat) :
  forall st, length (NW.counter st) = 2%nat ->
    NW.solve_loop fuel (NW_retarget t st)
    = (s <- NW.solve_loop fuel st ;; Ok (NW_retarget t s)).
Proof.
  induction fuel as [|fuel IH]; intros st Hl; [reflexivity|].
  cbn [NW.solve_loop]. cbn [NW_retarget NW.sequences NW.counter].
  destruct (unfinished (NW.sequences st) (NW.counter st)) as [[|]| |];
    cbn [bind]; try reflexivity.
  destruct (NW_step_twogaps t st Hl) as [Hstep Hlen].
  change (NW.step (NW.mk (NW.sequences st) (with_twogaps (NW.config st) t)
                     (NW.matrix st) (NW.counter st)))
    with (NW.step (NW_retarget t st)).
  rewrite Hstep.
  destruct (NW.step st) as [s| |]; cbn [bind]; try reflexivity.
  apply IH. apply Hlen. reflexivity.
Qed.

Lemma SW_solve_loop_twogaps (t : Z) (fuel : nat) :
  forall st, length (SW.counter st) = 2%nat ->
    SW.solve_loop fuel (SW_retarget t st)
    = (s <- SW.solve_loop fuel st ;; Ok (SW_retarget t s)).
Proof.
  induction fuel as [|fuel IH]; intros st Hl; [reflexivity|].
  cbn [SW.solve_loop]. cbn [SW_retarget SW.sequences SW.counter].
  destruct (unfinished (SW.sequences st) (SW.counter st)) as [[|]| |];
    cbn [bind]; try reflexivity.
  destruct (SW_step_twogaps t st Hl) as [Hstep Hlen].
  change (SW.step (SW.mk (SW.sequences st) (with_twogaps (SW.config st) t)
                     (SW.matrix st) (SW.counter st) (SW.bestscore st)
                     (SW.bestcoordinate st)))
    with (SW.step (SW_retarget t st)).
  rewrite Hstep.
  destruct (SW.step st) as [s| |]; cbn [bind]; try reflexivity.
  apply IH. apply Hlen. reflexivity.
Qed.

(** X24: with two sequences the weight [twogaps] plays no part: a move
    never pairs two gaps, so constructing, solving and reporting give the
    same outcome, report or exception, whatever its value, in both
    engines. *)
Theorem twogaps_unused_for_two (a b : str) (cfg : Config) (t : Z) :
  (x <- NW.init [a; b] (with_twogaps cfg t) ;; x' <- NW.solve x ;; NW.to_str x')
  = (x <- NW.init [a; b] cfg ;; x' <- NW.solve x ;; NW.to_str x') /\
  (x <- SW.init [a; b] (with_twogaps cfg t) ;; x' <- SW.solve x ;; SW.to_str x')
  = (x <- SW.init [a; b] cfg ;; x' <- SW.solve x ;; SW.to_str x').
Proof.
  split.
  - unfold NW.init.
    destruct (initializeMatrix [a; b]) as [m0| |]; cbn [bind]; try reflexivity.
    destruct (enterelement m0 (zeros [a; b])
                (PScore (mkScore (Some (zeros [a; b])) 0))) as [m| |];
      cbn [bind]; try reflexivity.
    pose (s0 := NW.mk [a; b] cfg m [1; 0]).
    change (x' <- NW.solve_loop (lattice_size [a; b]) (NW_retarget t s0) ;;
            NW.to_str x'
            = (x' <- NW.solve_loop (lattice_size [a; b]) s0 ;; NW.to_str x')).
    rewrite (NW_solve_loop_twogaps t (lattice_size [a; b]) s0 eq_refl).
    destruct (NW.solve_loop (lattice_size [a; b]) s0) as [s| |];
      cbn [bind]; reflexivity.
  - unfold SW.init.
    destruct (initializeMatrix [a; b]) as [m0| |]; cbn [bind]; try reflexivity.
    destruct (enterelement m0 (zeros [a; b])
                (PScore (mkScore (Some (zeros [a; b])) 0))) as [m| |];
      cbn [bind]; try reflexivity.
    pose (s0 := SW.mk [a; b] cfg m [1; 0] 0 (zeros [a; b])).
    change (x' <- SW.solve_loop (lattice_size [a; b]) (SW_retarget t s0) ;;
            SW.to_str x'
            = (x' <- SW.solve_loop (lattice_size [a; b]) s0 ;; SW.to_str x')).
    rewrite (SW_solve_loop_twogaps t (lattice_size [a; b]) s0 eq_refl).
    destruct (SW.solve_loop (lattice_size [a; b]) s0) as [s| |];
      cbn [bind]; reflexivity.
Qed.

(** ** Sequences with nothing in common *)

Lemma move_entry (ss : list str) (c : list Z) (bp : str) :
  bases ss c bp ->
  forall move, masks bp move ->
  forall i x, nth_error move i = Some x -> x <> gapc ->
    exists s, nth_error ss i = Some s /\ In x s.
Proof.
  induction 1 as [ss|s ss c0 bp Hb IH|s ss u c0 ch bp Hu Hch Hb IH];
    intros move Hm i x Hx Hg;
    inversion Hm as [|? mi ? mv Hmi Hmv]; subst move.
  - destruct i; discriminate Hx.
  - subst. destruct i as [|i]; simpl in Hx.
    + injection Hx as <-. exfalso. apply Hg. destruct Hmi; assumption.
    + exact (IH mv Hmv i x Hx Hg).
  - subst. destruct i as [|i]; simpl in Hx.
    + injection Hx as <-. exists s. split; [reflexivity|].
      destruct Hmi as [->|E]; [|contradiction].
      eapply getitem_In; eauto.
    + exact (IH mv Hmv i x Hx Hg).
Qed.

Lemma sum_nonpos (l : list Z) : Forall (fun z => z <= 0) l -> Py.sum l <= 0.
Proof. induction 1; simpl; lia. Qed.

Lemma movescore_nonpos (ss : list str) (cfg : Config) (c : list Z)
  (bp move : str) :
  apart ss -> mismatch cfg <= 0 -> gap cfg <= 0 -> twogaps cfg <= 0 ->
  bases ss c bp -> masks bp move ->
  movescore cfg move <= 0.
Proof.
  intros Hap Hmis Hgap Htwo Hbs Hmk. unfold movescore.
  apply sum_nonpos. apply Forall_forall. intros z Hz.
  apply in_map_iff in Hz. destruct Hz as ([x y] & <- & Hin).
  apply getallpairs_in in Hin. destruct Hin as (i & j & Hij & Hi & Hj).
  unfold scorePair.
  destruct (Ascii.eqb x y && Ascii.eqb y gapc); [exact Htwo|].
  destruct (Ascii.eqb_spec x gapc) as [Hx|Hx]; [exact Hgap|].
  destruct (Ascii.eqb_spec y gapc) as [Hy|Hy]; [exact Hgap|].
  cbn [orb]. destruct (Ascii.eqb_spec x y) as [->|_]; [|exact Hmis].
  exfalso.
  destruct (move_entry ss c bp Hbs move Hmk i y Hi Hy) as (s & Hs & Hys).
  destruct (move_entry ss c bp Hbs move Hmk j y Hj Hy) as (s' & Hs' & Hys').
  exact (Hap i j s s' y Hij Hs Hs' Hys Hys').
Qed.

Lemma SW_scores_vanish (ss : list str) (cfg : Config) (st : SW.t) :
  SW_inv ss cfg st -> unfinished ss (SW.counter st) = Ok false ->
  apart ss -> mismatch cfg <= 0 -> gap cfg <= 0 -> twogaps cfg <= 0 ->
  forall n c, in_lattice ss c -> Py.sum c <= Z.of_nat n ->
    exists v, retrievematrixelement (SW.matrix st) c = Ok (PScore v) /\
              score v = 0.
Proof.
  intros (Hss & Hcfg & T & Ho & R & _) Hu Hap Hmis Hgap Htwo.
  induction n as [|n IH]; intros c Hc Hn.
  - pose proof (coord_sum_nonneg ss c Hc).
    rewrite (coord_sum_zero ss c Hc) by lia.
    eexists. split; [exact Ho|reflexivity].
  - destruct (list_eq_dec Z.eq_dec c (zeros ss)) as [->|Hd].
    + eexists. split; [exact Ho|reflexivity].
    + destruct (R c Hc) as (cands & Hcands & Hget).
      { split; [apply rank_pos; assumption|].
        exact (finished_rank ss _ _ c T Hu Hc). }
      eexists. split; [exact Hget|].
      destruct (SW_cell_spec cands) as (Hpeak & _).
      rewrite Hpeak. apply peak_floor.
      apply Forall_forall. intros [p s] Hin. cbn [snd].
      destruct (candidates_in ss cfg _ c cands p s Hc Hcands Hin)
        as (bp & move & vp & Hbs & Hmk & Hne & -> & Hvp & ->).
      destruct (predecessor_spec ss c bp move Hbs Hc Hmk) as (Hpl & _ & _).
      pose proof (predecessor_sum ss c bp move Hbs Hmk Hne) as Hlt.
      destruct (IH (generatecoordinates move c) Hpl ltac:(lia)) as (v0 & Hv0 & Hz).
      rewrite Hvp in Hv0. injection Hv0 as <-. rewrite Hz.
      pose proof (movescore_nonpos ss cfg c bp move Hap Hmis Hgap Htwo Hbs Hmk).
      lia.
Qed.

(** X25: when no symbol occurs in two of the sequences and none of the
    weights for a mismatch, a gap and a pair of gaps is positive,
    [SW.solve] returns with score 0 in every cell of the matrix and best
    score 0, and asking the solved engine for its report raises
    [UnboundLocalError] instead of reporting an empty alignment; so does
    [main] of sw.py on two or more such sequences. *)
Theorem SW_nothing_in_common (ss : list str) (cfg : Config) :
  startable ss -> apart ss ->
  mismatch cfg <= 0 -> gap cfg <= 0 -> twogaps cfg <= 0 ->
  exists st0 st,
    SW.init ss cfg = Ok st0 /\ SW.solve st0 = Ok st /\
    (forall c, in_lattice ss c ->
       exists v, retrievematrixelement (SW.matrix st) c = Ok (PScore v) /\
                 score v = 0) /\
    SW.bestscore st = 0 /\
    SW.to_str st = Raise UnboundLocalError /\
    ((2 <= length ss)%nat -> cfg = default_config ->
     SW.main ss = Raise UnboundLocalError).
Proof.
  intros Hs Hap Hmis Hgap Htwo.
  destruct (SW_solve_total ss cfg Hs) as (st0 & st & Hi & Hsol & Hr & Hu).
  pose proof (SW_reach_inv ss cfg st Hs Hr) as Hinv.
  assert (Hzero : forall c, in_lattice ss c ->
            exists v, retrievematrixelement (SW.matrix st) c = Ok (PScore v) /\
                      score v = 0).
  { intros c Hc.
    exact (SW_scores_vanish ss cfg st Hinv Hu Hap Hmis Hgap Htwo
             (total_length ss) c Hc (coord_sum_bound ss c Hc)). }
  assert (Hbest : SW.bestscore st = 0).
  { pose proof Hinv as (_ & _ & _ & _ & _ & _ & Hbl & _ & (vb & Hvb & <-) & _).
    destruct (Hzero _ Hbl) as (v0 & Hv0 & Hz).
    rewrite Hvb in Hv0. injection Hv0 as <-. exact Hz. }
  pose proof (SW_solved_report_unbound ss cfg st Hinv Hu Hbest) as Hrep.
  exists st0, st. split; [exact Hi|]. split; [exact Hsol|].
  split; [exact Hzero|]. split; [exact Hbest|]. split; [exact Hrep|].
  intros Hlen ->. unfold SW.main.
  replace (len ss <=? 1) with false
    by (symmetry; apply Z.leb_gt; unfold len; lia).
  rewrite Hi. cbn [bind]. rewrite Hsol. cbn [bind]. exact Hrep.
Qed.

Lemma SW_nothing_in_common_witness :
  exists st0 st,
    SW.init [lit "AT"; lit "CG"] default_config = Ok st0 /\
    SW.solve st0 = Ok st /\
    (forall c, in_lattice [lit "AT"; lit "CG"] c ->
       exists v, retrievematrixelement (SW.matrix st) c = Ok (PScore v) /\
                 score v = 0) /\
    SW.bestscore st = 0 /\
    SW.to_str st = Raise UnboundLocalError /\
    ((2 <= length [lit "AT"; lit "CG"])%nat -> default_config = default_config ->
     SW.main [lit "AT"; lit "CG"] = Raise UnboundLocalError).
Proof.
  apply (SW_nothing_in_common [lit "AT"; lit "CG"] default_config).
  - simpl. discriminate.
  - intros i j s s' x Hij Hs Hs' Hx Hx'.
    destruct i as [|[|i]]; destruct j as [|[|j]]; simpl in Hs, Hs';
      try lia; try (destruct i; discriminate Hs);
      try (destruct j; discriminate Hs').
    injection Hs as <-. injection Hs' as <-.
    simpl in Hx, Hx'. intuition (subst; discriminate).
  - simpl. lia.
  - simpl. lia.
  - simpl. lia.
Defined.

(** ** The score of the reported columns *)

Lemma unemit_emit (mv : ascii) : mv <> dotc -> unemit (emit mv) = mv.
Proof.
  intros H. unfold emit, unemit.
  destruct (Ascii.eqb_spec mv gapc) as [->|Hg].
  - rewrite Ascii.eqb_refl. reflexivity.
  - apply Ascii.eqb_neq in H. rewrite H. reflexivity.
Qed.

Lemma unemit_emit_move (move : str) :
  Forall (fun mv => mv <> dotc) move -> map unemit (map emit move) = move.
Proof.
  induction 1 as [|mv move H _ IH]; [reflexivity|].
  cbn [map]. rewrite (unemit_emit mv H), IH. reflexivity.
Qed.

Lemma snoc_all_length (rs : list str) (chars : str) :
  length rs = length chars -> length (snoc_all rs chars) = length rs.
Proof.
  revert chars; induction rs as [|r rs IH]; intros [|ch chars] H; simpl in H;
    try discriminate H; [reflexivity|].
  cbn [snoc_all length]. rewrite IH by lia. reflexivity.
Qed.

Lemma lines_of_snoc (n : nat) (cols : list str) (col : str) :
  lines_of n (cols ++ [col]) = snoc_all (lines_of n cols) col.
Proof. unfold lines_of. rewrite fold_left_app. reflexivity. Qed.

Lemma lines_of_length (n : nat) (cols : list str) :
  Forall (fun col => length col = n) cols -> length (lines_of n cols) = n.
Proof.
  induction cols as [|col cols IH] using rev_ind; intros H.
  - apply repeat_length.
  - apply Forall_app in H. destruct H as [H1 H2].
    inversion H2 as [|? ? Hc _]; subst.
    rewrite lines_of_snoc, snoc_all_length; [exact (IH H1)|].
    rewrite (IH H1). reflexivity.
Qed.

Lemma columns_score_snoc (cfg : Config) (cols : list str) (move : str) :
  Forall (fun mv => mv <> dotc) move ->
  columns_score cfg (cols ++ [map emit move])
  = columns_score cfg cols + movescore cfg move.
Proof.
  intros H. unfold columns_score. rewrite map_app, sum_app. cbn [map Py.sum].
  rewrite (unemit_emit_move move H), Z.add_0_r. reflexivity.
Qed.

Lemma walk_backchain_columns (ss : list str) (cfg : Config) (m : pyval)
  (c : list Z) (path : list (list Z)) :
  backchain ss cfg m c path -> dotfree ss ->
  retrievematrixelement m (zeros ss) = Ok (PScore (mkScore (Some (zeros ss)) 0)) ->
  exists cols w v,
    walk ss (map Some (path ++ [c])) (repeat [] (length ss)) None
    = Ok (lines_of (length ss) cols, w) /\
    Forall (fun col => length col = length ss) cols /\
    length cols = length path /\
    retrievematrixelement m c = Ok (PScore v) /\
    score v = columns_score cfg cols.
Proof.
  intros Hbc Hdot Hor.
  induction Hbc as [|c bp move vp path Hd Hc Hbs Hmk Hne Hvp Hget Hbc IH].
  - exists [], None. eexists. split; [reflexivity|].
    split; [constructor|]. split; [reflexivity|]. split; [exact Hor|reflexivity].
  - destruct IH as (cols & w & v & Hw & Hcl & Hn & Hv & Hsc).
    rewrite Hvp in Hv. injection Hv as <-.
    pose proof (moves_without_dot _ _ _ _ Hbs Hmk Hdot) as Hnodot.
    pose proof (move_length ss c bp move Hbs Hmk Hc) as Hml.
    pose proof (extend_strings_emit ss (generatecoordinates move c) c ss c bp Hbs
                  move (lines_of (length ss) cols) 0%nat Hmk Hc
                  (lines_of_length _ _ Hcl) eq_refl eq_refl eq_refl) as Hext.
    exists (cols ++ [map emit move]),
      (Some (Some (generatecoordinates move c))).
    eexists. split; [|split; [|split; [|split; [exact Hget|]]]].
    + rewrite lines_of_snoc.
      rewrite <- app_assoc. cbn [app]. rewrite map_app. cbn [map].
      rewrite walk_snoc. rewrite map_app in Hw. cbn [map] in Hw.
      rewrite Hw. cbn [bind fst]. rewrite Hext. reflexivity.
    + apply Forall_app. split; [exact Hcl|]. constructor; [exact Hml|constructor].
    + rewrite !length_app. simpl. lia.
    + rewrite (columns_score_snoc cfg cols move Hnodot), <- Hsc. reflexivity.
Qed.

(** X26: when the traversal can start, no sequence contains ['.'] and
    every score of the solved matrix is above the initial [maxscore], the
    lines that the solved global engine reports are the rows of a list of
    columns, one character per sequence each, and the score stored at the
    far corner is the sum over these columns of the scores of all pairs of
    characters of a column, ['.'] counting as a gap. *)
Theorem NW_score_of_columns (ss : list str) (cfg : Config) (st0 st : NW.t) :
  startable ss -> dotfree ss ->
  NW.init ss cfg = Ok st0 -> NW.solve st0 = Ok st ->
  above_maxscore (NW.matrix st) = true ->
  exists v cols,
    retrievematrixelement (NW.matrix st) (lengths ss) = Ok (PScore v) /\
    NW.alignment st = Ok (lines_of (length ss) cols) /\
    Forall (fun col => length col = length ss) cols /\
    score v = columns_score cfg cols.
Proof.
  intros Hs Hdot Hi Hsol Ha.
  destruct (NW_solve_total ss cfg Hs) as (st0' & st' & Hi' & Hsol' & Hr & Hu).
  rewrite Hi in Hi'. injection Hi' as <-.
  rewrite Hsol in Hsol'. injection Hsol' as <-.
  pose proof (NW_reach_inv ss cfg st Hs Hr) as Hinv.
  pose proof Hinv as (Hss & _ & T & _).
  pose proof (above_maxscore_predecessors ss cfg st Hinv Hu Ha) as Hp.
  pose proof (coord_sum_bound ss _ (lengths_in_lattice ss)) as Hb.
  destruct (has_backchain ss cfg st Hinv Hu Hp (total_length ss) (lengths ss)
              (lengths_in_lattice ss) Hb) as (path & Hbc & Hlen).
  destruct (walk_backchain_columns ss cfg _ _ path Hbc Hdot (tr_origin _ _ _ T))
    as (cols & w & v & Hw & Hcl & _ & Hv & Hsc).
  exists v, cols. split; [exact Hv|]. split; [|split; [exact Hcl|exact Hsc]].
  unfold NW.alignment, NW.path. rewrite Hss.
  rewrite (trace_backchain ss cfg _ _ path Hbc) by lia.
  cbn [bind]. rewrite app_nil_r.
  change [Some (lengths ss)] with (map Some [lengths ss]). rewrite <- map_app.
  rewrite Hw. reflexivity.
Qed.

Lemma NW_score_of_columns_witness :
  exists v cols,
    retrievematrixelement (NW.matrix example_steep_solved)
      (lengths [lit "AA"; lit "CC"]) = Ok (PScore v) /\
    NW.alignment example_steep_solved
    = Ok (lines_of (length [lit "AA"; lit "CC"]) cols) /\
    Forall (fun col => length col = length [lit "AA"; lit "CC"]) cols /\
    score v = columns_score steep_config cols.
Proof.
  apply (NW_score_of_columns [lit "AA"; lit "CC"] steep_config
           example_steep example_steep_solved).
  - simpl. discriminate.
  - repeat constructor; simpl; intuition discriminate.
  - vm_compute. reflexivity.
  - vm_compute. reflexivity.
  - vm_compute. reflexivity.
Defined.

Lemma walk_chain_columns (ss : list str) (cfg : Config) (m : pyval)
  (start c : list Z) (path : list (list Z)) :
  local_chain ss cfg m start c path -> dotfree ss ->
  retrievematrixelement m (zeros ss) = Ok (PScore (mkScore (Some (zeros ss)) 0)) ->
  exists cols v,
    walk ss (map Some (path ++ [c])) (repeat [] (length ss)) None
    = Ok (lines_of (length ss) cols, last_origin path) /\
    Forall (fun col => length col = length ss) cols /\
    length cols = length path /\
    retrievematrixelement m c = Ok (PScore v) /\
    score v = columns_score cfg cols.
Proof.
  intros Hch Hdot Hor.
  induction Hch as [|c Hc Hd Hget|start c bp move vp path Hd Hc Hbs Hmk Hne Hvp Hget Hch IH].
  - exists []. eexists. split; [reflexivity|].
    split; [constructor|]. split; [reflexivity|]. split; [exact Hor|reflexivity].
  - exists []. eexists. split; [reflexivity|].
    split; [constructor|]. split; [reflexivity|]. split; [exact Hget|reflexivity].
  - destruct IH as (cols & v & Hw & Hcl & Hn & Hv & Hsc).
    rewrite Hvp in Hv. injection Hv as <-.
    pose proof (moves_without_dot _ _ _ _ Hbs Hmk Hdot) as Hnodot.
    pose proof (move_length ss c bp move Hbs Hmk Hc) as Hml.
    pose proof (extend_strings_emit ss (generatecoordinates move c) c ss c bp Hbs
                  move (lines_of (length ss) cols) 0%nat Hmk Hc
                  (lines_of_length _ _ Hcl) eq_refl eq_refl eq_refl) as Hext.
    exists (cols ++ [map emit move]).
    eexists. split; [|split; [|split; [|split; [exact Hget|]]]].
    + rewrite lines_of_snoc, last_origin_snoc.
      rewrite <- app_assoc. cbn [app]. rewrite map_app. cbn [map].
      rewrite walk_snoc. rewrite map_app in Hw. cbn [map] in Hw.
      rewrite Hw. cbn [bind fst]. rewrite Hext. reflexivity.
    + apply Forall_app. split; [exact Hcl|]. constructor; [exact Hml|constructor].
    + rewrite !length_app. simpl. lia.
    + rewrite (columns_score_snoc cfg cols move Hnodot), <- Hsc. reflexivity.
Qed.

(** X27: when the traversal can start and no sequence contains ['.'],
    the windows between the bars of the report of a local engine solved
    with a positive best score are the rows of a non-empty list of
    columns, one character per sequence each, and the best score is the
    sum over these columns of the scores of all pairs of characters of a
    column, ['.'] counting as a gap. *)
Theorem SW_score_of_columns (ss : list str) (cfg : Config) (st0 st : SW.t) :
  startable ss -> dotfree ss ->
  SW.init ss cfg = Ok st0 -> SW.solve st0 = Ok st ->
  0 < SW.bestscore st ->
  exists start pred cols lines,
    SW.flank start ss pred (lines_of (length ss) cols) start = Ok lines /\
    SW.to_str st
    = Ok ((SW.header ++ str_of_int (SW.bestscore st) ++ [newline; newline])
          ++ concat (map (fun line => line ++ [newline]) lines)) /\
    cols <> [] /\
    Forall (fun col => length col = length ss) cols /\
    SW.bestscore st = columns_score cfg cols.
Proof.
  intros Hs Hdot Hi Hsol Hpos.
  destruct (SW_solve_total ss cfg Hs) as (st0' & st' & Hi' & Hsol' & Hr & Hu).
  rewrite Hi in Hi'. injection Hi' as <-.
  rewrite Hsol in Hsol'. injection Hsol' as <-.
  pose proof (SW_reach_inv ss cfg st Hs Hr) as Hinv.
  pose proof Hinv as (Hseq & Hcfg & T & Ho & _ & _ & Hbl & Hbr & (vb & Hvb & Hsb) & _).
  pose proof (coord_sum_bound ss _ Hbl) as Hsum.
  destruct (SW_has_chain ss cfg st Hinv Hu (total_length ss) _ Hbl Hsum)
    as (start & path & Hch).
  rewrite <- Hsb in Hpos.
  destruct (chain_last_step ss cfg _ start _ path vb Hch Ho Hvb Hpos)
    as (path' & bp & move & -> & Hbs & Hmk & Hco).
  set (pred := generatecoordinates move (SW.bestcoordinate st)) in *.
  destruct (walk_chain_columns ss cfg _ start _ _ Hch Hdot Ho)
    as (cols & v & Hw & Hcl & Hn & Hv & Hsc).
  rewrite Hvb in Hv. injection Hv as <-.
  destruct (walk_chain ss cfg _ start _ _ Hch Hdot) as (rs & Hw' & Hwin).
  rewrite Hw in Hw'. injection Hw' as <-.
  destruct (window_lattice _ _ _ _ Hwin) as (Hsl & Hrl & _).
  destruct (predecessor_spec ss _ bp move Hbs Hbl Hmk) as (Hpl & _ & _).
  fold pred in Hpl.
  assert (Hmax : exists big, Py.max start = Ok big).
  { destruct start as [|x t]; [|eexists; reflexivity].
    apply in_lattice_length in Hsl. apply startable_nonempty in Hs.
    destruct ss; [contradiction Hs; reflexivity|discriminate Hsl]. }
  destruct Hmax as (big & Hmax).
  destruct (flank_lines start big Hmax ss pred (lines_of (length ss) cols) start
              (in_lattice_length _ _ Hpl) Hrl (in_lattice_length _ _ Hsl))
    as (lines & Hfl & _ & _).
  destruct (traversal_finished ss _ _ T Hu _ (lengths_in_lattice ss)) as (v & Hv).
  exists start, pred, cols, lines.
  split; [exact Hfl|]. split; [|split; [|split; [exact Hcl|]]].
  - unfold SW.to_str. rewrite Hseq, Hv. cbn [bind].
    rewrite (SW_trace_chain ss cfg _ start _ _ Hch) by exact Hsum.
    cbn [bind]. rewrite map_empty_lines, Hw. cbn [bind].
    rewrite last_origin_snoc. cbn [bind]. rewrite Hfl. reflexivity.
  - intros ->. rewrite length_app in Hn. simpl in Hn. lia.
  - rewrite <- Hsb. exact Hsc.
Qed.

Lemma SW_score_of_columns_witness :
  exists start pred cols lines,
    SW.flank start [lit "AC"; lit "GC"] pred
      (lines_of (length [lit "AC"; lit "GC"]) cols) start = Ok lines /\
    SW.to_str example_local_solved
    = Ok ((SW.header ++ str_of_int (SW.bestscore example_local_solved)
           ++ [newline; newline])
          ++ concat (map (fun line => line ++ [newline]) lines)) /\
    cols <> [] /\
    Forall (fun col => length col = length [lit "AC"; lit "GC"]) cols /\
    SW.bestscore example_local_solved = columns_score default_config cols.
Proof.
  apply (SW_score_of_columns [lit "AC"; lit "GC"] default_config
           example_local example_local_solved).
  - simpl. discriminate.
  - repeat constructor; simpl; intuition discriminate.
  - reflexivity.
  - reflexivity.
  - reflexivity.
Defined.

(** ** The command line *)

(** X28: on two sequences or more of which the first is empty, [main] of
    either file gets past the test of the number of sequences and then
    raises [IndexError] from [solve], whatever the other sequences. *)
Theorem main_empty_first (s : str) (rest : list str) :
  NW.main ([] :: s :: rest) = Raise IndexError /\
  SW.main ([] :: s :: rest) = Raise IndexError.
Proof.
  assert (Hn : ~ startable ([] :: s :: rest))
    by (simpl; intros H; apply H; reflexivity).
  split.
  - pose proof (NW_unstartable_solve ([] :: s :: rest) default_config
                  ltac:(discriminate) Hn) as H.
    unfold NW.main.
    destruct (len _ <=? 1) eqn:E;
      [apply Z.leb_le in E; unfold len in E; simpl length in E; lia|].
    destruct (NW.init ([] :: s :: rest) default_config) as [x| |];
      cbn [bind] in *;
      [rewrite H; reflexivity|injection H as ->; reflexivity|discriminate H].
  - pose proof (SW_unstartable_solve ([] :: s :: rest) default_config
                  ltac:(discriminate) Hn) as H.
    unfold SW.main.
    destruct (len _ <=? 1) eqn:E;
      [apply Z.leb_le in E; unfold len in E; simpl length in E; lia|].
    destruct (SW.init ([] :: s :: rest) default_config) as [x| |];
      cbn [bind] in *;
      [rewrite H; reflexivity|injection H as ->; reflexivity|discriminate H].
Qed.

(** ** No way scores more than the stored score *)

Lemma bases_functional (ss : list str) (c : list Z) (bp : str) :
  bases ss c bp -> forall bp', bases ss c bp' -> bp' = bp.
Proof.
  induction 1 as [ss|s ss c bp Hb IH|s ss u c ch bp Hu Hch Hb IH];
    intros bp' H'; inversion H'; subst; try reflexivity; try congruence.
  - f_equal. apply IH. assumption.
  - f_equal; [congruence|]. apply IH. assumption.
Qed.

Lemma candidates_member (ss : list str) (cfg : Config) (m : pyval)
  (c : list Z) (cands : list (list Z * Z)) (bp move : str) (vp : Score) :
  in_lattice ss c -> candidates ss cfg m c = Ok cands ->
  bases ss c bp -> masks bp move -> move <> repeat gapc (length bp) ->
  retrievematrixelement m (generatecoordinates move c) = Ok (PScore vp) ->
  In (generatecoordinates move c, score vp + movescore cfg move) cands.
Proof.
  intros Hc Hcands Hbs Hmk Hne Hvp. unfold candidates in Hcands.
  destruct (generatebasepairs_spec ss c Hc) as (bp0 & Hbp0 & Hb0).
  rewrite Hbp0 in Hcands. cbn [bind] in Hcands.
  rewrite (bases_functional ss c bp Hbs bp0 Hb0) in Hcands.
  assert (Hnil : bp <> []).
  { intros ->. inversion Hmk; subst. apply Hne. reflexivity. }
  destruct (generatemoves_spec bp Hnil) as (moves & Hm & Hin & _).
  rewrite Hm in Hcands. cbn [bind] in Hcands.
  destruct (candidates_of_member cfg m c moves cands move Hcands
              (proj2 (Hin move) (conj Hmk Hne))) as (cand & Hcand & Hval).
  rewrite (candidate_of_filled cfg m c move vp Hvp) in Hval.
  injection Hval as <-. exact Hcand.
Qed.

Lemma peak_member (cands : list (list Z * Z)) (b : Z) (p : list Z) (s : Z) :
  In (p, s) cands -> s <= peak cands b.
Proof.
  intros Hin. pose proof (peak_bound cands b) as H.
  rewrite Forall_forall in H. exact (H (p, s) Hin).
Qed.

Lemma step_from_origin (ss : list str) (c : list Z) (bp move : str) :
  in_lattice ss c -> bases ss c bp -> masks bp move ->
  move <> repeat gapc (length bp) -> c <> zeros ss.
Proof.
  intros Hc Hbs Hmk Hne ->.
  pose proof (predecessor_sum ss _ bp move Hbs Hmk Hne) as Hlt.
  destruct (predecessor_spec ss _ bp move Hbs Hc Hmk) as (Hpl & _ & _).
  pose proof (coord_sum_nonneg ss _ Hpl).
  rewrite sum_zeros in Hlt. lia.
Qed.

(** X29: in a solved global engine, the score stored at a coordinate is
    at least the sum of the scores of the moves of any way from the
    origin to that coordinate by enumerated moves: no way to the far
    corner scores more than the score the report shows. *)
Theorem NW_score_is_maximal (ss : list str) (cfg : Config) (st0 st : NW.t)
  (c : list Z) (moves : list str) :
  startable ss -> NW.init ss cfg = Ok st0 -> NW.solve st0 = Ok st ->
  move_path ss (zeros ss) c moves ->
  exists v, retrievematrixelement (NW.matrix st) c = Ok (PScore v) /\
            Py.sum (map (movescore cfg) moves) <= score v.
Proof.
  intros Hs Hi Hsol Hpath.
  destruct (NW_solve_total ss cfg Hs) as (st0' & st' & Hi' & Hsol' & Hr & Hu).
  rewrite Hi in Hi'. injection Hi' as <-.
  rewrite Hsol in Hsol'. injection Hsol' as <-.
  destruct (NW_reach_inv ss cfg st Hs Hr) as (_ & _ & T & R).
  induction Hpath as [Hz|c bp move moves Hc Hbs Hmk Hne Hpath IH].
  - eexists. split; [exact (tr_origin _ _ _ T)|]. simpl. lia.
  - destruct IH as (vp & Hvp & Hle).
    pose proof (step_from_origin ss c bp move Hc Hbs Hmk Hne) as Hd.
    destruct (R c Hc) as (cands & Hcands & Hget).
    { split; [apply rank_pos; assumption|].
      exact (finished_rank ss _ _ c T Hu Hc). }
    eexists. split; [exact Hget|].
    pose proof (candidates_member ss cfg _ c cands bp move vp Hc Hcands
                  Hbs Hmk Hne Hvp) as Hin.
    pose proof (peak_member cands NW.sentinel _ _ Hin) as Hpk.
    rewrite <- (NW_pick_peak cands NW.sentinel None) in Hpk.
    unfold NW_cell. destruct (NW_pick cands NW.sentinel None) as [ms bm].
    cbn [fst score] in *. rewrite map_app, sum_app. cbn [map Py.sum]. lia.
Qed.

Lemma NW_score_is_maximal_witness :
  exists v, retrievematrixelement (NW.matrix example_solved) [2; 1]
            = Ok (PScore v) /\
            Py.sum (map (movescore default_config) [lit "A_"; lit "CG"])
            <= score v.
Proof.
  apply (NW_score_is_maximal [lit "AC"; lit "G"] default_config
           example_fresh example_solved [2; 1] [lit "A_"; lit "CG"]).
  - simpl. discriminate.
  - reflexivity.
  - reflexivity.
  - apply (mp_step [lit "AC"; lit "G"] (zeros [lit "AC"; lit "G"])
             [2; 1] (lit "CG") (lit "CG") [lit "A_"]).
    + lattice.
    + apply bases_sym; [discriminate|reflexivity|].
      apply bases_sym; [discriminate|reflexivity|]. apply bases_nil.
    + repeat constructor.
    + discriminate.
    + apply (mp_step [lit "AC"; lit "G"] (zeros [lit "AC"; lit "G"])
               [1; 0] (lit "A_") (lit "A_") []).
      * lattice.
      * apply bases_sym; [discriminate|reflexivity|].
        apply bases_gap. apply bases_nil.
      * repeat constructor.
      * discriminate.
      * apply mp_start. lattice.
Defined.

(** X30: in a solved local engine, the best score is at least the sum of
    the scores of the moves of any way by enumerated moves between any
    two coordinates of the lattice: no such way scores more than the
    score the report shows. *)
Theorem SW_best_is_maximal (ss : list str) (cfg : Config) (st0 st : SW.t)
  (start c : list Z) (moves : list str) :
  startable ss -> SW.init ss cfg = Ok st0 -> SW.solve st0 = Ok st ->
  move_path ss start c moves ->
  Py.sum (map (movescore cfg) moves) <= SW.bestscore st.
Proof.
  intros Hs Hi Hsol Hpath.
  destruct (SW_solve_total ss cfg Hs) as (st0' & st' & Hi' & Hsol' & Hr & Hu).
  rewrite Hi in Hi'. injection Hi' as <-.
  rewrite Hsol in Hsol'. injection Hsol' as <-.
  destruct (SW_reach_inv ss cfg st Hs Hr)
    as (_ & _ & T & _ & R & Hnn & _ & _ & _ & Hball).
  assert (H : exists v, in_lattice ss c /\
                        retrievematrixelement (SW.matrix st) c = Ok (PScore v) /\
                        Py.sum (map (movescore cfg) moves) <= score v).
  { induction Hpath as [Hz|c bp move moves Hc Hbs Hmk Hne Hpath IH].
    - destruct (traversal_finished ss _ _ T Hu _ Hz) as (v & Hv).
      exists v. split; [exact Hz|]. split; [exact Hv|].
      simpl. exact (Hnn _ v Hz Hv).
    - destruct IH as (vp & _ & Hvp & Hle).
      pose proof (step_from_origin ss c bp move Hc Hbs Hmk Hne) as Hd.
      destruct (R c Hc) as (cands & Hcands & Hget).
      { split; [apply rank_pos; assumption|].
        exact (finished_rank ss _ _ c T Hu Hc). }
      eexists. split; [exact Hc|]. split; [exact Hget|].
      pose proof (candidates_member ss cfg _ c cands bp move vp Hc Hcands
                    Hbs Hmk Hne Hvp) as Hin.
      pose proof (peak_member cands 0 _ _ Hin) as Hpk.
      destruct (SW_cell_spec cands) as (Hpeak & _).
      rewrite Hpeak, map_app, sum_app. cbn [map Py.sum]. lia. }
  destruct H as (v & Hc & Hv & Hle).
  destruct (Hball c v Hc (finished_rank ss _ _ c T Hu Hc) Hv) as [Hb _].
  lia.
Qed.

Lemma SW_best_is_maximal_witness :
  Py.sum (map (movescore default_config) [lit "CC"])
  <= SW.bestscore example_local_solved.
Proof.
  apply (SW_best_is_maximal [lit "AC"; lit "GC"] default_config
           example_local example_local_solved [1; 1] [2; 2] [lit "CC"]).
  - simpl. discriminate.
  - reflexivity.
  - reflexivity.
  - apply (mp_step [lit "AC"; lit "GC"] [1; 1] [2; 2] (lit "CC") (lit "CC") []).
    + lattice.
    + apply bases_sym; [discriminate|reflexivity|].
      apply bases_sym; [discriminate|reflexivity|]. apply bases_nil.
    + repeat constructor.
    + discriminate.
    + apply mp_start. lattice.
Defined.
